(** * A shallow embedding of the recursive-descent parser of
      [src/frontend/Parser.cpp]

    The parser pulls tokens from a scanner, one token of lookahead at a
    time, consults and extends a symbol table, and assembles a tree of
    nodes.  Every procedure of the source is a function on an explicit
    parser state here; the procedures that recurse through statements or
    expressions take a fuel argument and answer [None] when it runs out. *)

From Stdlib Require Import ZArith String Ascii List Bool Lia.
From stdpp Require Import base option list strings gmap.

Local Open Scope string_scope.
Local Open Scope Z_scope.
Local Open Scope list_scope.

(** ** Tokens *)

(** The token kinds the parser tests for, and two it never mentions
    ([PERIOD], [ERROR]) standing for the kinds that no production accepts. *)
Module TokenType.
Inductive t : Set :=
| PROGRAM | BEGIN | END | REPEAT | UNTIL | WRITE | WRITELN | WHILE | DO
| NOT | PERIOD | COLON | COLON_EQUALS | SEMICOLON
| PLUS | MINUS | STAR | SLASH | LPAREN | RPAREN
| EQUALS | NOT_EQUALS | LESS_THAN | LESS_EQUALS
| GREATER_THAN | GREATER_EQUALS
| IDENTIFIER | INTEGER | REAL | CHARACTER | STRING
| END_OF_FILE | ERROR.

#[global] Instance eq_dec : EqDecision t.
Proof. solve_decision. Defined.
End TokenType.

(** The payload of a literal token, copied verbatim into constant nodes.
    A real is kept as mantissa and decimal exponent: the parser never
    computes with it. *)
Inductive Object : Set :=
| NoValue
| IntegerValue (i : Z)
| RealValue (mantissa exponent : Z)
| StringValue (s : string).

Module Token.
Record t : Set := mk {
  type : TokenType.t;
  text : string;
  value : Object;
  lineNumber : Z
}.
End Token.

(** ** Nodes *)

Module NodeType.
Inductive t : Set :=
| PROGRAM | COMPOUND | ASSIGN | LOOP | TEST | NOT | WRITE | WRITELN
| ADD | SUBTRACT | MULTIPLY | DIVIDE
| EQ | LT | LE | GT | GE | NE
| VARIABLE | INTEGER_CONSTANT | REAL_CONSTANT | STRING_CONSTANT.

#[global] Instance eq_dec : EqDecision t.
Proof. solve_decision. Defined.
End NodeType.

(** A node owns an ordered vector of child pointers; a pointer may be
    null, so a child is an [option].  [E] is the type of symbol-table
    entries a VARIABLE node may refer to. *)
Module Node.
#[local] Unset Elimination Schemes.
Inductive t (E : Type) : Type := mk {
  type : NodeType.t;
  lineNumber : Z;
  text : string;
  entry : option E;
  value : Object;
  children : list (option (t E))
}.
#[local] Set Elimination Schemes.
Arguments mk {E} _ _ _ _ _ _.
Arguments type {E} _.
Arguments lineNumber {E} _.
Arguments text {E} _.
Arguments entry {E} _.
Arguments value {E} _.
Arguments children {E} _.

(** Modelled from the spec: the constructor [Node(NodeType)] of the absent
    Node.h; a new node has its kind, no text, no payload, no symbol
    reference and no children. *)
Definition new {E} (ty : NodeType.t) : t E :=
  mk ty 0 "" None NoValue [].

(** Modelled from the spec: [Node::adopt] of the absent Node.h, the
    operation of appending a child to the parent's ordered child list.
    The pointer is appended as it is, null or not. *)
Definition adopt {E} (child : option (t E)) (parent : t E) : t E :=
  mk (type parent) (lineNumber parent) (text parent) (entry parent)
     (value parent) (children parent ++ [child]).

Definition setLineNumber {E} (n : Z) (node : t E) : t E :=
  mk (type node) n (text node) (entry node) (value node) (children node).
Definition setText {E} (s : string) (node : t E) : t E :=
  mk (type node) (lineNumber node) s (entry node) (value node)
     (children node).
Definition setEntry {E} (e : option E) (node : t E) : t E :=
  mk (type node) (lineNumber node) (text node) e (value node)
     (children node).
Definition setValue {E} (v : Object) (node : t E) : t E :=
  mk (type node) (lineNumber node) (text node) (entry node) v
     (children node).
End Node.

(** ** The external collaborators *)

(** Modelled from the spec: [Scanner.nextToken() -> Token] of the absent
    scanner, a synchronous pull of the next token with an end-of-input
    sentinel.  The scanner is the list of tokens it has yet to deliver;
    once the list is exhausted every pull answers the sentinel. *)
Module Scanner.
Definition t : Set := list Token.t.

Definition eofToken : Token.t :=
  Token.mk TokenType.END_OF_FILE "" NoValue 0.

Definition nextToken (sc : t) : Token.t * t :=
  match sc with
  | [] => (eofToken, [])
  | tok :: rest => (tok, rest)
  end.
End Scanner.

(** Modelled from the spec: [Symtab.lookup(name) -> entry | absent] and
    [Symtab.enter(name) -> entry] of the absent symbol table, as an
    interface.  [enter] always answers an entry. *)
Module Symtab.
Class Ops (T E : Type) : Type := {
  lookup : string → T → option E;
  enter : string → T → E * T
}.
End Symtab.

(** Modelled from the spec: [toLowerCase] of an absent header, used to make
    the lookups case-insensitive. *)
Definition lowerChar (c : ascii) : ascii :=
  let n := N_of_ascii c in
  if ((65 <=? n) && (n <=? 90))%N then ascii_of_N (n + 32) else c.

Fixpoint toLowerCase (s : string) : string :=
  match s with
  | EmptyString => EmptyString
  | String c rest => String (lowerChar c) (toLowerCase rest)
  end.

(** ** Token classification tables *)

Module Tables.
Record t : Set := mk {
  statementStarters : list TokenType.t;
  statementFollowers : list TokenType.t;
  relationalOperators : list TokenType.t;
  simpleExpressionOperators : list TokenType.t;
  termOperators : list TokenType.t;
  factorOperators : list TokenType.t
}.

(** The static sets before [Parser::initialize] runs. *)
Definition empty : t := mk [] [] [] [] [] [].

(** [std::set::insert]: no effect when the element is present. *)
Definition insert (x : TokenType.t) (s : list TokenType.t) :
    list TokenType.t :=
  if bool_decide (x ∈ s) then s else s ++ [x].

(** [set.find(x) != set.end()] *)
Definition contains (s : list TokenType.t) (x : TokenType.t) : bool :=
  bool_decide (x ∈ s).

Definition insertAll (xs : list TokenType.t) (s : list TokenType.t) :
    list TokenType.t :=
  fold_left (fun acc x => insert x acc) xs s.
End Tables.

Import TokenType.

(** [Parser::initialize] *)
Definition initialize (tb : Tables.t) : Tables.t :=
  Tables.mk
    (Tables.insertAll [BEGIN; IDENTIFIER; REPEAT; WHILE; WRITE; WRITELN]
       (Tables.statementStarters tb))
    (Tables.insertAll [SEMICOLON; END; UNTIL; END_OF_FILE; DO]
       (Tables.statementFollowers tb))
    (Tables.insertAll
       [EQUALS; LESS_THAN; LESS_EQUALS; GREATER_THAN; GREATER_EQUALS;
        NOT_EQUALS]
       (Tables.relationalOperators tb))
    (Tables.insertAll [PLUS; MINUS] (Tables.simpleExpressionOperators tb))
    (Tables.insertAll [STAR; SLASH] (Tables.termOperators tb))
    (Tables.insertAll [NOT] (Tables.factorOperators tb)).

(** The tables every parse reads: the static sets once [initialize] has
    run. *)
Definition tables : Tables.t := initialize Tables.empty.

Definition statementStarters : TokenType.t → bool :=
  Tables.contains (Tables.statementStarters tables).
Definition statementFollowers : TokenType.t → bool :=
  Tables.contains (Tables.statementFollowers tables).
Definition relationalOperators : TokenType.t → bool :=
  Tables.contains (Tables.relationalOperators tables).
Definition simpleExpressionOperators : TokenType.t → bool :=
  Tables.contains (Tables.simpleExpressionOperators tables).
Definition termOperators : TokenType.t → bool :=
  Tables.contains (Tables.termOperators tables).
Definition factorOperators : TokenType.t → bool :=
  Tables.contains (Tables.factorOperators tables).

(** ** Diagnostics *)

(** One line printed by [syntaxError] or [semanticError]: the channel and
    the three arguments of the format string. *)
Inductive Channel : Set := SYNTAX_ERROR | SEMANTIC_ERROR.

Record Diagnostic : Set := mkDiagnostic {
  channel : Channel;
  atLine : Z;
  message : string;
  atText : string
}.

(** ** The parser state *)

(** The fields of a [Parser] object, and the lines it has printed so far
    (oldest first).  [errorCount] is an [int] in the source; it is a [Z]
    here, exact for fewer than [2^31] errors. *)
Module Parser.
Record t (T : Type) : Type := mk {
  scanner : Scanner.t;
  symtab : T;
  currentToken : Token.t;
  lineNumber : Z;
  errorCount : Z;
  output : list Diagnostic
}.
Arguments mk {T} _ _ _ _ _ _.
Arguments scanner {T} _.
Arguments symtab {T} _.
Arguments currentToken {T} _.
Arguments lineNumber {T} _.
Arguments errorCount {T} _.
Arguments output {T} _.

(** Modelled from the spec: the constructor of the absent Parser.h.  No
    token has been read yet: [parseProgram] overwrites the placeholder
    before it looks at it. *)
Definition new {T} (sc : Scanner.t) (tab : T) : t T :=
  mk sc tab Scanner.eofToken 1 0 [].
End Parser.

Section Driver.

Context {T E : Type} `{!Symtab.Ops T E}.

#[local] Abbreviation Parser := (Parser.t T).
#[local] Abbreviation Node := (Node.t E).

(** The kind of the lookahead token, [currentToken->type]. *)
Definition currentType (p : Parser) : TokenType.t :=
  Token.type (Parser.currentToken p).

(** [currentToken = scanner->nextToken();] *)
Definition nextToken (p : Parser) : Parser :=
  let '(tok, sc) := Scanner.nextToken (Parser.scanner p) in
  Parser.mk sc (Parser.symtab p) tok (Parser.lineNumber p)
    (Parser.errorCount p) (Parser.output p).

Definition setLineNumber (n : Z) (p : Parser) : Parser :=
  Parser.mk (Parser.scanner p) (Parser.symtab p) (Parser.currentToken p) n
    (Parser.errorCount p) (Parser.output p).

Definition setSymtab (tab : T) (p : Parser) : Parser :=
  Parser.mk (Parser.scanner p) tab (Parser.currentToken p)
    (Parser.lineNumber p) (Parser.errorCount p) (Parser.output p).

(** The [printf] and the [errorCount++] both error procedures start
    with. *)
Definition report (ch : Channel) (msg : string) (p : Parser) : Parser :=
  Parser.mk (Parser.scanner p) (Parser.symtab p) (Parser.currentToken p)
    (Parser.lineNumber p) (Parser.errorCount p + 1)
    (Parser.output p ++
       [mkDiagnostic ch (Parser.lineNumber p) msg
          (Token.text (Parser.currentToken p))]).

(** The loop of [syntaxError]: pull tokens while the current one is not a
    statement follower.  The recursion is on the tokens the scanner still
    holds; when none is left the pull answers the sentinel, which is a
    follower ([skipToFollower_sentinel] below), and the loop exits. *)
Fixpoint skipToFollower (tok : Token.t) (sc : Scanner.t) :
    Token.t * Scanner.t :=
  if statementFollowers (Token.type tok) then (tok, sc)
  else match sc with
       | [] => Scanner.nextToken []
       | tok' :: rest => skipToFollower tok' rest
       end.

(** [Parser::syntaxError] *)
Definition syntaxError (msg : string) (p : Parser) : Parser :=
  let p := report SYNTAX_ERROR msg p in
  let '(tok, sc) := skipToFollower (Parser.currentToken p) (Parser.scanner p) in
  Parser.mk sc (Parser.symtab p) tok (Parser.lineNumber p)
    (Parser.errorCount p) (Parser.output p).

(** [Parser::semanticError] *)
Definition semanticError (msg : string) (p : Parser) : Parser :=
  report SEMANTIC_ERROR msg p.

(** ** Leaves *)

(** [Parser::parseVariable] *)
Definition parseVariable (p : Parser) : Node * Parser :=
  let variableName := Token.text (Parser.currentToken p) in
  let variableId :=
    Symtab.lookup (toLowerCase variableName) (Parser.symtab p) in
  let p := match variableId with
           | None => semanticError "Undeclared identifier" p
           | Some _ => p
           end in
  let node := Node.new NodeType.VARIABLE in
  let node := Node.setText variableName node in
  let node := Node.setEntry variableId node in
  (node, nextToken p).

(** [Parser::parseIntegerConstant] *)
Definition parseIntegerConstant (p : Parser) : Node * Parser :=
  let integerNode := Node.new NodeType.INTEGER_CONSTANT in
  let integerNode :=
    Node.setValue (Token.value (Parser.currentToken p)) integerNode in
  (integerNode, nextToken p).

(** [Parser::parseRealConstant] *)
Definition parseRealConstant (p : Parser) : Node * Parser :=
  let realNode := Node.new NodeType.REAL_CONSTANT in
  let realNode :=
    Node.setValue (Token.value (Parser.currentToken p)) realNode in
  (realNode, nextToken p).

(** [Parser::parseStringConstant] *)
Definition parseStringConstant (p : Parser) : Node * Parser :=
  let stringNode := Node.new NodeType.STRING_CONSTANT in
  let stringNode :=
    Node.setValue (Token.value (Parser.currentToken p)) stringNode in
  (stringNode, nextToken p).

(** ** Expressions *)

(** The conditional chain of [parseExpression] that picks the node for a
    relational operator token; [None] is its null fallback. *)
Definition relationalNode (tokenType : TokenType.t) : option Node :=
  if decide (tokenType = EQUALS) then Some (Node.new NodeType.EQ)
  else if decide (tokenType = LESS_THAN) then Some (Node.new NodeType.LT)
  else if decide (tokenType = LESS_EQUALS) then Some (Node.new NodeType.LE)
  else if decide (tokenType = GREATER_THAN) then Some (Node.new NodeType.GT)
  else if decide (tokenType = GREATER_EQUALS) then
    Some (Node.new NodeType.GE)
  else if decide (tokenType = NOT_EQUALS) then Some (Node.new NodeType.NE)
  else None.

(** [parseExpression], [parseSimpleExpression], [parseTerm] and
    [parseFactor] call one another; the two [while] loops are
    [simpleExpressionLoop] and [termLoop].  A result is the node pointer
    (null after an error in [parseFactor]) and the state reached. *)
Fixpoint parseExpression (fuel : nat) (p : Parser) {struct fuel} :
    option (option Node * Parser) :=
  match fuel with
  | O => None
  | S fuel =>
    '(exprNode, p) ← parseSimpleExpression fuel p;
    if relationalOperators (currentType p) then
      let tokenType := currentType p in
      let opNode := relationalNode tokenType in
      let p := nextToken p in
      match opNode with
      | Some opNode =>
        let opNode := Node.adopt exprNode opNode in
        '(rhs, p) ← parseSimpleExpression fuel p;
        Some (Some (Node.adopt rhs opNode), p)
      | None => Some (exprNode, p)
      end
    else Some (exprNode, p)
  end

with parseSimpleExpression (fuel : nat) (p : Parser) {struct fuel} :
    option (option Node * Parser) :=
  match fuel with
  | O => None
  | S fuel =>
    '(simpExprNode, p) ← parseTerm fuel p;
    simpleExpressionLoop fuel simpExprNode p
  end

with simpleExpressionLoop (fuel : nat) (simpExprNode : option Node)
    (p : Parser) {struct fuel} : option (option Node * Parser) :=
  if simpleExpressionOperators (currentType p) then
    match fuel with
    | O => None
    | S fuel =>
      let opNode := if decide (currentType p = PLUS)
                    then Node.new NodeType.ADD
                    else Node.new NodeType.SUBTRACT in
      let p := nextToken p in
      let opNode := Node.adopt simpExprNode opNode in
      '(term, p) ← parseTerm fuel p;
      simpleExpressionLoop fuel (Some (Node.adopt term opNode)) p
    end
  else Some (simpExprNode, p)

with parseTerm (fuel : nat) (p : Parser) {struct fuel} :
    option (option Node * Parser) :=
  match fuel with
  | O => None
  | S fuel =>
    '(termNode, p) ← parseFactor fuel p;
    termLoop fuel termNode p
  end

with termLoop (fuel : nat) (termNode : option Node) (p : Parser)
    {struct fuel} : option (option Node * Parser) :=
  if termOperators (currentType p) then
    match fuel with
    | O => None
    | S fuel =>
      let opNode := if decide (currentType p = STAR)
                    then Node.new NodeType.MULTIPLY
                    else Node.new NodeType.DIVIDE in
      let p := nextToken p in
      let opNode := Node.adopt termNode opNode in
      '(factor, p) ← parseFactor fuel p;
      termLoop fuel (Some (Node.adopt factor opNode)) p
    end
  else Some (termNode, p)

with parseFactor (fuel : nat) (p : Parser) {struct fuel} :
    option (option Node * Parser) :=
  match fuel with
  | O => None
  | S fuel =>
    if decide (currentType p = IDENTIFIER) then
      let '(node, p) := parseVariable p in Some (Some node, p)
    else if decide (currentType p = INTEGER) then
      let '(node, p) := parseIntegerConstant p in Some (Some node, p)
    else if decide (currentType p = REAL) then
      let '(node, p) := parseRealConstant p in Some (Some node, p)
    else if decide (currentType p = LPAREN) then
      let p := nextToken p in
      '(exprNode, p) ← parseExpression fuel p;
      let p := if decide (currentType p = RPAREN) then nextToken p
               else syntaxError "Expecting )" p in
      Some (exprNode, p)
    else
      let p := syntaxError "Unexpected token" p in
      Some (None, p)
  end.

(** ** Statements *)

(** [Parser::parseAssignmentStatement] *)
Definition parseAssignmentStatement (fuel : nat) (p : Parser) :
    option (Node * Parser) :=
  let assignmentNode := Node.new NodeType.ASSIGN in
  let variableName := Token.text (Parser.currentToken p) in
  let variableId :=
    Symtab.lookup (toLowerCase variableName) (Parser.symtab p) in
  let '(variableId, p) :=
    match variableId with
    | None =>
      let '(entry, tab) := Symtab.enter variableName (Parser.symtab p) in
      (entry, setSymtab tab p)
    | Some entry => (entry, p)
    end in
  let lhsNode := Node.new NodeType.VARIABLE in
  let lhsNode := Node.setText variableName lhsNode in
  let lhsNode := Node.setEntry (Some variableId) lhsNode in
  let assignmentNode := Node.adopt (Some lhsNode) assignmentNode in
  let p := nextToken p in
  let p := if decide (currentType p = COLON_EQUALS) then nextToken p
           else syntaxError "Missing :=" p in
  '(rhsNode, p) ← parseExpression fuel p;
  Some (Node.adopt rhsNode assignmentNode, p).

(** The block of [parseWriteArguments] that looks for a field width and a
    count of decimal places once an argument has been adopted. *)
Definition parseWriteFormat (node : Node) (p : Parser) : Node * Parser :=
  if decide (currentType p = COLON) then
    let p := nextToken p in
    if decide (currentType p = INTEGER) then
      let '(width, p) := parseIntegerConstant p in
      let node := Node.adopt (Some width) node in
      if decide (currentType p = COLON) then
        let p := nextToken p in
        if decide (currentType p = INTEGER) then
          let '(places, p) := parseIntegerConstant p in
          (Node.adopt (Some places) node, p)
        else (node, syntaxError "Invalid count of decimal places" p)
      else (node, p)
    else (node, syntaxError "Invalid field width" p)
  else (node, p).

(** [Parser::parseWriteArguments]; the node it appends to is threaded
    through. *)
Definition parseWriteArguments (node : Node) (p : Parser) : Node * Parser :=
  let hasArgument := false in
  let p := if decide (currentType p = LPAREN) then nextToken p
           else syntaxError "Missing left parenthesis" p in
  let '(node, hasArgument, p) :=
    if decide (currentType p = IDENTIFIER) then
      let '(var, p) := parseVariable p in
      (Node.adopt (Some var) node, true, p)
    else if bool_decide (currentType p = CHARACTER)
            || bool_decide (currentType p = STRING) then
      let '(str, p) := parseStringConstant p in
      (Node.adopt (Some str) node, true, p)
    else (node, hasArgument,
          syntaxError "Invalid WRITE or WRITELN statement" p) in
  let '(node, p) :=
    if hasArgument then parseWriteFormat node p else (node, p) in
  let p := if decide (currentType p = RPAREN) then nextToken p
           else syntaxError "Missing right parenthesis" p in
  (node, p).

(** [Parser::parseWriteStatement] *)
Definition parseWriteStatement (p : Parser) : Node * Parser :=
  let writeNode := Node.new NodeType.WRITE in
  let p := nextToken p in
  let '(writeNode, p) := parseWriteArguments writeNode p in
  let p := if decide (length (Node.children writeNode) = 0%nat)
           then syntaxError "Invalid WRITE statement" p
           else p in
  (writeNode, p).

(** [Parser::parseWritelnStatement] *)
Definition parseWritelnStatement (p : Parser) : Node * Parser :=
  let writelnNode := Node.new NodeType.WRITELN in
  let p := nextToken p in
  if decide (currentType p = LPAREN) then parseWriteArguments writelnNode p
  else (writelnNode, p).

(** The inner loop of [parseStatementList] that consumes a run of
    semicolons.  As in [skipToFollower], the pull on an exhausted scanner
    answers the sentinel, which is no semicolon. *)
Fixpoint skipSemicolons (tok : Token.t) (sc : Scanner.t) :
    Token.t * Scanner.t :=
  if decide (Token.type tok = SEMICOLON) then
    match sc with
    | [] => Scanner.nextToken []
    | tok' :: rest => skipSemicolons tok' rest
    end
  else (tok, sc).

(** What [parseStatementList] does after each statement: consume the
    separators, or report a missing one when a statement starts here. *)
Definition separator (p : Parser) : Parser :=
  if decide (currentType p = SEMICOLON) then
    let '(tok, sc) :=
      skipSemicolons (Parser.currentToken p) (Parser.scanner p) in
    Parser.mk sc (Parser.symtab p) tok (Parser.lineNumber p)
      (Parser.errorCount p) (Parser.output p)
  else if statementStarters (currentType p) then syntaxError "Missing ;" p
  else p.

(** A statement procedure answers a node that is never null;
    [parseStatement] stores it in a pointer that may be. *)
Definition nonNull (r : Node * Parser) : option Node * Parser :=
  (Some r.1, r.2).

(** [parseStatement], [parseCompoundStatement], [parseStatementList],
    [parseRepeatStatement] and [parseWhileStatement] call one another.
    [parseStatement] answers a null pointer for an empty statement and
    after an unexpected token. *)
Fixpoint parseStatement (fuel : nat) (p : Parser) {struct fuel} :
    option (option Node * Parser) :=
  match fuel with
  | O => None
  | S fuel =>
    let savedLineNumber := Token.lineNumber (Parser.currentToken p) in
    let p := setLineNumber savedLineNumber p in
    '(stmtNode, p) ←
      match currentType p with
      | IDENTIFIER => nonNull <$> parseAssignmentStatement fuel p
      | BEGIN => nonNull <$> parseCompoundStatement fuel p
      | REPEAT => nonNull <$> parseRepeatStatement fuel p
      | WRITE => Some (nonNull (parseWriteStatement p))
      | WRITELN => Some (nonNull (parseWritelnStatement p))
      | WHILE => nonNull <$> parseWhileStatement fuel p
      | SEMICOLON => Some (None, p)
      | _ => Some (None, syntaxError "Unexpected token" p)
      end;
    Some (Node.setLineNumber savedLineNumber <$> stmtNode, p)
  end

with parseCompoundStatement (fuel : nat) (p : Parser) {struct fuel} :
    option (Node * Parser) :=
  match fuel with
  | O => None
  | S fuel =>
    let compoundNode := Node.new NodeType.COMPOUND in
    let compoundNode :=
      Node.setLineNumber (Token.lineNumber (Parser.currentToken p))
        compoundNode in
    let p := nextToken p in
    '(compoundNode, p) ← parseStatementList fuel compoundNode END p;
    let p := if decide (currentType p = END) then nextToken p
             else syntaxError "Expecting END" p in
    Some (compoundNode, p)
  end

with parseStatementList (fuel : nat) (parentNode : Node)
    (terminalType : TokenType.t) (p : Parser) {struct fuel} :
    option (Node * Parser) :=
  if bool_decide (currentType p ≠ terminalType)
     && bool_decide (currentType p ≠ END_OF_FILE) then
    match fuel with
    | O => None
    | S fuel =>
      '(stmtNode, p) ← parseStatement fuel p;
      let parentNode := match stmtNode with
                        | Some _ => Node.adopt stmtNode parentNode
                        | None => parentNode
                        end in
      let p := separator p in
      parseStatementList fuel parentNode terminalType p
    end
  else Some (parentNode, p)

with parseRepeatStatement (fuel : nat) (p : Parser) {struct fuel} :
    option (Node * Parser) :=
  match fuel with
  | O => None
  | S fuel =>
    let loopNode := Node.new NodeType.LOOP in
    let p := nextToken p in
    '(loopNode, p) ← parseStatementList fuel loopNode UNTIL p;
    if decide (currentType p = UNTIL) then
      let testNode := Node.new NodeType.TEST in
      let p := setLineNumber (Token.lineNumber (Parser.currentToken p)) p in
      let testNode := Node.setLineNumber (Parser.lineNumber p) testNode in
      let p := nextToken p in
      '(exprNode, p) ← parseExpression fuel p;
      let testNode := Node.adopt exprNode testNode in
      Some (Node.adopt (Some testNode) loopNode, p)
    else Some (loopNode, syntaxError "Expecting UNTIL" p)
  end

with parseWhileStatement (fuel : nat) (p : Parser) {struct fuel} :
    option (Node * Parser) :=
  match fuel with
  | O => None
  | S fuel =>
    let loopNode := Node.new NodeType.LOOP in
    let p := nextToken p in
    let testNode := Node.new NodeType.TEST in
    let notNode := Node.new NodeType.NOT in
    '(exprNode, p) ← parseExpression fuel p;
    let notNode := Node.adopt exprNode notNode in
    let testNode := Node.adopt (Some notNode) testNode in
    let loopNode := Node.adopt (Some testNode) loopNode in
    if decide (currentType p = DO) then
      let p := nextToken p in
      '(stmtNode, p) ← parseStatement fuel p;
      Some (Node.adopt stmtNode loopNode, p)
    else Some (loopNode, syntaxError "Expecting DO" p)
  end.

(** The condition of the [while] of [parseStatementList]. *)
Definition inStatementList (terminalType : TokenType.t) (p : Parser) : bool :=
  bool_decide (currentType p ≠ terminalType)
  && bool_decide (currentType p ≠ END_OF_FILE).

(** The state [parseRepeatStatement] parses the test expression from: the
    line of UNTIL recorded, UNTIL consumed. *)
Definition afterUntil (p : Parser) : Parser :=
  nextToken (setLineNumber (Token.lineNumber (Parser.currentToken p)) p).

(** [Parser::parseProgram] *)
Definition parseProgram (fuel : nat) (p : Parser) : option (Node * Parser) :=
  let programNode := Node.new NodeType.PROGRAM in
  let p := nextToken p in
  let p := if decide (currentType p = TokenType.PROGRAM) then nextToken p
           else syntaxError "Expecting PROGRAM" p in
  let '(programNode, p) :=
    if decide (currentType p = IDENTIFIER) then
      let programName := Token.text (Parser.currentToken p) in
      let '(_, tab) := Symtab.enter programName (Parser.symtab p) in
      let p := setSymtab tab p in
      let programNode := Node.setText programName programNode in
      (programNode, nextToken p)
    else (programNode, syntaxError "Expecting program name" p) in
  let p := if decide (currentType p = SEMICOLON) then nextToken p
           else syntaxError "Missing ;" p in
  let p := if decide (currentType p ≠ BEGIN)
           then syntaxError "Expecting BEGIN" p
           else p in
  '(compoundNode, p) ← parseCompoundStatement fuel p;
  let programNode := Node.adopt (Some compoundNode) programNode in
  let p := if decide (currentType p = SEMICOLON)
           then syntaxError "Expecting ." p
           else p in
  Some (programNode, p).

End Driver.

(** ** A symbol table to run the parser on *)

(** Modelled from the spec: the absent symbol table, a directory from names
    to entries in which [lookup] is case-insensitive and [enter] keeps the
    original casing in the entry. *)
Module SimpleSymtab.
Record SymtabEntry : Set := mkEntry { name : string }.

#[global] Instance ops : Symtab.Ops (gmap string SymtabEntry) SymtabEntry := {
  lookup name tab := tab !! toLowerCase name;
  enter name tab :=
    let entry := mkEntry name in (entry, <[toLowerCase name := entry]> tab)
}.
End SimpleSymtab.

(** ** Token sequences of the examples *)

Definition word (ty : TokenType.t) (s : string) : Token.t :=
  Token.mk ty s NoValue 1.
Definition ident (s : string) : Token.t := word IDENTIFIER s.
Definition int (s : string) (i : Z) : Token.t :=
  Token.mk INTEGER s (IntegerValue i) 1.

(** The parser about to parse [toks]: a new parser reading them that has
    pulled the first one, as [parseProgram] does before anything else. *)
Definition start (toks : list Token.t)
    (tab : gmap string SimpleSymtab.SymtabEntry) :
    Parser.t (gmap string SimpleSymtab.SymtabEntry) :=
  nextToken (Parser.new toks tab).

(** A symbol table in which [names] have been entered. *)
Definition declared (names : list string) :
    gmap string SimpleSymtab.SymtabEntry :=
  foldr (fun name tab => (Symtab.enter name tab).2) ∅ names.

(** [BEGIN a := 1 a := 2 END] *)
Definition missingSeparator : list Token.t :=
  [word BEGIN "BEGIN"; ident "a"; word COLON_EQUALS ":="; int "1" 1;
   ident "a"; word COLON_EQUALS ":="; int "2" 2; word END "END"].

(** [x := 1 + 2 * 3] *)
Definition precedence : list Token.t :=
  [ident "x"; word COLON_EQUALS ":="; int "1" 1; word PLUS "+"; int "2" 2;
   word STAR "*"; int "3" 3].

(** [REPEAT x := x + 1 UNTIL x = 10] *)
Definition repeatLoop : list Token.t :=
  [word REPEAT "REPEAT"; ident "x"; word COLON_EQUALS ":="; ident "x";
   word PLUS "+"; int "1" 1; word UNTIL "UNTIL"; ident "x";
   word EQUALS "="; int "10" 10].

(** [WHILE x < 10 DO x := x + 1] *)
Definition whileLoop : list Token.t :=
  [word WHILE "WHILE"; ident "x"; word LESS_THAN "<"; int "10" 10;
   word DO "DO"; ident "x"; word COLON_EQUALS ":="; ident "x";
   word PLUS "+"; int "1" 1].

(** [a = b = c] *)
Definition chained : list Token.t :=
  [ident "a"; word EQUALS "="; ident "b"; word EQUALS "="; ident "c"].

(** [BEGIN y := z END] *)
Definition undeclared : list Token.t :=
  [word BEGIN "BEGIN"; ident "y"; word COLON_EQUALS ":="; ident "z";
   word END "END"].

(** [PROGRAM p ; BEGIN DO END .] *)
Definition strayDo : list Token.t :=
  [word TokenType.PROGRAM "PROGRAM"; ident "p"; word SEMICOLON ";";
   word BEGIN "BEGIN"; word DO "DO"; word END "END"; word PERIOD "."].

(** [WRITE END], a WRITE statement without an argument. *)
Definition writeNothing : list Token.t :=
  [word WRITE "WRITE"; word END "END"].

(** [WRITELN ;] *)
Definition writelnAlone : list Token.t :=
  [word WRITELN "WRITELN"; word SEMICOLON ";"].

(** [( x : 8 : 2 )], the arguments of a WRITE with a field width and a
    count of decimal places. *)
Definition writeFormatted : list Token.t :=
  [word LPAREN "("; ident "x"; word COLON ":"; int "8" 8; word COLON ":";
   int "2" 2; word RPAREN ")"].


(** ** Vocabulary of the properties *)

Section Vocabulary.

Context {T E : Type} `{!Symtab.Ops T E}.

#[local] Abbreviation Parser := (Parser.t T).
#[local] Abbreviation Node := (Node.t E).






(** The elementary changes of the parser state: pulling a token, printing
    a line and counting the error, recording a line number, replacing the
    symbol table.  Every procedure is a sequence of these. *)
Inductive step : Parser → Parser → Prop :=
| step_nextToken p : step p (nextToken p)
| step_report ch msg p : step p (report ch msg p)
| step_setLineNumber n p : step p (setLineNumber n p)
| step_setSymtab tab p : step p (setSymtab tab p).

Definition reaches : Parser → Parser → Prop := rtc step.


(** The trees the examples expect. *)
Definition variable (name : string) (entry : option E) : Node :=
  Node.mk NodeType.VARIABLE 0 name entry NoValue [].
Definition integer (i : Z) : Node :=
  Node.mk NodeType.INTEGER_CONSTANT 0 "" None (IntegerValue i) [].
Definition binary (kind : NodeType.t) (left right : Node) : Node :=
  Node.mk kind 0 "" None NoValue [Some left; Some right].
Definition unary (kind : NodeType.t) (line : Z) (child : Node) : Node :=
  Node.mk kind line "" None NoValue [Some child].
Definition statement (kind : NodeType.t) (line : Z)
    (children : list Node) : Node :=
  Node.mk kind line "" None NoValue (Some <$> children).


(** [pending p toks]: the lookahead of [p] followed by what its scanner
    holds is [toks]; with [toks] empty the lookahead is the sentinel of an
    exhausted scanner. *)
Definition pending (p : Parser) (toks : list Token.t) : Prop :=
  Parser.currentToken p = hd Scanner.eofToken toks ∧
  Parser.scanner p = tl toks.

(** The operands that are a single token, and the node [parseFactor]
    builds for each under the symbol table [tab]. *)
Definition isOperand (tok : Token.t) : Prop :=
  Token.type tok ∈ [IDENTIFIER; INTEGER; REAL].

Definition operandNode (tab : T) (tok : Token.t) : Node :=
  if decide (Token.type tok = IDENTIFIER) then
    variable (Token.text tok)
      (Symtab.lookup (toLowerCase (Token.text tok)) tab)
  else
    Node.mk (if decide (Token.type tok = INTEGER)
             then NodeType.INTEGER_CONSTANT else NodeType.REAL_CONSTANT)
      0 "" None (Token.value tok) [].

(** A product is an operand followed by pairs of a [*] or [/] token and an
    operand; its tree folds the pairs from the left. *)
Record Product : Type := mkProduct {
  firstFactor : Token.t;
  moreFactors : list (Token.t * Token.t)
}.

Definition factorTokens (fs : list (Token.t * Token.t)) : list Token.t :=
  flat_map (fun '(op, f) => [op; f]) fs.

Definition productTokens (pr : Product) : list Token.t :=
  firstFactor pr :: factorTokens (moreFactors pr).

Definition factorFold (tab : T) (fs : list (Token.t * Token.t))
    (acc : Node) : Node :=
  fold_left
    (fun acc '(op, f) =>
       binary (if decide (Token.type op = STAR)
               then NodeType.MULTIPLY else NodeType.DIVIDE)
         acc (operandNode tab f))
    fs acc.

Definition productNode (tab : T) (pr : Product) : Node :=
  factorFold tab (moreFactors pr) (operandNode tab (firstFactor pr)).

Definition isFactors (fs : list (Token.t * Token.t)) : Prop :=
  Forall (fun '(op, f) =>
            termOperators (Token.type op) = true ∧ isOperand f) fs.

Definition isProduct (pr : Product) : Prop :=
  isOperand (firstFactor pr) ∧ isFactors (moreFactors pr).

(** A sum is a product followed by pairs of a [+] or [-] token and a
    product; its tree folds the pairs from the left, each product a
    subtree. *)
Record Sum : Type := mkSum {
  firstTerm : Product;
  moreTerms : list (Token.t * Product)
}.

Definition termTokens (ts : list (Token.t * Product)) : list Token.t :=
  flat_map (fun '(op, pr) => op :: productTokens pr) ts.

Definition sumTokens (s : Sum) : list Token.t :=
  productTokens (firstTerm s) ++ termTokens (moreTerms s).

Definition termFold (tab : T) (ts : list (Token.t * Product))
    (acc : Node) : Node :=
  fold_left
    (fun acc '(op, pr) =>
       binary (if decide (Token.type op = PLUS)
               then NodeType.ADD else NodeType.SUBTRACT)
         acc (productNode tab pr))
    ts acc.

Definition sumNode (tab : T) (s : Sum) : Node :=
  termFold tab (moreTerms s) (productNode tab (firstTerm s)).

Definition isTerms (ts : list (Token.t * Product)) : Prop :=
  Forall (fun '(op, pr) =>
            simpleExpressionOperators (Token.type op) = true ∧
            isProduct pr) ts.

Definition isSum (s : Sum) : Prop :=
  isProduct (firstTerm s) ∧ isTerms (moreTerms s).

(** A token that continues neither a product, nor a sum, nor a
    comparison. *)
Definition endsExpression (tok : Token.t) : Prop :=
  termOperators (Token.type tok) = false ∧
  simpleExpressionOperators (Token.type tok) = false ∧
  relationalOperators (Token.type tok) = false.


(** The lookahead and the tokens the scanner still holds. *)
Definition stream (p : Parser) : list Token.t :=
  Parser.currentToken p :: Parser.scanner p.

(** The tokens of [toks] before the first statement follower: an
    expression reads no further ([parseExpression_stops_at_follower]
    below). *)
Fixpoint beforeFollower (toks : list Token.t) : list Token.t :=
  match toks with
  | [] => []
  | tok :: rest =>
    if statementFollowers (Token.type tok) then []
    else tok :: beforeFollower rest
  end.

(** No left parenthesis is left to read before the next statement
    follower. *)
Definition noParenthesisAhead (p : Parser) : Prop :=
  Forall (fun tok => Token.type tok ≠ LPAREN) (beforeFollower (stream p)).





(** The tokens other than the sentinel among the lookahead and what the
    scanner holds: what is left for the parser to consume. *)
Definition weight (p : Parser) : nat :=
  length (filter (fun tok => Token.type tok ≠ END_OF_FILE) (stream p)).

End Vocabulary.


(** The entry [SimpleSymtab] answers for [name]. *)
Definition entryOf (name : string) : option SimpleSymtab.SymtabEntry :=
  Some (SimpleSymtab.mkEntry name).

(** [1 + 2 * 3]: the product [1] and, after [+], the product [2 * 3]. *)
Definition onePlusTwoTimesThree : Sum :=
  mkSum (mkProduct (int "1" 1) [])
    [(word PLUS "+", mkProduct (int "2" 2) [(word STAR "*", int "3" 3)])].

(** ** Vocabulary of further properties *)

Section Coverage.

Context {T E : Type} `{!Symtab.Ops T E}.

#[local] Abbreviation Parser := (Parser.t T).
#[local] Abbreviation Node := (Node.t E).

(** [consumes p p']: the tokens read between [p] and [p'] are [consumed],
    none of them a statement follower.  Either what is left at [p'] is the
    rest of what was left at [p], or everything was read and the lookahead
    of [p'] is the sentinel of the exhausted scanner. *)
Definition consumes (p p' : Parser) : Prop :=
  ∃ consumed,
    Forall (fun tok => statementFollowers (Token.type tok) = false)
      consumed ∧
    (stream p = consumed ++ stream p' ∨
     (stream p = consumed ∧ stream p' = [Scanner.eofToken])).

(** The node kinds of an expression tree. *)
Definition leafKinds : list NodeType.t :=
  [NodeType.VARIABLE; NodeType.INTEGER_CONSTANT; NodeType.REAL_CONSTANT].

Definition operatorKinds : list NodeType.t :=
  [NodeType.ADD; NodeType.SUBTRACT; NodeType.MULTIPLY; NodeType.DIVIDE;
   NodeType.EQ; NodeType.LT; NodeType.LE; NodeType.GT; NodeType.GE;
   NodeType.NE].

(** A tree of leaves without children and of operator nodes with exactly
    two children, each null or such a tree again. *)
Fixpoint expressionTree (n : Node) : bool :=
  match Node.children n with
  | [] => bool_decide (Node.type n ∈ leafKinds)
  | [l; r] =>
    bool_decide (Node.type n ∈ operatorKinds)
    && match l with Some c => expressionTree c | None => true end
    && match r with Some c => expressionTree c | None => true end
  | _ => false
  end.

Definition expressionTreeOf (n : option Node) : bool :=
  from_option expressionTree true n.

(** No REPEAT, UNTIL or DO is left to read. *)
Definition noLoopToken (p : Parser) : Prop :=
  ∀ tok, tok ∈ stream p → Token.type tok ∉ [REPEAT; UNTIL; DO].

End Coverage.

(** ** Token sequences of the further examples *)

(** [a + 1 ; b] *)
Definition sumThenSemicolon : list Token.t :=
  [ident "a"; word PLUS "+"; int "1" 1; word SEMICOLON ";"; ident "b"].

(** [; ; END] *)
Definition emptyStatements : list Token.t :=
  [word SEMICOLON ";"; word SEMICOLON ";"; word END "END"].

(** [BEGIN x := 1 END] *)
Definition oneAssignment : list Token.t :=
  [word BEGIN "BEGIN"; ident "x"; word COLON_EQUALS ":="; int "1" 1;
   word END "END"].

(** [x := 1] *)
Definition assignOne : list Token.t :=
  [ident "x"; word COLON_EQUALS ":="; int "1" 1].

(** [WRITE ( 1 )], a WRITE statement whose argument is a number. *)
Definition writeNumber : list Token.t :=
  [word WRITE "WRITE"; word LPAREN "("; int "1" 1; word RPAREN ")"].

(** [REPEAT x := 1], a loop the input ends in. *)
Definition repeatOpen : list Token.t :=
  [word REPEAT "REPEAT"; ident "x"; word COLON_EQUALS ":="; int "1" 1].

(** [WHILE x DO ;], a loop over the empty statement. *)
Definition whileEmpty : list Token.t :=
  [word WHILE "WHILE"; ident "x"; word DO "DO"; word SEMICOLON ";"].

(** [BEGIN UNTIL] *)
Definition strayUntil : list Token.t :=
  [word BEGIN "BEGIN"; word UNTIL "UNTIL"].


(** [- 1 ;], an expression with a sign. *)
Definition negative : list Token.t :=
  [word MINUS "-"; int "1" 1; word SEMICOLON ";"].

(** [x 1], a file without a statement follower. *)
Definition noFollower : list Token.t := [ident "x"; int "1" 1].

(** [PROGRAM demo ; BEGIN x := 1 ; ; WRITELN ( x ) END .] *)
Definition wholeProgram : list Token.t :=
  [word TokenType.PROGRAM "PROGRAM"; ident "demo"; word SEMICOLON ";";
   word BEGIN "BEGIN"; ident "x"; word COLON_EQUALS ":="; int "1" 1;
   word SEMICOLON ";"; word SEMICOLON ";"; word WRITELN "WRITELN";
   word LPAREN "("; ident "x"; word RPAREN ")"; word END "END";
   word PERIOD "."].


(** * Properties *)

(** ** The classification tables *)

Lemma statementFollowers_spec ty :
  statementFollowers ty = true ↔
  ty ∈ [SEMICOLON; END; UNTIL; END_OF_FILE; DO].
Proof.
  unfold statementFollowers, Tables.contains.
  rewrite bool_decide_eq_true. reflexivity.
Qed.

Lemma statementStarters_spec ty :
  statementStarters ty = true ↔
  ty ∈ [BEGIN; IDENTIFIER; REPEAT; WHILE; WRITE; WRITELN].
Proof.
  unfold statementStarters, Tables.contains.
  rewrite bool_decide_eq_true. reflexivity.
Qed.

Lemma relationalOperators_spec ty :
  relationalOperators ty = true ↔
  ty ∈ [EQUALS; LESS_THAN; LESS_EQUALS; GREATER_THAN; GREATER_EQUALS;
        NOT_EQUALS].
Proof.
  unfold relationalOperators, Tables.contains.
  rewrite bool_decide_eq_true. reflexivity.
Qed.

Lemma simpleExpressionOperators_spec ty :
  simpleExpressionOperators ty = true ↔ ty ∈ [PLUS; MINUS].
Proof.
  unfold simpleExpressionOperators, Tables.contains.
  rewrite bool_decide_eq_true. reflexivity.
Qed.

Lemma termOperators_spec ty :
  termOperators ty = true ↔ ty ∈ [STAR; SLASH].
Proof.
  unfold termOperators, Tables.contains.
  rewrite bool_decide_eq_true. reflexivity.
Qed.

(** Running [initialize] again leaves the tables as they are. *)
Lemma initialize_idempotent : initialize tables = tables.
Proof. reflexivity. Qed.

(** The sentinel is a statement follower: this is what ends the loop of
    [syntaxError] on an exhausted scanner. *)
Lemma skipToFollower_sentinel :
  statementFollowers (Token.type Scanner.eofToken) = true.
Proof. reflexivity. Qed.

Lemma skipToFollower_follower tok sc :
  statementFollowers (Token.type (skipToFollower tok sc).1) = true.
Proof.
  revert tok. induction sc as [|tok' rest IH]; intros tok; simpl.
  - destruct (statementFollowers (Token.type tok)) eqn:Hf; [exact Hf|].
    reflexivity.
  - destruct (statementFollowers (Token.type tok)) eqn:Hf; [exact Hf|].
    apply IH.
Qed.

(** The loop discards nothing when the current token is a follower. *)
Lemma skipToFollower_stay tok sc :
  statementFollowers (Token.type tok) = true →
  skipToFollower tok sc = (tok, sc).
Proof. intros Hf. destruct sc; simpl; rewrite Hf; reflexivity. Qed.

(** What the loop leaves in the scanner is a suffix of what it found. *)
Lemma skipToFollower_suffix tok sc :
  (skipToFollower tok sc).2 `suffix_of` sc.
Proof.
  revert tok. induction sc as [|tok' rest IH]; intros tok; simpl.
  - destruct (statementFollowers (Token.type tok)); reflexivity.
  - destruct (statementFollowers (Token.type tok)); [reflexivity|].
    apply suffix_cons_r, IH.
Qed.

Section Properties.

Context {T E : Type} `{!Symtab.Ops T E}.

#[local] Abbreviation Parser := (Parser.t T).
#[local] Abbreviation Node := (Node.t E).

(** ** The error procedures *)

Lemma syntaxError_errorCount msg (p : Parser) :
  Parser.errorCount (syntaxError msg p) = Parser.errorCount p + 1.
Proof.
  unfold syntaxError.
  destruct (skipToFollower _ _) as [tok sc]. reflexivity.
Qed.

Lemma syntaxError_output msg (p : Parser) :
  Parser.output (syntaxError msg p) =
  Parser.output p ++
    [mkDiagnostic SYNTAX_ERROR (Parser.lineNumber p) msg
       (Token.text (Parser.currentToken p))].
Proof.
  unfold syntaxError.
  destruct (skipToFollower _ _) as [tok sc]. reflexivity.
Qed.

Lemma syntaxError_follower msg (p : Parser) :
  statementFollowers (currentType (syntaxError msg p)) = true.
Proof.
  unfold syntaxError, currentType.
  pose proof (skipToFollower_follower
                (Parser.currentToken (report SYNTAX_ERROR msg p))
                (Parser.scanner (report SYNTAX_ERROR msg p))) as Hf.
  destruct (skipToFollower _ _) as [tok sc]. exact Hf.
Qed.

Lemma syntaxError_symtab msg (p : Parser) :
  Parser.symtab (syntaxError msg p) = Parser.symtab p.
Proof.
  unfold syntaxError.
  destruct (skipToFollower _ _) as [tok sc]. reflexivity.
Qed.

(** On a follower [syntaxError] only reports: no token is discarded. *)
Lemma syntaxError_stay msg (p : Parser) :
  statementFollowers (currentType p) = true →
  syntaxError msg p = report SYNTAX_ERROR msg p.
Proof.
  intros Hf. unfold syntaxError.
  rewrite skipToFollower_stay by exact Hf.
  destruct p; reflexivity.
Qed.

Lemma nextToken_pull (p : Parser) :
  (Parser.currentToken (nextToken p), Parser.scanner (nextToken p)) =
  Scanner.nextToken (Parser.scanner p).
Proof. unfold nextToken. destruct (Scanner.nextToken _). reflexivity. Qed.

Lemma nextToken_symtab (p : Parser) :
  Parser.symtab (nextToken p) = Parser.symtab p.
Proof. unfold nextToken. destruct (Scanner.nextToken _). reflexivity. Qed.

Lemma nextToken_errorCount (p : Parser) :
  Parser.errorCount (nextToken p) = Parser.errorCount p.
Proof. unfold nextToken. destruct (Scanner.nextToken _). reflexivity. Qed.

Lemma nextToken_output (p : Parser) :
  Parser.output (nextToken p) = Parser.output p.
Proof. unfold nextToken. destruct (Scanner.nextToken _). reflexivity. Qed.

Lemma nextToken_lineNumber (p : Parser) :
  Parser.lineNumber (nextToken p) = Parser.lineNumber p.
Proof. unfold nextToken. destruct (Scanner.nextToken _). reflexivity. Qed.

(** ** Every procedure is a sequence of elementary steps *)

#[local] Instance reaches_preorder : PreOrder (reaches (T:=T)).
Proof. unfold reaches. apply _. Qed.

Lemma reaches_step (p p' : Parser) : step p p' → reaches p p'.
Proof. apply rtc_once. Qed.

Lemma reaches_nextToken (p : Parser) : reaches p (nextToken p).
Proof. apply reaches_step. constructor. Qed.

Lemma reaches_skipToFollower sc (tab : T) tok ln ec out :
  reaches (Parser.mk sc tab tok ln ec out)
    (Parser.mk (skipToFollower tok sc).2 tab (skipToFollower tok sc).1
       ln ec out).
Proof.
  revert tok. induction sc as [|tok' rest IH]; intros tok; simpl.
  - destruct (statementFollowers (Token.type tok)); [reflexivity|].
    apply (reaches_nextToken (Parser.mk [] tab tok ln ec out)).
  - destruct (statementFollowers (Token.type tok)); [reflexivity|].
    etrans; [|apply IH].
    apply (reaches_nextToken (Parser.mk (tok' :: rest) tab tok ln ec out)).
Qed.

Lemma reaches_syntaxError msg (p : Parser) : reaches p (syntaxError msg p).
Proof.
  etrans; [apply reaches_step, (step_report SYNTAX_ERROR msg)|].
  unfold syntaxError.
  pose proof (reaches_skipToFollower
    (Parser.scanner (report SYNTAX_ERROR msg p))
    (Parser.symtab (report SYNTAX_ERROR msg p))
    (Parser.currentToken (report SYNTAX_ERROR msg p))
    (Parser.lineNumber (report SYNTAX_ERROR msg p))
    (Parser.errorCount (report SYNTAX_ERROR msg p))
    (Parser.output (report SYNTAX_ERROR msg p))) as Hskip.
  destruct (skipToFollower _ _) as [tok sc]. exact Hskip.
Qed.

Lemma reaches_skipSemicolons sc (tab : T) tok ln ec out :
  reaches (Parser.mk sc tab tok ln ec out)
    (Parser.mk (skipSemicolons tok sc).2 tab (skipSemicolons tok sc).1
       ln ec out).
Proof.
  revert tok. induction sc as [|tok' rest IH]; intros tok; simpl.
  - destruct (decide (Token.type tok = SEMICOLON)); [|reflexivity].
    apply (reaches_nextToken (Parser.mk [] tab tok ln ec out)).
  - destruct (decide (Token.type tok = SEMICOLON)); [|reflexivity].
    etrans; [|apply IH].
    apply (reaches_nextToken (Parser.mk (tok' :: rest) tab tok ln ec out)).
Qed.

Lemma reaches_separator (p : Parser) : reaches p (separator p).
Proof.
  unfold separator. case_decide.
  - pose proof (reaches_skipSemicolons (Parser.scanner p) (Parser.symtab p)
      (Parser.currentToken p) (Parser.lineNumber p) (Parser.errorCount p)
      (Parser.output p)) as Hskip.
    destruct (skipSemicolons _ _) as [tok sc]. destruct p. exact Hskip.
  - destruct (statementStarters _); [apply reaches_syntaxError|reflexivity].
Qed.

Lemma reaches_parseVariable (p : Parser) : reaches p (parseVariable p).2.
Proof.
  unfold parseVariable. simpl.
  destruct (Symtab.lookup _ _); [apply reaches_nextToken|].
  etrans; [|apply reaches_nextToken].
  apply reaches_step. constructor.
Qed.

(** Reaching a state never lowers the error count, only extends what was
    printed, and only shortens what the scanner holds. *)
Lemma reaches_errorCount (p p' : Parser) :
  reaches p p' → Parser.errorCount p ≤ Parser.errorCount p'.
Proof.
  induction 1 as [|p q r Hstep _ IH]; [lia|].
  etrans; [|exact IH].
  destruct Hstep; rewrite ?nextToken_errorCount; simpl; lia.
Qed.

Lemma reaches_output (p p' : Parser) :
  reaches p p' → Parser.output p `prefix_of` Parser.output p'.
Proof.
  induction 1 as [|p q r Hstep _ IH]; [reflexivity|].
  etrans; [|exact IH].
  destruct Hstep; rewrite ?nextToken_output; simpl;
    try reflexivity.
  by apply prefix_app_r.
Qed.

Lemma reaches_scanner (p p' : Parser) :
  reaches p p' → Parser.scanner p' `suffix_of` Parser.scanner p.
Proof.
  induction 1 as [|p q r Hstep _ IH]; [reflexivity|].
  etrans; [exact IH|].
  destruct Hstep; simpl; try reflexivity.
  unfold nextToken. destruct (Parser.scanner p) as [|tok rest]; simpl.
  - reflexivity.
  - by apply suffix_cons_r.
Qed.


(** ** Unfolding the recursive procedures *)

Lemma parseExpression_S fuel (p : Parser) :
  parseExpression (S fuel) p =
  '(exprNode, p) ← parseSimpleExpression fuel p;
  if relationalOperators (currentType p) then
    match relationalNode (currentType p) with
    | Some opNode =>
      '(rhs, p') ← parseSimpleExpression fuel (nextToken p);
      Some (Some (Node.adopt rhs (Node.adopt exprNode opNode)), p')
    | None => Some (exprNode, nextToken p)
    end
  else Some (exprNode, p).
Proof. reflexivity. Qed.

Lemma parseSimpleExpression_S fuel (p : Parser) :
  parseSimpleExpression (S fuel) p =
  '(simpExprNode, p) ← parseTerm fuel p;
  simpleExpressionLoop fuel simpExprNode p.
Proof. reflexivity. Qed.

Lemma simpleExpressionLoop_exit fuel (n : option Node) (p : Parser) :
  simpleExpressionOperators (currentType p) = false →
  simpleExpressionLoop fuel n p = Some (n, p).
Proof. intros Hop. destruct fuel; simpl; rewrite Hop; reflexivity. Qed.

Lemma simpleExpressionLoop_S fuel (n : option Node) (p : Parser) :
  simpleExpressionOperators (currentType p) = true →
  simpleExpressionLoop (S fuel) n p =
  '(term, p') ← parseTerm fuel (nextToken p);
  simpleExpressionLoop fuel
    (Some (Node.adopt term
             (Node.adopt n
                (if decide (currentType p = PLUS)
                 then Node.new NodeType.ADD
                 else Node.new NodeType.SUBTRACT)))) p'.
Proof. intros Hop. simpl. rewrite Hop. reflexivity. Qed.

Lemma simpleExpressionLoop_O (n : option Node) (p : Parser) :
  simpleExpressionOperators (currentType p) = true →
  simpleExpressionLoop O n p = None.
Proof. intros Hop. simpl. rewrite Hop. reflexivity. Qed.

Lemma parseTerm_S fuel (p : Parser) :
  parseTerm (S fuel) p =
  '(termNode, p) ← parseFactor fuel p;
  termLoop fuel termNode p.
Proof. reflexivity. Qed.

Lemma termLoop_exit fuel (n : option Node) (p : Parser) :
  termOperators (currentType p) = false →
  termLoop fuel n p = Some (n, p).
Proof. intros Hop. destruct fuel; simpl; rewrite Hop; reflexivity. Qed.

Lemma termLoop_S fuel (n : option Node) (p : Parser) :
  termOperators (currentType p) = true →
  termLoop (S fuel) n p =
  '(factor, p') ← parseFactor fuel (nextToken p);
  termLoop fuel
    (Some (Node.adopt factor
             (Node.adopt n
                (if decide (currentType p = STAR)
                 then Node.new NodeType.MULTIPLY
                 else Node.new NodeType.DIVIDE)))) p'.
Proof. intros Hop. simpl. rewrite Hop. reflexivity. Qed.

Lemma termLoop_O (n : option Node) (p : Parser) :
  termOperators (currentType p) = true →
  termLoop O n p = None.
Proof. intros Hop. simpl. rewrite Hop. reflexivity. Qed.

Lemma parseFactor_S fuel (p : Parser) :
  parseFactor (S fuel) p =
  if decide (currentType p = IDENTIFIER) then
    Some (nonNull (parseVariable p))
  else if decide (currentType p = INTEGER) then
    Some (nonNull (parseIntegerConstant p))
  else if decide (currentType p = REAL) then
    Some (nonNull (parseRealConstant p))
  else if decide (currentType p = LPAREN) then
    '(exprNode, p') ← parseExpression fuel (nextToken p);
    Some (exprNode,
          if decide (currentType p' = RPAREN) then nextToken p'
          else syntaxError "Expecting )" p')
  else Some (None, syntaxError "Unexpected token" p).
Proof.
  simpl. repeat case_decide; try reflexivity.
Qed.

Lemma parseStatement_S fuel (p : Parser) :
  parseStatement (S fuel) p =
  let savedLineNumber := Token.lineNumber (Parser.currentToken p) in
  let p := setLineNumber savedLineNumber p in
  '(stmtNode, p) ←
    match currentType p with
    | IDENTIFIER => nonNull <$> parseAssignmentStatement fuel p
    | BEGIN => nonNull <$> parseCompoundStatement fuel p
    | REPEAT => nonNull <$> parseRepeatStatement fuel p
    | WRITE => Some (nonNull (parseWriteStatement p))
    | WRITELN => Some (nonNull (parseWritelnStatement p))
    | WHILE => nonNull <$> parseWhileStatement fuel p
    | SEMICOLON => Some (None, p)
    | _ => Some (None, syntaxError "Unexpected token" p)
    end;
  Some (Node.setLineNumber savedLineNumber <$> stmtNode, p).
Proof. reflexivity. Qed.

Lemma parseCompoundStatement_S fuel (p : Parser) :
  parseCompoundStatement (S fuel) p =
  '(compoundNode, p') ←
    parseStatementList fuel
      (Node.setLineNumber (Token.lineNumber (Parser.currentToken p))
         (Node.new NodeType.COMPOUND))
      END (nextToken p);
  Some (compoundNode,
        if decide (currentType p' = END) then nextToken p'
        else syntaxError "Expecting END" p').
Proof. reflexivity. Qed.

Lemma parseStatementList_exit fuel (parent : Node) terminalType
    (p : Parser) :
  inStatementList terminalType p = false →
  parseStatementList fuel parent terminalType p = Some (parent, p).
Proof.
  unfold inStatementList. intros Hc.
  destruct fuel; simpl; rewrite Hc; reflexivity.
Qed.

Lemma parseStatementList_S fuel (parent : Node) terminalType (p : Parser) :
  inStatementList terminalType p = true →
  parseStatementList (S fuel) parent terminalType p =
  '(stmtNode, p') ← parseStatement fuel p;
  parseStatementList fuel
    (match stmtNode with
     | Some _ => Node.adopt stmtNode parent
     | None => parent
     end) terminalType (separator p').
Proof. unfold inStatementList. intros Hc. simpl. rewrite Hc. reflexivity. Qed.

Lemma parseStatementList_O (parent : Node) terminalType (p : Parser) :
  inStatementList terminalType p = true →
  parseStatementList O parent terminalType p = None.
Proof. unfold inStatementList. intros Hc. simpl. rewrite Hc. reflexivity. Qed.

Lemma parseRepeatStatement_S fuel (p : Parser) :
  parseRepeatStatement (S fuel) p =
  '(loopNode, p') ←
    parseStatementList fuel (Node.new NodeType.LOOP) UNTIL (nextToken p);
  if decide (currentType p' = UNTIL) then
    '(exprNode, p'') ← parseExpression fuel (afterUntil p');
    Some (Node.adopt
            (Some (Node.adopt exprNode
                     (Node.setLineNumber
                        (Token.lineNumber (Parser.currentToken p'))
                        (Node.new NodeType.TEST))))
            loopNode, p'')
  else Some (loopNode, syntaxError "Expecting UNTIL" p').
Proof. reflexivity. Qed.

Lemma parseWhileStatement_S fuel (p : Parser) :
  parseWhileStatement (S fuel) p =
  '(exprNode, p') ← parseExpression fuel (nextToken p);
  let loopNode :=
    Node.adopt
      (Some (Node.adopt
               (Some (Node.adopt exprNode (Node.new NodeType.NOT)))
               (Node.new NodeType.TEST)))
      (Node.new NodeType.LOOP) in
  if decide (currentType p' = DO) then
    '(stmtNode, p'') ← parseStatement fuel (nextToken p');
    Some (Node.adopt stmtNode loopNode, p'')
  else Some (loopNode, syntaxError "Expecting DO" p').
Proof. reflexivity. Qed.


(** ** Proof steps shared below *)

(** Split a hypothesis [m ≫= k = Some r] on the result of [m]. *)
Ltac bind_inv H :=
  match type of H with
  | (?m ≫= _) = Some _ =>
    let E := fresh "Hcall" in
    let n := fresh "n" in
    let q := fresh "q" in
    destruct m as [[n q]|] eqn:E; simpl in H; [|discriminate H]
  | (_ <$> ?m) = Some _ =>
    let E := fresh "Hcall" in
    let n := fresh "n" in
    let q := fresh "q" in
    destruct m as [[n q]|] eqn:E; simpl in H; [|discriminate H]
  end.

Ltac some_inv H := injection H as ??; subst.

(** Invert the result of one branch of the [switch] of [parseStatement]. *)
Ltac dispatch H :=
  match type of H with
  | (nonNull <$> _) = Some _ => bind_inv H; some_inv H
  | Some (nonNull _) = Some _ => unfold nonNull in H; some_inv H
  | Some _ = Some _ => some_inv H
  end.

(** Prove [reaches p q] when [q] is [p], or a state known to be reached
    from [p], under pulls and syntax errors. *)
Ltac peel :=
  repeat match goal with
  | |- reaches ?p ?p => reflexivity
  | H : reaches ?p ?q |- reaches ?p ?q => exact H
  | |- reaches ?p (nextToken ?q) =>
    transitivity q; [|apply reaches_nextToken]
  | |- reaches ?p (syntaxError _ ?q) =>
    transitivity q; [|apply reaches_syntaxError]
  end.

(** ** Parsing is a sequence of elementary steps *)

Lemma reaches_expressions fuel :
  (∀ (p p' : Parser) (n : option Node),
     parseExpression fuel p = Some (n, p') → reaches p p') ∧
  (∀ (p p' : Parser) (n : option Node),
     parseSimpleExpression fuel p = Some (n, p') → reaches p p') ∧
  (∀ (p p' : Parser) (n0 n : option Node),
     simpleExpressionLoop fuel n0 p = Some (n, p') → reaches p p') ∧
  (∀ (p p' : Parser) (n : option Node),
     parseTerm fuel p = Some (n, p') → reaches p p') ∧
  (∀ (p p' : Parser) (n0 n : option Node),
     termLoop fuel n0 p = Some (n, p') → reaches p p') ∧
  (∀ (p p' : Parser) (n : option Node),
     parseFactor fuel p = Some (n, p') → reaches p p').
Proof.
  induction fuel as [|fuel (IHe & IHs & IHsl & IHt & IHtl & IHf)].
  - repeat split; try discriminate.
    + intros p p' n0 n Hrun.
      destruct (simpleExpressionOperators (currentType p)) eqn:Hop.
      * by rewrite simpleExpressionLoop_O in Hrun.
      * rewrite simpleExpressionLoop_exit in Hrun by done.
        by some_inv Hrun.
    + intros p p' n0 n Hrun.
      destruct (termOperators (currentType p)) eqn:Hop.
      * by rewrite termLoop_O in Hrun.
      * rewrite termLoop_exit in Hrun by done. by some_inv Hrun.
  - repeat split.
    + intros p p' n Hrun. rewrite parseExpression_S in Hrun.
      bind_inv Hrun. etrans; [by eapply IHs|].
      destruct (relationalOperators (currentType q)); [|by some_inv Hrun].
      etrans; [apply reaches_nextToken|].
      destruct (relationalNode (currentType q)); [|by some_inv Hrun].
      bind_inv Hrun. some_inv Hrun. by eapply IHs.
    + intros p p' n Hrun. rewrite parseSimpleExpression_S in Hrun.
      bind_inv Hrun. etrans; [by eapply IHt|]. by eapply IHsl.
    + intros p p' n0 n Hrun.
      destruct (simpleExpressionOperators (currentType p)) eqn:Hop.
      * rewrite simpleExpressionLoop_S in Hrun by done.
        bind_inv Hrun. etrans; [apply reaches_nextToken|].
        etrans; [by eapply IHt|]. by eapply IHsl.
      * rewrite simpleExpressionLoop_exit in Hrun by done.
        by some_inv Hrun.
    + intros p p' n Hrun. rewrite parseTerm_S in Hrun.
      bind_inv Hrun. etrans; [by eapply IHf|]. by eapply IHtl.
    + intros p p' n0 n Hrun.
      destruct (termOperators (currentType p)) eqn:Hop.
      * rewrite termLoop_S in Hrun by done.
        bind_inv Hrun. etrans; [apply reaches_nextToken|].
        etrans; [by eapply IHf|]. by eapply IHtl.
      * rewrite termLoop_exit in Hrun by done. by some_inv Hrun.
    + intros p p' n Hrun. rewrite parseFactor_S in Hrun.
      repeat case_decide.
      * some_inv Hrun. apply reaches_parseVariable.
      * some_inv Hrun. apply reaches_nextToken.
      * some_inv Hrun. apply reaches_nextToken.
      * bind_inv Hrun. some_inv Hrun.
        etrans; [apply reaches_nextToken|].
        etrans; [by eapply IHe|].
        case_decide; [apply reaches_nextToken|apply reaches_syntaxError].
      * some_inv Hrun. apply reaches_syntaxError.
Qed.

Lemma reaches_parseExpression fuel (p p' : Parser) (n : option Node) :
  parseExpression fuel p = Some (n, p') → reaches p p'.
Proof. apply reaches_expressions. Qed.

Lemma reaches_parseSimpleExpression fuel (p p' : Parser) (n : option Node) :
  parseSimpleExpression fuel p = Some (n, p') → reaches p p'.
Proof. apply reaches_expressions. Qed.

Lemma reaches_parseTerm fuel (p p' : Parser) (n : option Node) :
  parseTerm fuel p = Some (n, p') → reaches p p'.
Proof. apply reaches_expressions. Qed.

Lemma reaches_parseFactor fuel (p p' : Parser) (n : option Node) :
  parseFactor fuel p = Some (n, p') → reaches p p'.
Proof. apply reaches_expressions. Qed.

Lemma reaches_parseAssignmentStatement fuel (p p' : Parser) (n : Node) :
  parseAssignmentStatement fuel p = Some (n, p') → reaches p p'.
Proof.
  intros Hrun. unfold parseAssignmentStatement in Hrun.
  set (name := Token.text (Parser.currentToken p)) in Hrun.
  assert (∀ q : Parser, reaches q
    (if decide (currentType (nextToken q) = COLON_EQUALS)
     then nextToken (nextToken q)
     else syntaxError "Missing :=" (nextToken q))) as Hassign.
  { intros q. etrans; [apply reaches_nextToken|].
    case_decide; [apply reaches_nextToken|apply reaches_syntaxError]. }
  destruct (Symtab.lookup _ _).
  - bind_inv Hrun. some_inv Hrun.
    etrans; [apply Hassign|]. by eapply reaches_parseExpression.
  - destruct (Symtab.enter _ _) as [entry tab].
    bind_inv Hrun. some_inv Hrun.
    etrans; [apply reaches_step, (step_setSymtab tab)|].
    etrans; [apply Hassign|]. by eapply reaches_parseExpression.
Qed.

Lemma reaches_parseWriteFormat (node : Node) (p : Parser) :
  reaches p (parseWriteFormat node p).2.
Proof.
  unfold parseWriteFormat, parseIntegerConstant.
  repeat first [case_decide | progress simpl]; peel.
Qed.

Lemma reaches_parseWriteArguments (node : Node) (p : Parser) :
  reaches p (parseWriteArguments node p).2.
Proof.
  unfold parseWriteArguments.
  set (p0 := if decide (currentType p = LPAREN) then nextToken p
             else syntaxError "Missing left parenthesis" p).
  assert (reaches p p0) as H0.
  { subst p0. case_decide; peel. }
  assert (∀ (r : Node * Parser), reaches p r.2 →
            reaches p
              (if decide (currentType r.2 = RPAREN) then nextToken r.2
               else syntaxError "Missing right parenthesis" r.2)) as Hclose.
  { intros r Hr. case_decide; peel. }
  destruct (decide (currentType p0 = IDENTIFIER)).
  - pose proof (reaches_parseVariable p0) as H1.
    destruct (parseVariable p0) as [var p1]. simpl in H1.
    pose proof (reaches_parseWriteFormat (Node.adopt (Some var) node) p1)
      as H2.
    destruct (parseWriteFormat _ p1) as [node' p2]. simpl in H2 |- *.
    apply (Hclose (node', p2)). simpl. by etrans; [etrans|].
  - destruct (bool_decide (currentType p0 = CHARACTER)
              || bool_decide (currentType p0 = STRING)).
    + pose proof (reaches_parseWriteFormat
                    (Node.adopt (Some (parseStringConstant p0).1) node)
                    (nextToken p0)) as H2.
      simpl. destruct (parseWriteFormat _ _) as [node' p2].
      simpl in H2 |- *.
      apply (Hclose (node', p2)). simpl.
      etrans; [exact H0|]. etrans; [apply reaches_nextToken|exact H2].
    + simpl. apply (Hclose (node, syntaxError _ p0)). simpl. peel.
Qed.


Lemma reaches_parseWriteStatement (p : Parser) :
  reaches p (parseWriteStatement p).2.
Proof.
  unfold parseWriteStatement.
  pose proof (reaches_parseWriteArguments (Node.new NodeType.WRITE)
                (nextToken p)) as Hargs.
  destruct (parseWriteArguments _ _) as [writeNode p1]. simpl in *.
  assert (reaches p p1) by (etrans; [apply reaches_nextToken|done]).
  case_decide; peel.
Qed.

Lemma reaches_parseWritelnStatement (p : Parser) :
  reaches p (parseWritelnStatement p).2.
Proof.
  unfold parseWritelnStatement. case_decide; simpl; peel.
  etrans; [apply reaches_nextToken|apply reaches_parseWriteArguments].
Qed.

Lemma reaches_statements fuel :
  (∀ (p p' : Parser) (n : option Node),
     parseStatement fuel p = Some (n, p') → reaches p p') ∧
  (∀ (p p' : Parser) (n : Node),
     parseCompoundStatement fuel p = Some (n, p') → reaches p p') ∧
  (∀ (p p' : Parser) (n0 n : Node) ty,
     parseStatementList fuel n0 ty p = Some (n, p') → reaches p p') ∧
  (∀ (p p' : Parser) (n : Node),
     parseRepeatStatement fuel p = Some (n, p') → reaches p p') ∧
  (∀ (p p' : Parser) (n : Node),
     parseWhileStatement fuel p = Some (n, p') → reaches p p').
Proof.
  induction fuel as [|fuel (IHs & IHc & IHl & IHr & IHw)].
  - repeat split; try discriminate.
    intros p p' n0 n ty Hrun.
    destruct (inStatementList ty p) eqn:Hin.
    + by rewrite parseStatementList_O in Hrun.
    + rewrite parseStatementList_exit in Hrun by done. by some_inv Hrun.
  - repeat split.
    + intros p p' n Hrun. rewrite parseStatement_S in Hrun.
      cbv zeta in Hrun. bind_inv Hrun. some_inv Hrun.
      etrans; [apply reaches_step, step_setLineNumber|].
      destruct (currentType _); dispatch Hcall;
        try apply reaches_syntaxError.
      * by eapply IHc.
      * by eapply IHr.
      * apply reaches_parseWriteStatement.
      * apply reaches_parseWritelnStatement.
      * by eapply IHw.
      * reflexivity.
      * by eapply reaches_parseAssignmentStatement.
    + intros p p' n Hrun. rewrite parseCompoundStatement_S in Hrun.
      bind_inv Hrun. some_inv Hrun.
      assert (reaches p q).
      { etrans; [apply reaches_nextToken|by eapply IHl]. }
      case_decide; peel.
    + intros p p' n0 n ty Hrun.
      destruct (inStatementList ty p) eqn:Hin.
      * rewrite parseStatementList_S in Hrun by done. bind_inv Hrun.
        etrans; [by eapply IHs|].
        etrans; [apply reaches_separator|]. by eapply IHl.
      * rewrite parseStatementList_exit in Hrun by done. by some_inv Hrun.
    + intros p p' n Hrun. rewrite parseRepeatStatement_S in Hrun.
      bind_inv Hrun.
      assert (reaches p q).
      { etrans; [apply reaches_nextToken|by eapply IHl]. }
      case_decide.
      * bind_inv Hrun. some_inv Hrun.
        etrans; [|by eapply reaches_parseExpression].
        unfold afterUntil. peel.
        etrans; [done|]. apply reaches_step, step_setLineNumber.
      * some_inv Hrun. peel.
    + intros p p' n Hrun. rewrite parseWhileStatement_S in Hrun.
      bind_inv Hrun. cbv zeta in Hrun.
      assert (reaches p q).
      { etrans; [apply reaches_nextToken|].
        by eapply reaches_parseExpression. }
      case_decide.
      * bind_inv Hrun. some_inv Hrun.
        etrans; [|by eapply IHs]. peel.
      * some_inv Hrun. peel.
Qed.

Lemma reaches_parseStatementList fuel (p p' : Parser) (n0 n : Node) ty :
  parseStatementList fuel n0 ty p = Some (n, p') → reaches p p'.
Proof. apply reaches_statements. Qed.

Lemma reaches_parseStatement fuel (p p' : Parser) (n : option Node) :
  parseStatement fuel p = Some (n, p') → reaches p p'.
Proof. apply reaches_statements. Qed.

Lemma reaches_parseCompoundStatement fuel (p p' : Parser) (n : Node) :
  parseCompoundStatement fuel p = Some (n, p') → reaches p p'.
Proof. apply reaches_statements. Qed.


(** ** More fuel never changes a result *)

Lemma fuel_expressions fuel :
  (∀ (p : Parser) r, parseExpression fuel p = Some r →
     ∀ fuel', (fuel ≤ fuel')%nat → parseExpression fuel' p = Some r) ∧
  (∀ (p : Parser) r, parseSimpleExpression fuel p = Some r →
     ∀ fuel', (fuel ≤ fuel')%nat → parseSimpleExpression fuel' p = Some r) ∧
  (∀ (p : Parser) n0 r, simpleExpressionLoop fuel n0 p = Some r →
     ∀ fuel', (fuel ≤ fuel')%nat →
       simpleExpressionLoop fuel' n0 p = Some r) ∧
  (∀ (p : Parser) r, parseTerm fuel p = Some r →
     ∀ fuel', (fuel ≤ fuel')%nat → parseTerm fuel' p = Some r) ∧
  (∀ (p : Parser) n0 r, termLoop fuel n0 p = Some r →
     ∀ fuel', (fuel ≤ fuel')%nat → termLoop fuel' n0 p = Some r) ∧
  (∀ (p : Parser) r, parseFactor fuel p = Some r →
     ∀ fuel', (fuel ≤ fuel')%nat → parseFactor fuel' p = Some r).
Proof.
  induction fuel as [|fuel (IHe & IHs & IHsl & IHt & IHtl & IHf)].
  - repeat split; try discriminate.
    + intros p n0 r Hrun fuel' _.
      destruct (simpleExpressionOperators (currentType p)) eqn:Hop.
      * by rewrite simpleExpressionLoop_O in Hrun.
      * by rewrite simpleExpressionLoop_exit in Hrun |- *.
    + intros p n0 r Hrun fuel' _.
      destruct (termOperators (currentType p)) eqn:Hop.
      * by rewrite termLoop_O in Hrun.
      * by rewrite termLoop_exit in Hrun |- *.
  - repeat split.
    + intros p r Hrun [|fuel'] Hle; [lia|].
      rewrite parseExpression_S in Hrun |- *. bind_inv Hrun.
      rewrite (IHs _ _ Hcall fuel') by lia. simpl.
      destruct (relationalOperators _); [|done].
      destruct (relationalNode _); [|done].
      bind_inv Hrun. by rewrite (IHs _ _ Hcall0 fuel') by lia.
    + intros p r Hrun [|fuel'] Hle; [lia|].
      rewrite parseSimpleExpression_S in Hrun |- *. bind_inv Hrun.
      rewrite (IHt _ _ Hcall fuel') by lia. simpl.
      apply IHsl; [done|lia].
    + intros p n0 r Hrun fuel' Hle.
      destruct (simpleExpressionOperators (currentType p)) eqn:Hop.
      * destruct fuel' as [|fuel']; [lia|].
        rewrite simpleExpressionLoop_S in Hrun |- * by done.
        bind_inv Hrun. rewrite (IHt _ _ Hcall fuel') by lia. simpl.
        apply IHsl; [done|lia].
      * by rewrite simpleExpressionLoop_exit in Hrun |- *.
    + intros p r Hrun [|fuel'] Hle; [lia|].
      rewrite parseTerm_S in Hrun |- *. bind_inv Hrun.
      rewrite (IHf _ _ Hcall fuel') by lia. simpl.
      apply IHtl; [done|lia].
    + intros p n0 r Hrun fuel' Hle.
      destruct (termOperators (currentType p)) eqn:Hop.
      * destruct fuel' as [|fuel']; [lia|].
        rewrite termLoop_S in Hrun |- * by done.
        bind_inv Hrun. rewrite (IHf _ _ Hcall fuel') by lia. simpl.
        apply IHtl; [done|lia].
      * by rewrite termLoop_exit in Hrun |- *.
    + intros p r Hrun [|fuel'] Hle; [lia|].
      rewrite parseFactor_S in Hrun |- *.
      repeat case_decide; try done.
      bind_inv Hrun. by rewrite (IHe _ _ Hcall fuel') by lia.
Qed.

Lemma fuel_parseExpression fuel fuel' (p : Parser) r :
  parseExpression fuel p = Some r → (fuel ≤ fuel')%nat →
  parseExpression fuel' p = Some r.
Proof. intros Hrun Hle. by eapply fuel_expressions. Qed.

Lemma fuel_parseSimpleExpression fuel fuel' (p : Parser) r :
  parseSimpleExpression fuel p = Some r → (fuel ≤ fuel')%nat →
  parseSimpleExpression fuel' p = Some r.
Proof. intros Hrun Hle. by eapply fuel_expressions. Qed.

Lemma fuel_simpleExpressionLoop fuel fuel' (p : Parser) acc r :
  simpleExpressionLoop fuel acc p = Some r → (fuel ≤ fuel')%nat →
  simpleExpressionLoop fuel' acc p = Some r.
Proof. intros Hrun Hle. by eapply fuel_expressions. Qed.

Lemma fuel_parseTerm fuel fuel' (p : Parser) r :
  parseTerm fuel p = Some r → (fuel ≤ fuel')%nat →
  parseTerm fuel' p = Some r.
Proof. intros Hrun Hle. by eapply fuel_expressions. Qed.

Lemma fuel_termLoop fuel fuel' (p : Parser) acc r :
  termLoop fuel acc p = Some r → (fuel ≤ fuel')%nat →
  termLoop fuel' acc p = Some r.
Proof. intros Hrun Hle. by eapply fuel_expressions. Qed.

Lemma fuel_parseFactor fuel fuel' (p : Parser) r :
  parseFactor fuel p = Some r → (fuel ≤ fuel')%nat →
  parseFactor fuel' p = Some r.
Proof. intros Hrun Hle. by eapply fuel_expressions. Qed.

Lemma fuel_parseAssignmentStatement fuel fuel' (p : Parser) r :
  parseAssignmentStatement fuel p = Some r → (fuel ≤ fuel')%nat →
  parseAssignmentStatement fuel' p = Some r.
Proof.
  unfold parseAssignmentStatement. intros Hrun Hle.
  destruct (Symtab.lookup _ _).
  - bind_inv Hrun. by rewrite (fuel_parseExpression _ fuel' _ _ Hcall).
  - destruct (Symtab.enter _ _).
    bind_inv Hrun. by rewrite (fuel_parseExpression _ fuel' _ _ Hcall).
Qed.

Lemma fuel_statements fuel :
  (∀ (p : Parser) r, parseStatement fuel p = Some r →
     ∀ fuel', (fuel ≤ fuel')%nat → parseStatement fuel' p = Some r) ∧
  (∀ (p : Parser) r, parseCompoundStatement fuel p = Some r →
     ∀ fuel', (fuel ≤ fuel')%nat → parseCompoundStatement fuel' p = Some r) ∧
  (∀ (p : Parser) n0 ty r, parseStatementList fuel n0 ty p = Some r →
     ∀ fuel', (fuel ≤ fuel')%nat →
       parseStatementList fuel' n0 ty p = Some r) ∧
  (∀ (p : Parser) r, parseRepeatStatement fuel p = Some r →
     ∀ fuel', (fuel ≤ fuel')%nat → parseRepeatStatement fuel' p = Some r) ∧
  (∀ (p : Parser) r, parseWhileStatement fuel p = Some r →
     ∀ fuel', (fuel ≤ fuel')%nat → parseWhileStatement fuel' p = Some r).
Proof.
  induction fuel as [|fuel (IHs & IHc & IHl & IHr & IHw)].
  - repeat split; try discriminate.
    intros p n0 ty r Hrun fuel' _.
    destruct (inStatementList ty p) eqn:Hin.
    + by rewrite parseStatementList_O in Hrun.
    + by rewrite parseStatementList_exit in Hrun |- *.
  - repeat split.
    + intros p r Hrun [|fuel'] Hle; [lia|].
      rewrite parseStatement_S in Hrun |- *. cbv zeta in Hrun |- *.
      bind_inv Hrun.
      destruct (currentType _); try (by rewrite Hcall);
        bind_inv Hcall; some_inv Hcall.
      * by rewrite (IHc _ _ Hcall0 fuel') by lia.
      * by rewrite (IHr _ _ Hcall0 fuel') by lia.
      * by rewrite (IHw _ _ Hcall0 fuel') by lia.
      * by rewrite (fuel_parseAssignmentStatement _ fuel' _ _ Hcall0) by lia.
    + intros p r Hrun [|fuel'] Hle; [lia|].
      rewrite parseCompoundStatement_S in Hrun |- *. bind_inv Hrun.
      by rewrite (IHl _ _ _ _ Hcall fuel') by lia.
    + intros p n0 ty r Hrun fuel' Hle.
      destruct (inStatementList ty p) eqn:Hin.
      * destruct fuel' as [|fuel']; [lia|].
        rewrite parseStatementList_S in Hrun |- * by done.
        bind_inv Hrun. rewrite (IHs _ _ Hcall fuel') by lia. simpl.
        apply IHl; [done|lia].
      * by rewrite parseStatementList_exit in Hrun |- *.
    + intros p r Hrun [|fuel'] Hle; [lia|].
      rewrite parseRepeatStatement_S in Hrun |- *. bind_inv Hrun.
      rewrite (IHl _ _ _ _ Hcall fuel') by lia. simpl.
      case_decide; [|done].
      bind_inv Hrun.
      by rewrite (fuel_parseExpression _ fuel' _ _ Hcall0) by lia.
    + intros p r Hrun [|fuel'] Hle; [lia|].
      rewrite parseWhileStatement_S in Hrun |- *. bind_inv Hrun.
      rewrite (fuel_parseExpression _ fuel' _ _ Hcall) by lia. simpl.
      case_decide; [|done].
      bind_inv Hrun. by rewrite (IHs _ _ Hcall0 fuel') by lia.
Qed.

Lemma fuel_parseCompoundStatement fuel fuel' (p : Parser) r :
  parseCompoundStatement fuel p = Some r → (fuel ≤ fuel')%nat →
  parseCompoundStatement fuel' p = Some r.
Proof. intros Hrun Hle. by eapply fuel_statements. Qed.

Lemma fuel_parseStatement fuel fuel' (p : Parser) r :
  parseStatement fuel p = Some r → (fuel ≤ fuel')%nat →
  parseStatement fuel' p = Some r.
Proof. intros Hrun Hle. by eapply fuel_statements. Qed.

Lemma fuel_parseProgram fuel fuel' (p : Parser) r :
  parseProgram fuel p = Some r → (fuel ≤ fuel')%nat →
  parseProgram fuel' p = Some r.
Proof.
  unfold parseProgram. intros Hrun Hle.
  destruct (if decide (currentType _ = IDENTIFIER) then _ else _)
    as [programNode p1].
  bind_inv Hrun.
  by rewrite (fuel_parseCompoundStatement _ fuel' _ _ Hcall).
Qed.


(** ** The relational operator of an expression *)

Lemma relationalNode_mapped ty :
  relationalOperators ty = true →
  ∃ k, k ∈ [NodeType.EQ; NodeType.LT; NodeType.LE; NodeType.GT;
            NodeType.GE; NodeType.NE] ∧
       relationalNode (E:=E) ty = Some (Node.new k).
Proof.
  intros Hrel. apply relationalOperators_spec in Hrel.
  unfold relationalNode.
  repeat (apply elem_of_cons in Hrel as [->|Hrel]);
    [..|by apply elem_of_nil in Hrel];
    eexists; (split; [|reflexivity]); set_solver.
Qed.

(** ** Identifiers *)

(** C6: an identifier in expression position whose lookup misses is
    reported once on the semantic channel, the error count grows by one, no
    token is skipped (the next token of the scanner becomes the lookahead),
    and a VARIABLE node with the original text and no symbol reference is
    still answered, by [parseVariable] and so by [parseFactor]. *)
Theorem parseVariable_undeclared (p : Parser) :
  Symtab.lookup (toLowerCase (Token.text (Parser.currentToken p)))
    (Parser.symtab p) = None →
  let name := Token.text (Parser.currentToken p) in
  let node := Node.mk NodeType.VARIABLE 0 name None NoValue [] in
  let p' := Parser.mk (Scanner.nextToken (Parser.scanner p)).2
              (Parser.symtab p)
              (Scanner.nextToken (Parser.scanner p)).1
              (Parser.lineNumber p)
              (Parser.errorCount p + 1)
              (Parser.output p ++
                 [mkDiagnostic SEMANTIC_ERROR (Parser.lineNumber p)
                    "Undeclared identifier" name]) in
  parseVariable p = (node, p') ∧
  (currentType p = IDENTIFIER →
   ∀ fuel, parseFactor (S fuel) p = Some (Some node, p')).
Proof.
  intros Hmiss name node p'.
  assert (parseVariable p = (node, p')) as Hvar.
  { unfold parseVariable. rewrite Hmiss.
    unfold nextToken, semanticError, report. simpl.
    destruct (Scanner.nextToken (Parser.scanner p)); reflexivity. }
  split; [exact Hvar|].
  intros Hid fuel. rewrite parseFactor_S.
  rewrite decide_True by exact Hid. rewrite Hvar. reflexivity.
Qed.

(** C5: the left-hand side of an assignment is looked up and, on a miss,
    entered; the VARIABLE node adopted first carries the entry found or
    entered, never none, and handling it reports nothing: the state [pl] in
    which the assignment token is then expected has the error count and
    the printed lines of the start.  The statement answers exactly when the
    expression on its right does. *)
Theorem parseAssignmentStatement_lhs fuel (p : Parser) :
  let name := Token.text (Parser.currentToken p) in
  ∃ (entry : E) (pl : Parser),
    ((Symtab.lookup (toLowerCase name) (Parser.symtab p) = Some entry ∧
      Parser.symtab pl = Parser.symtab p) ∨
     (Symtab.lookup (toLowerCase name) (Parser.symtab p) = None ∧
      Symtab.enter name (Parser.symtab p) = (entry, Parser.symtab pl))) ∧
    Parser.errorCount pl = Parser.errorCount p ∧
    Parser.output pl = Parser.output p ∧
    (Parser.currentToken pl, Parser.scanner pl) =
      Scanner.nextToken (Parser.scanner p) ∧
    parseAssignmentStatement fuel p =
      '(rhs, p') ← parseExpression fuel
                     (if decide (currentType pl = COLON_EQUALS)
                      then nextToken pl
                      else syntaxError "Missing :=" pl);
      Some (Node.mk NodeType.ASSIGN 0 "" None NoValue
              [Some (Node.mk NodeType.VARIABLE 0 name (Some entry)
                       NoValue []);
               rhs], p').
Proof.
  intros name. unfold parseAssignmentStatement. fold name.
  destruct (Symtab.lookup (toLowerCase name) (Parser.symtab p))
    as [entry|] eqn:Hlook.
  - exists entry, (nextToken p).
    rewrite nextToken_symtab, nextToken_errorCount, nextToken_output,
      nextToken_pull.
    split; [by left|]. done.
  - destruct (Symtab.enter name (Parser.symtab p)) as [entry tab] eqn:Hent.
    exists entry, (nextToken (setSymtab tab p)).
    rewrite nextToken_symtab, nextToken_errorCount, nextToken_output,
      nextToken_pull.
    split; [by right|]. done.
Qed.


(** ** Sums and products *)

Lemma bind_Some {A B} (x : A) (f : A → option B) : Some x ≫= f = f x.
Proof. reflexivity. Qed.

(** The two adoptions of a binary operator node. *)
Lemma adopt_binary (c : bool) k1 k2 (l r : Node) :
  Node.adopt (Some r)
    (Node.adopt (Some l) (if c then Node.new k1 else Node.new k2)) =
  binary (if c then k1 else k2) l r.
Proof. by destruct c. Qed.

Lemma adopt_binary_decide (P : Prop) `{!Decision P} k1 k2 (l r : Node) :
  Node.adopt (Some r)
    (Node.adopt (Some l) (if decide P then Node.new k1 else Node.new k2)) =
  binary (if decide P then k1 else k2) l r.
Proof. by destruct (decide P). Qed.

Lemma pending_nextToken (p : Parser) :
  pending (nextToken p) (Parser.scanner p).
Proof.
  unfold pending, nextToken.
  destruct (Parser.scanner p) as [|tok rest]; by simpl.
Qed.

Lemma pending_cons (p : Parser) tok rest :
  pending p (tok :: rest) →
  currentType p = Token.type tok ∧ Parser.currentToken p = tok ∧
  pending (nextToken p) rest.
Proof.
  intros [Hcur Hsc]. simpl in Hcur, Hsc.
  unfold currentType. rewrite Hcur. split; [done|]. split; [done|].
  rewrite <- Hsc. apply pending_nextToken.
Qed.

Lemma pending_currentType (p : Parser) toks :
  pending p toks →
  currentType p = Token.type (hd Scanner.eofToken toks).
Proof. intros [Hcur _]. unfold currentType. by rewrite Hcur. Qed.

(** An operand token is parsed into its node and consumed; the symbol
    table is left as it is. *)
Lemma parseFactor_operand fuel (p : Parser) tok rest :
  isOperand tok → pending p (tok :: rest) →
  ∃ p', parseFactor (S fuel) p =
          Some (Some (operandNode (Parser.symtab p) tok), p') ∧
        pending p' rest ∧ Parser.symtab p' = Parser.symtab p.
Proof.
  intros Hop Hpend.
  destruct (pending_cons _ _ _ Hpend) as (Hty & Hcur & Hnext).
  rewrite parseFactor_S, Hty. unfold operandNode.
  destruct (decide (Token.type tok = IDENTIFIER)).
  - unfold parseVariable, nonNull. simpl. rewrite Hcur.
    eexists. split; [reflexivity|].
    destruct (Symtab.lookup _ _); simpl.
    + by rewrite nextToken_symtab.
    + split; [|by rewrite nextToken_symtab].
      unfold semanticError. destruct Hpend as [_ Hsc].
      replace rest with
        (Parser.scanner (report SEMANTIC_ERROR "Undeclared identifier" p))
        by exact Hsc.
      apply pending_nextToken.
  - destruct (decide (Token.type tok = INTEGER)).
    + unfold parseIntegerConstant, nonNull. simpl. rewrite Hcur.
      eexists. split; [reflexivity|]. by rewrite nextToken_symtab.
    + assert (Token.type tok = REAL) as Hreal.
      { unfold isOperand in Hop.
        rewrite !elem_of_cons, elem_of_nil in Hop. tauto. }
      rewrite decide_True by done.
      unfold parseRealConstant, nonNull. simpl. rewrite Hcur.
      eexists. split; [reflexivity|]. by rewrite nextToken_symtab.
Qed.

Lemma termLoop_factors (fs : list (Token.t * Token.t)) :
  ∀ fuel (p : Parser) (acc : Node) rest,
    isFactors fs →
    pending p (factorTokens fs ++ rest) →
    termOperators (Token.type (hd Scanner.eofToken rest)) = false →
    (length (factorTokens fs) + 1 ≤ fuel)%nat →
    ∃ p', termLoop fuel (Some acc) p =
            Some (Some (factorFold (Parser.symtab p) fs acc), p') ∧
          pending p' rest ∧ Parser.symtab p' = Parser.symtab p.
Proof.
  induction fs as [|[op f] fs IH]; intros fuel p acc rest Hfs Hpend Hend Hfuel.
  - simpl in Hpend. exists p. split; [|done].
    apply termLoop_exit. by rewrite (pending_currentType _ _ Hpend).
  - apply Forall_cons in Hfs as [[Hop Hf] Hfs].
    simpl in Hpend, Hfuel.
    destruct (pending_cons _ _ _ Hpend) as (Hty & Hcur & Hnext).
    destruct fuel as [|[|fuel]]; [lia..|].
    rewrite termLoop_S by (by rewrite Hty).
    destruct (parseFactor_operand fuel _ _ _ Hf Hnext)
      as (p1 & -> & Hpend1 & Htab1).
    rewrite bind_Some. cbv beta iota.
    rewrite adopt_binary_decide, nextToken_symtab, Hty.
    rewrite nextToken_symtab in Htab1.
    destruct (IH (S fuel) p1
                (binary (if decide (Token.type op = STAR)
                         then NodeType.MULTIPLY else NodeType.DIVIDE)
                   acc (operandNode (Parser.symtab p) f))
                rest Hfs Hpend1 Hend) as (p' & Hloop & Hpend' & Htab');
      [lia|].
    exists p'. rewrite Htab1 in Hloop, Htab'. done.
Qed.

Lemma parseTerm_product (pr : Product) fuel (p : Parser) rest :
  isProduct pr →
  pending p (productTokens pr ++ rest) →
  termOperators (Token.type (hd Scanner.eofToken rest)) = false →
  (length (productTokens pr) + 1 ≤ fuel)%nat →
  ∃ p', parseTerm fuel p = Some (Some (productNode (Parser.symtab p) pr), p') ∧
        pending p' rest ∧ Parser.symtab p' = Parser.symtab p.
Proof.
  intros [Hfirst Hfs] Hpend Hend Hfuel.
  unfold productTokens in Hpend, Hfuel. simpl in Hpend, Hfuel.
  destruct fuel as [|[|fuel]]; [lia..|].
  rewrite parseTerm_S.
  destruct (parseFactor_operand fuel _ _ _ Hfirst Hpend)
    as (p1 & -> & Hpend1 & Htab1).
  rewrite bind_Some. cbv beta iota.
  destruct (termLoop_factors _ (S fuel) p1
              (operandNode (Parser.symtab p) (firstFactor pr)) rest
              Hfs Hpend1 Hend) as (p' & Hloop & Hpend' & Htab'); [lia|].
  exists p'. rewrite Htab1 in Hloop, Htab'. done.
Qed.

Lemma termTokens_head (ts : list (Token.t * Product)) rest :
  isTerms ts →
  termOperators (Token.type (hd Scanner.eofToken rest)) = false →
  termOperators (Token.type (hd Scanner.eofToken (termTokens ts ++ rest))) =
    false.
Proof.
  intros Hts Hend. destruct ts as [|[op pr] ts]; [done|].
  apply Forall_cons in Hts as [[Hop _] _]. simpl.
  apply simpleExpressionOperators_spec in Hop.
  rewrite !elem_of_cons, elem_of_nil in Hop.
  destruct Hop as [->|[->|[]]]; reflexivity.
Qed.

Lemma simpleExpressionLoop_terms (ts : list (Token.t * Product)) :
  ∀ fuel (p : Parser) (acc : Node) rest,
    isTerms ts →
    pending p (termTokens ts ++ rest) →
    termOperators (Token.type (hd Scanner.eofToken rest)) = false →
    simpleExpressionOperators (Token.type (hd Scanner.eofToken rest)) =
      false →
    (length (termTokens ts) + 1 ≤ fuel)%nat →
    ∃ p', simpleExpressionLoop fuel (Some acc) p =
            Some (Some (termFold (Parser.symtab p) ts acc), p') ∧
          pending p' rest ∧ Parser.symtab p' = Parser.symtab p.
Proof.
  induction ts as [|[op pr] ts IH];
    intros fuel p acc rest Hts Hpend Hend Hend' Hfuel.
  - simpl in Hpend. exists p. split; [|done].
    apply simpleExpressionLoop_exit.
    by rewrite (pending_currentType _ _ Hpend).
  - pose proof (termTokens_head ts rest) as Hhead.
    apply Forall_cons in Hts as [[Hop Hpr] Hts].
    simpl in Hpend, Hfuel. rewrite length_app in Hfuel.
    rewrite <- app_assoc in Hpend.
    destruct (pending_cons _ _ _ Hpend) as (Hty & Hcur & Hnext).
    destruct fuel as [|fuel]; [lia|].
    rewrite simpleExpressionLoop_S by (by rewrite Hty).
    destruct (parseTerm_product pr fuel _ _ Hpr Hnext (Hhead Hts Hend))
      as (p1 & -> & Hpend1 & Htab1); [simpl in *; lia|].
    rewrite bind_Some. cbv beta iota.
    rewrite adopt_binary_decide, nextToken_symtab, Hty.
    rewrite nextToken_symtab in Htab1.
    destruct (IH fuel p1
                (binary (if decide (Token.type op = PLUS)
                         then NodeType.ADD else NodeType.SUBTRACT)
                   acc (productNode (Parser.symtab p) pr))
                rest Hts Hpend1 Hend Hend') as (p' & Hloop & Hpend' & Htab');
      [simpl in *; lia|].
    exists p'. rewrite Htab1 in Hloop, Htab'. done.
Qed.

Lemma parseExpression_sum (s : Sum) fuel (p : Parser) rest :
  isSum s →
  pending p (sumTokens s ++ rest) →
  endsExpression (hd Scanner.eofToken rest) →
  (length (sumTokens s) + 3 ≤ fuel)%nat →
  ∃ p', parseExpression fuel p = Some (Some (sumNode (Parser.symtab p) s), p') ∧
        pending p' rest ∧ Parser.symtab p' = Parser.symtab p.
Proof.
  intros [Hfirst Hts] Hpend (Hend & Hend' & Hrel) Hfuel.
  unfold sumTokens in Hpend, Hfuel.
  rewrite length_app in Hfuel. rewrite <- app_assoc in Hpend.
  destruct fuel as [|[|fuel]]; [lia..|].
  assert (∃ p', parseSimpleExpression (S fuel) p =
                  Some (Some (sumNode (Parser.symtab p) s), p') ∧
                pending p' rest ∧ Parser.symtab p' = Parser.symtab p)
    as (p' & Hsimple & Hpend' & Htab').
  { rewrite parseSimpleExpression_S.
    destruct (parseTerm_product _ fuel _ _ Hfirst Hpend
                (termTokens_head _ _ Hts Hend))
      as (p1 & -> & Hpend1 & Htab1); [lia|].
    rewrite bind_Some. cbv beta iota.
    destruct (simpleExpressionLoop_terms _ fuel p1
                (productNode (Parser.symtab p) (firstTerm s)) rest
                Hts Hpend1 Hend Hend') as (p' & Hloop & Hpend' & Htab');
      [lia|].
    exists p'. rewrite Htab1 in Hloop, Htab'. done. }
  exists p'. rewrite parseExpression_S, Hsimple.
  rewrite bind_Some. cbv beta iota.
  rewrite (pending_currentType _ _ Hpend'), Hrel.
  done.
Qed.

(** C3: an assignment whose right-hand side is a sum of products of
    single-token operands, followed by a token that continues no
    expression, parses (with fuel for its tokens) into ASSIGN over the
    target and the tree of the sum: every [*] and [/] chain is folded from
    the left into one operand of the [+] and [-] chain around it, which is
    folded from the left in turn. *)
Theorem assignment_precedence (s : Sum) (target assign : Token.t)
    (rest : list Token.t) fuel (p : Parser) :
  Token.type assign = COLON_EQUALS →
  isSum s →
  pending p (target :: assign :: sumTokens s ++ rest) →
  endsExpression (hd Scanner.eofToken rest) →
  (length (sumTokens s) + 3 ≤ fuel)%nat →
  ∃ entry p',
    parseAssignmentStatement fuel p =
      Some (Node.mk NodeType.ASSIGN 0 "" None NoValue
              [Some (variable (Token.text target) (Some entry));
               Some (sumNode (Parser.symtab p') s)], p') ∧
    pending p' rest.
Proof.
  intros Hassign Hsum Hpend Hend Hfuel.
  destruct (pending_cons _ _ _ Hpend) as (_ & Hcur & _).
  unfold parseAssignmentStatement. rewrite Hcur.
  assert (∀ q : Parser,
            pending q (target :: assign :: sumTokens s ++ rest) →
            ∃ p', parseExpression fuel
                    (if decide (currentType (nextToken q) = COLON_EQUALS)
                     then nextToken (nextToken q)
                     else syntaxError "Missing :=" (nextToken q)) =
                    Some (Some (sumNode (Parser.symtab q) s), p') ∧
                  pending p' rest ∧ Parser.symtab p' = Parser.symtab q)
    as Hrhs.
  { intros q Hq.
    destruct (pending_cons _ _ _ Hq) as (_ & _ & Hq1).
    destruct (pending_cons _ _ _ Hq1) as (Hty & _ & Hq2).
    rewrite decide_True by (by rewrite Hty).
    destruct (parseExpression_sum s fuel _ _ Hsum Hq2 Hend Hfuel)
      as (p' & Hrun & Hpend' & Htab').
    exists p'. by rewrite !nextToken_symtab in Hrun, Htab'. }
  destruct (Symtab.lookup _ _) as [entry|].
  - destruct (Hrhs p Hpend) as (p' & -> & Hpend' & Htab').
    exists entry, p'. by rewrite Htab'.
  - destruct (Symtab.enter _ _) as [entry tab].
    destruct (Hrhs (setSymtab tab p)) as (p' & -> & Hpend' & Htab');
      [exact Hpend|].
    exists entry, p'. by rewrite Htab'.
Qed.

(** ** Expressions always parse *)

Lemma stream_nextToken (p : Parser) :
  stream (nextToken p) =
  match Parser.scanner p with
  | [] => [Scanner.eofToken]
  | tok :: rest => tok :: rest
  end.
Proof.
  unfold stream, nextToken. by destruct (Parser.scanner p).
Qed.

Lemma weight_nextToken (p : Parser) :
  (weight (nextToken p) +
   (if decide (currentType p = END_OF_FILE) then 0 else 1) ≤ weight p)%nat.
Proof.
  unfold weight. rewrite stream_nextToken. unfold stream, currentType.
  set (keep := fun tok => Token.type tok ≠ END_OF_FILE).
  assert (length (filter keep [Scanner.eofToken]) = 0%nat) as Heof.
  { rewrite filter_cons_False; [done|]. by intros Hne. }
  assert (length (filter keep (Parser.scanner p)) +
          (if decide (Token.type (Parser.currentToken p) = END_OF_FILE)
           then 0 else 1) =
          length (filter keep (Parser.currentToken p :: Parser.scanner p)))%nat
    as <-.
  { destruct (decide _) as [Hsentinel|Hother].
    - rewrite filter_cons_False; [apply Nat.add_0_r|]. by intros Hne.
    - rewrite filter_cons_True by done. simpl. apply Nat.add_1_r. }
  destruct (Parser.scanner p) as [|tok rest]; [|done].
  rewrite Heof. simpl. done.
Qed.

Lemma reaches_weight (p p' : Parser) :
  reaches p p' → (weight p' ≤ weight p)%nat.
Proof.
  induction 1 as [|p q r Hstep _ IH]; [done|].
  etrans; [exact IH|].
  destruct Hstep; try done.
  pose proof (weight_nextToken p). lia.
Qed.

(** The operators are no sentinel, so consuming one lowers the weight. *)
Lemma weight_operator (p : Parser) :
  termOperators (currentType p) = true ∨
  simpleExpressionOperators (currentType p) = true ∨
  relationalOperators (currentType p) = true ∨
  currentType p = LPAREN →
  (S (weight (nextToken p)) ≤ weight p)%nat.
Proof.
  intros Hop. pose proof (weight_nextToken p) as Hw.
  destruct (decide (currentType p = END_OF_FILE)) as [Heof|]; [|lia].
  rewrite Heof in Hop. by destruct Hop as [|[|[|]]].
Qed.

(** With [4 * w + 4] units of fuel every expression over a stream of
    weight [w] or less parses, whatever the tokens are. *)
Lemma expressions_return (w : nat) :
  ∀ p : Parser, (weight p ≤ w)%nat →
    is_Some (parseFactor (4 * w + 1) p) ∧
    (∀ acc, is_Some (termLoop (4 * w) acc p)) ∧
    is_Some (parseTerm (4 * w + 2) p) ∧
    (∀ acc, is_Some (simpleExpressionLoop (4 * w + 1) acc p)) ∧
    is_Some (parseSimpleExpression (4 * w + 3) p) ∧
    is_Some (parseExpression (4 * w + 4) p).
Proof.
  induction w as [|w IH].
  - (* weight 0: the lookahead is the sentinel *)
    intros p Hw.
    assert (termOperators (currentType p) = false) as Hterm.
    { destruct (termOperators (currentType p)) eqn:Hop; [|done].
      pose proof (weight_operator p). intuition lia. }
    assert (simpleExpressionOperators (currentType p) = false) as Hsimple.
    { destruct (simpleExpressionOperators (currentType p)) eqn:Hop; [|done].
      pose proof (weight_operator p). intuition lia. }
    assert (relationalOperators (currentType p) = false) as Hrel.
    { destruct (relationalOperators (currentType p)) eqn:Hop; [|done].
      pose proof (weight_operator p). intuition lia. }
    assert (currentType p ≠ LPAREN) as Hparen.
    { intros Hop. pose proof (weight_operator p). intuition lia. }
    assert (∃ r, parseFactor 1 p = Some r) as [[n1 p1] Hfactor].
    { rewrite parseFactor_S. repeat case_decide; by eauto. }
    assert (reaches p p1) as Hreach by by eapply reaches_parseFactor.
    apply reaches_weight in Hreach.
    assert (termOperators (currentType p1) = false) as Hterm1.
    { destruct (termOperators (currentType p1)) eqn:Hop; [|done].
      pose proof (weight_operator p1). intuition lia. }
    assert (simpleExpressionOperators (currentType p1) = false) as Hsimple1.
    { destruct (simpleExpressionOperators (currentType p1)) eqn:Hop;
        [|done].
      pose proof (weight_operator p1). intuition lia. }
    assert (relationalOperators (currentType p1) = false) as Hrel1.
    { destruct (relationalOperators (currentType p1)) eqn:Hop; [|done].
      pose proof (weight_operator p1). intuition lia. }
    simpl Nat.add.
    assert (parseTerm 2 p = Some (n1, p1)) as Hterm2.
    { rewrite parseTerm_S, Hfactor, bind_Some. by apply termLoop_exit. }
    assert (parseSimpleExpression 3 p = Some (n1, p1)) as Hsimple3.
    { rewrite parseSimpleExpression_S, Hterm2, bind_Some.
      by apply simpleExpressionLoop_exit. }
    split; [by rewrite Hfactor|].
    split; [intros acc; by rewrite termLoop_exit|].
    split; [by rewrite Hterm2|].
    split; [intros acc; by rewrite simpleExpressionLoop_exit|].
    split; [by rewrite Hsimple3|].
    rewrite parseExpression_S, Hsimple3, bind_Some. cbv beta iota.
    by rewrite Hrel1.
  - intros p Hw.
    assert (∀ q : Parser, reaches p q →
              is_Some (parseFactor (4 * w + 1) (nextToken q)) ∧
              (∀ acc, is_Some (termLoop (4 * w) acc (nextToken q))) ∧
              is_Some (parseTerm (4 * w + 2) (nextToken q)) ∧
              (∀ acc,
                 is_Some (simpleExpressionLoop (4 * w + 1) acc
                            (nextToken q))) ∧
              is_Some (parseSimpleExpression (4 * w + 3) (nextToken q)) ∧
              is_Some (parseExpression (4 * w + 4) (nextToken q)) ∨
              (termOperators (currentType q) = false ∧
               simpleExpressionOperators (currentType q) = false ∧
               relationalOperators (currentType q) = false ∧
               currentType q ≠ LPAREN)) as Hnext.
    { intros q Hq. apply reaches_weight in Hq.
      destruct (decide (currentType q = END_OF_FILE)) as [Heof|Heof].
      - right. by rewrite Heof.
      - left. apply IH. pose proof (weight_nextToken q) as Hwq.
        rewrite decide_False in Hwq by done. lia. }
    (* the loops, from any state reached from [p] *)
    assert (∀ fuel (q : Parser) acc, reaches p q → (4 * w + 4 ≤ fuel)%nat →
              ∃ r, termLoop fuel acc q = Some r) as Htl.
    { intros fuel q acc Hq Hfuel.
      destruct (termOperators (currentType q)) eqn:Hop;
        [|rewrite termLoop_exit by done; eauto].
      destruct (Hnext q Hq) as [(Hf & Hl & _)|(Hno & _)]; [|congruence].
      destruct fuel as [|fuel]; [lia|]. rewrite termLoop_S by done.
      destruct Hf as [[n1 q1] Hf].
      rewrite (fuel_parseFactor _ fuel _ _ Hf) by lia.
      rewrite bind_Some. cbv beta iota.
      assert (reaches (nextToken q) q1) as Hq1
        by by eapply reaches_parseFactor.
      apply reaches_weight in Hq1.
      pose proof (weight_operator q (or_introl Hop)) as Hwq.
      apply reaches_weight in Hq.
      destruct (IH q1) as (_ & Hl1 & _); [lia|].
      destruct (Hl1 (Some (Node.adopt n1
                  (Node.adopt acc
                     (if decide (currentType q = STAR)
                      then Node.new NodeType.MULTIPLY
                      else Node.new NodeType.DIVIDE))))) as [r Hr].
      exists r. by apply (fuel_termLoop (4 * w)); [|lia]. }
    assert (∀ fuel (q : Parser), reaches p q → (4 * w + 5 ≤ fuel)%nat →
              ∃ r, parseFactor fuel q = Some r) as Hfactor.
    { intros fuel q Hq Hfuel.
      destruct fuel as [|fuel]; [lia|]. rewrite parseFactor_S.
      repeat case_decide; try by eauto.
      destruct (Hnext q Hq) as [(_ & _ & _ & _ & _ & [[n1 q1] He])|Hno];
        [|tauto].
      rewrite (fuel_parseExpression _ fuel _ _ He) by lia.
      rewrite bind_Some. by eauto. }
    assert (∀ fuel (q : Parser), reaches p q → (4 * w + 6 ≤ fuel)%nat →
              ∃ r, parseTerm fuel q = Some r) as Hterm.
    { intros fuel q Hq Hfuel.
      destruct fuel as [|fuel]; [lia|]. rewrite parseTerm_S.
      destruct (Hfactor fuel q Hq) as [[n1 q1] Hf]; [lia|].
      rewrite Hf, bind_Some. cbv beta iota.
      apply Htl; [|lia].
      etrans; [exact Hq|]. by eapply reaches_parseFactor. }
    assert (∀ fuel (q : Parser) acc, reaches p q → (4 * w + 5 ≤ fuel)%nat →
              ∃ r, simpleExpressionLoop fuel acc q = Some r) as Hsl.
    { intros fuel q acc Hq Hfuel.
      destruct (simpleExpressionOperators (currentType q)) eqn:Hop;
        [|rewrite simpleExpressionLoop_exit by done; eauto].
      destruct (Hnext q Hq) as [(_ & _ & Ht & _)|(_ & Hno & _)];
        [|congruence].
      destruct fuel as [|fuel]; [lia|].
      rewrite simpleExpressionLoop_S by done.
      destruct Ht as [[n1 q1] Ht].
      rewrite (fuel_parseTerm _ fuel _ _ Ht) by lia.
      rewrite bind_Some. cbv beta iota.
      assert (reaches (nextToken q) q1) as Hq1
        by by eapply reaches_parseTerm.
      apply reaches_weight in Hq1.
      pose proof (weight_operator q (or_intror (or_introl Hop))) as Hwq.
      apply reaches_weight in Hq.
      destruct (IH q1) as (_ & _ & _ & Hl1 & _); [lia|].
      destruct (Hl1 (Some (Node.adopt n1
                  (Node.adopt acc
                     (if decide (currentType q = PLUS)
                      then Node.new NodeType.ADD
                      else Node.new NodeType.SUBTRACT))))) as [r Hr].
      exists r. by apply (fuel_simpleExpressionLoop (4 * w + 1)); [|lia]. }
    assert (∀ fuel (q : Parser), reaches p q → (4 * w + 7 ≤ fuel)%nat →
              ∃ r, parseSimpleExpression fuel q = Some r) as Hsimple.
    { intros fuel q Hq Hfuel.
      destruct fuel as [|fuel]; [lia|]. rewrite parseSimpleExpression_S.
      destruct (Hterm fuel q Hq) as [[n1 q1] Ht]; [lia|].
      rewrite Ht, bind_Some. cbv beta iota.
      apply Hsl; [|lia].
      etrans; [exact Hq|]. by eapply reaches_parseTerm. }
    assert (∃ r, parseExpression (4 * w + 8) p = Some r) as Hexpr.
    { replace (4 * w + 8)%nat with (S (4 * w + 7)) by lia.
      rewrite parseExpression_S.
      destruct (Hsimple (4 * w + 7)%nat p) as [[n1 q1] Hs]; [done|lia|].
      rewrite Hs, bind_Some. cbv beta iota.
      destruct (relationalOperators (currentType q1)); [|by eauto].
      destruct (relationalNode (currentType q1)); [|by eauto].
      destruct (Hsimple (4 * w + 7)%nat (nextToken q1)) as [[n2 q2] Hs2];
        [|lia|].
      { etrans; [by eapply reaches_parseSimpleExpression|].
        apply reaches_nextToken. }
      rewrite Hs2, bind_Some. by eauto. }
    split; [apply Hfactor; [done|lia]|].
    split; [intros acc; apply Htl; [done|lia]|].
    split; [apply Hterm; [done|lia]|].
    split; [intros acc; apply Hsl; [done|lia]|].
    split; [apply Hsimple; [done|lia]|].
    destruct Hexpr as [r Hr]. exists r.
    by apply (fuel_parseExpression (4 * w + 8)); [|lia].
Qed.

(** Expression parsing always returns: fuel for four steps a token is
    enough, whatever the tokens are. *)
Lemma parseExpression_returns fuel (p : Parser) :
  (4 * weight p + 4 ≤ fuel)%nat → is_Some (parseExpression fuel p).
Proof.
  intros Hfuel.
  destruct (expressions_return (weight p) p) as (_ & _ & _ & _ & _ & [r Hr]);
    [done|].
  exists r. by apply (fuel_parseExpression (4 * weight p + 4)).
Qed.

Lemma parseSimpleExpression_returns fuel (p : Parser) :
  (4 * weight p + 3 ≤ fuel)%nat → is_Some (parseSimpleExpression fuel p).
Proof.
  intros Hfuel.
  destruct (expressions_return (weight p) p) as (_ & _ & _ & _ & [r Hr] & _);
    [done|].
  exists r. by apply (fuel_parseSimpleExpression (4 * weight p + 3)).
Qed.

(** So does an assignment statement. *)
Lemma parseAssignmentStatement_returns fuel (p : Parser) :
  (4 * weight p + 4 ≤ fuel)%nat → is_Some (parseAssignmentStatement fuel p).
Proof.
  intros Hfuel. unfold parseAssignmentStatement.
  assert (∀ q : Parser, reaches p q →
            is_Some (parseExpression fuel
                       (if decide (currentType (nextToken q) = COLON_EQUALS)
                        then nextToken (nextToken q)
                        else syntaxError "Missing :=" (nextToken q))))
    as Hrhs.
  { intros q Hq. apply parseExpression_returns.
    assert (reaches p
              (if decide (currentType (nextToken q) = COLON_EQUALS)
               then nextToken (nextToken q)
               else syntaxError "Missing :=" (nextToken q))) as Hreach.
    { etrans; [exact Hq|]. etrans; [apply reaches_nextToken|].
      case_decide; [apply reaches_nextToken|apply reaches_syntaxError]. }
    apply reaches_weight in Hreach. lia. }
  destruct (Symtab.lookup _ _).
  - destruct (Hrhs p) as [[rhs q] ->]; [done|]. by eexists.
  - destruct (Symtab.enter _ _) as [entry tab].
    destruct (Hrhs (setSymtab tab p)) as [[rhs q] ->]; [|by eexists].
    apply reaches_step, step_setSymtab.
Qed.

(** C10: when the lookahead after the first simple expression is in the
    relational-operator set, it is one of the six kinds the conditional
    chain maps to a node, so the null fallback is never taken; with fuel
    for four steps a token [parseExpression] then answers a relational node
    with exactly two children: the left operand, then the right one. *)
Theorem parseExpression_relational_two_children
    fuel (p p1 : Parser) (e1 : option Node) :
  parseSimpleExpression fuel p = Some (e1, p1) →
  relationalOperators (currentType p1) = true →
  (4 * weight p + 3 ≤ fuel)%nat →
  currentType p1 ∈ [EQUALS; LESS_THAN; LESS_EQUALS; GREATER_THAN;
                    GREATER_EQUALS; NOT_EQUALS] ∧
  ∃ k e2 p',
    k ∈ [NodeType.EQ; NodeType.LT; NodeType.LE; NodeType.GT;
         NodeType.GE; NodeType.NE] ∧
    relationalNode (E:=E) (currentType p1) = Some (Node.new k) ∧
    parseSimpleExpression fuel (nextToken p1) = Some (e2, p') ∧
    parseExpression (S fuel) p =
      Some (Some (Node.mk k 0 "" None NoValue [e1; e2]), p').
Proof.
  intros Hleft Hrel Hfuel. split; [by apply relationalOperators_spec|].
  destruct (relationalNode_mapped _ Hrel) as (k & Hk & Hnode).
  destruct (parseSimpleExpression_returns fuel (nextToken p1))
    as [[e2 p'] Hright].
  { assert (reaches p (nextToken p1)) as Hreach.
    { etrans; [by eapply reaches_parseSimpleExpression|].
      apply reaches_nextToken. }
    apply reaches_weight in Hreach. lia. }
  exists k, e2, p'. split; [exact Hk|]. split; [exact Hnode|].
  split; [exact Hright|].
  rewrite parseExpression_S, Hleft, bind_Some. cbv beta iota.
  by rewrite Hrel, Hnode, Hright.
Qed.

(** ** One comparison per expression *)






(** The tokens still to be read are tokens that were to be read before, or
    the sentinel. *)
Lemma reaches_stream (p p' : Parser) :
  reaches p p' →
  ∀ tok, tok ∈ stream p' → tok ∈ stream p ∨ tok = Scanner.eofToken.
Proof.
  induction 1 as [|p q r Hstep _ IH]; intros tok Htok; [by left|].
  destruct (IH tok Htok) as [Hin|Heof]; [|by right].
  destruct Hstep; try (by left).
  unfold stream, nextToken in Hin.
  unfold stream. destruct (Parser.scanner p) as [|tok' rest]; simpl in Hin.
  - right. by apply list_elem_of_singleton in Hin.
  - left. by apply elem_of_cons; right.
Qed.




Lemma ahead_semanticError msg (p : Parser) :
  noParenthesisAhead p → noParenthesisAhead (semanticError msg p).
Proof. done. Qed.








(** ** WRITE and WRITELN *)













(** The procedures for the arguments leave the kind of the node alone, so
    [parseWriteStatement] answers a WRITE node in every case. *)
Lemma parseWriteFormat_type (node : Node) (p : Parser) :
  Node.type (parseWriteFormat node p).1 = Node.type node.
Proof.
  unfold parseWriteFormat, parseIntegerConstant.
  by repeat first [case_decide | progress simpl].
Qed.

Lemma parseWriteArguments_type (node : Node) (p : Parser) :
  Node.type (parseWriteArguments node p).1 = Node.type node.
Proof.
  unfold parseWriteArguments.
  set (p0 := if decide (currentType p = LPAREN) then _ else _).
  destruct (decide (currentType p0 = IDENTIFIER)).
  - destruct (parseVariable p0) as [var p1].
    pose proof (parseWriteFormat_type (Node.adopt (Some var) node) p1).
    by destruct (parseWriteFormat _ _).
  - destruct (bool_decide _ || bool_decide _); [|done].
    pose proof (parseWriteFormat_type
                  (Node.adopt (Some (parseStringConstant p0).1) node)
                  (nextToken p0)).
    simpl. by destruct (parseWriteFormat _ _).
Qed.

Lemma parseWriteStatement_type (p : Parser) :
  Node.type (parseWriteStatement p).1 = NodeType.WRITE.
Proof.
  unfold parseWriteStatement.
  pose proof (parseWriteArguments_type (Node.new NodeType.WRITE)
                (nextToken p)).
  by destruct (parseWriteArguments _ _).
Qed.

(** C9, as the code has it: a WRITE node is childless only when the missing
    argument was reported (the last line printed is the syntax error of
    [parseWriteStatement], and the error count has grown), so a WRITE
    statement parsed without error has at least one child; a WRITELN not
    followed by a left parenthesis parses no argument and answers a
    childless WRITELN node without reporting anything. *)
Theorem parseWriteStatement_children (p : Parser) :
  (Node.children (parseWriteStatement p).1 = [] →
   Parser.errorCount p < Parser.errorCount (parseWriteStatement p).2 ∧
   ∃ line text,
     last (Parser.output (parseWriteStatement p).2) =
     Some (mkDiagnostic SYNTAX_ERROR line "Invalid WRITE statement" text)) ∧
  (Parser.errorCount (parseWriteStatement p).2 = Parser.errorCount p →
   (1 ≤ length (Node.children (parseWriteStatement p).1))%nat) ∧
  (currentType (nextToken p) ≠ LPAREN →
   parseWritelnStatement p = (Node.new NodeType.WRITELN, nextToken p) ∧
   Node.children (parseWritelnStatement p).1 = [] ∧
   Parser.errorCount (parseWritelnStatement p).2 = Parser.errorCount p).
Proof.
  assert (Node.children (parseWriteStatement p).1 = [] →
          Parser.errorCount p < Parser.errorCount (parseWriteStatement p).2 ∧
          ∃ line text,
            last (Parser.output (parseWriteStatement p).2) =
            Some (mkDiagnostic SYNTAX_ERROR line "Invalid WRITE statement"
                    text)) as Hempty.
  { unfold parseWriteStatement.
    pose proof (reaches_parseWriteArguments (Node.new NodeType.WRITE)
                  (nextToken p)) as Hargs.
    destruct (parseWriteArguments _ _) as [node p1]. simpl in *.
    intros Hnil. rewrite Hnil. simpl.
    apply reaches_errorCount in Hargs.
    rewrite nextToken_errorCount in Hargs.
    rewrite syntaxError_errorCount, syntaxError_output.
    split; [lia|]. rewrite last_snoc. eauto. }
  split; [exact Hempty|]. split.
  - intros Hcount.
    destruct (Node.children (parseWriteStatement p).1) eqn:Hch;
      [|simpl; lia].
    destruct (Hempty eq_refl) as [Hlt _]. lia.
  - intros Hparen. unfold parseWritelnStatement.
    rewrite decide_False by done. simpl.
    by rewrite nextToken_errorCount.
Qed.

(** ** Statement lists and loops *)

(** A statement list leaves the parent as it is but for the statements it
    appends, none of them null. *)
Lemma parseStatementList_appends fuel :
  ∀ (parent n : Node) ty (p p' : Parser),
    parseStatementList fuel parent ty p = Some (n, p') →
    ∃ body,
      n = Node.mk (Node.type parent) (Node.lineNumber parent)
            (Node.text parent) (Node.entry parent) (Node.value parent)
            (Node.children parent ++ body) ∧
      Forall is_Some body.
Proof.
  induction fuel as [|fuel IH]; intros parent n ty p p' Hrun.
  - destruct (inStatementList ty p) eqn:Hin.
    + by rewrite parseStatementList_O in Hrun.
    + rewrite parseStatementList_exit in Hrun by done. some_inv Hrun.
      exists []. rewrite app_nil_r. by destruct n.
  - destruct (inStatementList ty p) eqn:Hin.
    + rewrite parseStatementList_S in Hrun by done. bind_inv Hrun.
      apply IH in Hrun as (body & -> & Hbody).
      destruct n0 as [stmt|]; simpl.
      * exists (Some stmt :: body). rewrite <- app_assoc.
        split; [done|]. by constructor.
      * by exists body.
    + rewrite parseStatementList_exit in Hrun by done. some_inv Hrun.
      exists []. rewrite app_nil_r. by destruct n.
Qed.

(** A loop statement parsed without error is a LOOP node that carries
    nothing but its children.  For REPEAT the statements of the body come
    first and the last child is a TEST node whose only child is the
    expression parsed after UNTIL; for WHILE the first child is a TEST node
    over a NOT node over the condition and the second child is what
    [parseStatement] answered for the body, a statement node or a null
    pointer ([parseWhileStatement_null_body] below).  Both nodes have the
    same kind and the same fields otherwise: only the place of TEST tells
    them apart. *)
Theorem loop_encoding fuel (p p' : Parser) (n : Node)
    (Hok : Parser.errorCount p' = Parser.errorCount p) :
  (parseRepeatStatement (S fuel) p = Some (n, p') →
   ∃ body pu e,
     parseStatementList fuel (Node.new NodeType.LOOP) UNTIL (nextToken p) =
       Some (Node.mk NodeType.LOOP 0 "" None NoValue body, pu) ∧
     Forall is_Some body ∧
     currentType pu = UNTIL ∧
     parseExpression fuel (afterUntil pu) = Some (e, p') ∧
     n = Node.mk NodeType.LOOP 0 "" None NoValue
           (body ++
            [Some (Node.mk NodeType.TEST
                     (Token.lineNumber (Parser.currentToken pu))
                     "" None NoValue [e])])) ∧
  (parseWhileStatement (S fuel) p = Some (n, p') →
   ∃ cond pd body,
     parseExpression fuel (nextToken p) = Some (cond, pd) ∧
     currentType pd = DO ∧
     parseStatement fuel (nextToken pd) = Some (body, p') ∧
     n = Node.mk NodeType.LOOP 0 "" None NoValue
           [Some (Node.mk NodeType.TEST 0 "" None NoValue
                    [Some (Node.mk NodeType.NOT 0 "" None NoValue [cond])]);
            body]).
Proof.
  split; intros Hrun.
  - rewrite parseRepeatStatement_S in Hrun. bind_inv Hrun.
    pose proof (reaches_parseStatementList _ _ _ _ _ _ Hcall) as Hlist.
    apply reaches_errorCount in Hlist.
    rewrite nextToken_errorCount in Hlist.
    destruct (parseStatementList_appends _ _ _ _ _ _ Hcall)
      as (body & -> & Hbody).
    case_decide as Huntil.
    + bind_inv Hrun. some_inv Hrun.
      eexists body, _, _. done.
    + some_inv Hrun. rewrite syntaxError_errorCount in Hok. lia.
  - rewrite parseWhileStatement_S in Hrun. bind_inv Hrun.
    cbv zeta in Hrun.
    pose proof (reaches_parseExpression _ _ _ _ Hcall) as Hcond.
    apply reaches_errorCount in Hcond.
    rewrite nextToken_errorCount in Hcond.
    case_decide as Hdo.
    + bind_inv Hrun. some_inv Hrun.
      eexists _, _, _. done.
    + some_inv Hrun. rewrite syntaxError_errorCount in Hok. lia.
Qed.


(** ** Error recovery *)

Lemma report_currentType ch msg (p : Parser) :
  currentType (report ch msg p) = currentType p.
Proof. reflexivity. Qed.

(** A statement follower other than a semicolon, the terminal of the list
    and the sentinel stops [parseStatementList] for good: [parseStatement]
    reports it and discards nothing (it is a follower), no separator is
    consumed, and the loop is back where it was with one more error
    counted. *)
Lemma parseStatementList_iteration fuel (parent : Node) ty (p : Parser) :
  statementFollowers (currentType p) = true →
  currentType p ∉ [SEMICOLON; ty; END_OF_FILE] →
  parseStatementList (S (S fuel)) parent ty p =
  parseStatementList (S fuel) parent ty
    (report SYNTAX_ERROR "Unexpected token"
       (setLineNumber (Token.lineNumber (Parser.currentToken p)) p)).
Proof.
  intros Hfollow Hstuck.
  assert (inStatementList ty p = true) as Hin.
  { unfold inStatementList.
    rewrite andb_true_iff, !bool_decide_eq_true.
    rewrite !not_elem_of_cons in Hstuck. tauto. }
  rewrite parseStatementList_S by exact Hin.
  rewrite parseStatement_S. cbv zeta.
  set (p0 := setLineNumber _ p).
  assert (currentType p0 = currentType p) as Hty by reflexivity.
  assert (currentType p0 = END ∨ currentType p0 = UNTIL ∨
          currentType p0 = DO) as Hkind.
  { rewrite Hty. apply statementFollowers_spec in Hfollow.
    rewrite !not_elem_of_cons in Hstuck.
    rewrite !elem_of_cons, elem_of_nil in Hfollow. tauto. }
  assert (syntaxError "Unexpected token" p0 =
          report SYNTAX_ERROR "Unexpected token" p0) as Herr.
  { apply syntaxError_stay. by rewrite Hty. }
  assert (separator (report SYNTAX_ERROR "Unexpected token" p0) =
          report SYNTAX_ERROR "Unexpected token" p0) as Hsep.
  { unfold separator. rewrite report_currentType.
    destruct Hkind as [Hk|[Hk|Hk]]; rewrite Hk; reflexivity. }
  destruct Hkind as [Hk|[Hk|Hk]];
    rewrite Hk; cbv beta iota; rewrite Herr;
    unfold mbind, option_bind; cbv beta iota; rewrite Hsep; reflexivity.
Qed.

Lemma parseStatementList_stuck fuel (parent : Node) ty (p : Parser) :
  statementFollowers (currentType p) = true →
  currentType p ∉ [SEMICOLON; ty; END_OF_FILE] →
  parseStatementList fuel parent ty p = None.
Proof.
  revert p. induction fuel as [|fuel IH]; intros p Hfollow Hstuck.
  - rewrite parseStatementList_O; [done|].
    unfold inStatementList.
    rewrite andb_true_iff, !bool_decide_eq_true.
    rewrite !not_elem_of_cons in Hstuck. tauto.
  - destruct fuel as [|fuel].
    + rewrite parseStatementList_S; [done|].
      unfold inStatementList.
      rewrite andb_true_iff, !bool_decide_eq_true.
      rewrite !not_elem_of_cons in Hstuck. tauto.
    + rewrite parseStatementList_iteration by done.
      apply IH; done.
Qed.

(** So a compound statement whose first token is such a follower never
    returns. *)
Lemma parseCompoundStatement_stuck fuel (p : Parser) :
  statementFollowers (currentType (nextToken p)) = true →
  currentType (nextToken p) ∉ [SEMICOLON; END; END_OF_FILE] →
  parseCompoundStatement fuel p = None.
Proof.
  intros Hfollow Hstuck. destruct fuel as [|fuel]; [done|].
  rewrite parseCompoundStatement_S.
  by rewrite parseStatementList_stuck.
Qed.


(** Whenever [parseProgram] answers, it answers a PROGRAM root. *)
Lemma parseProgram_root fuel (p p' : Parser) (n : Node) :
  parseProgram fuel p = Some (n, p') → Node.type n = NodeType.PROGRAM.
Proof.
  unfold parseProgram. intros Hrun.
  destruct (decide (currentType _ = IDENTIFIER)).
  - destruct (Symtab.enter _ _) as [entry tab].
    bind_inv Hrun. by some_inv Hrun.
  - bind_inv Hrun. by some_inv Hrun.
Qed.


(** Two runs of a procedure that both answer give the same answer,
    whatever fuel each had. *)
Lemma fuel_agree_parseCompoundStatement fuel fuel' (p : Parser) r r' :
  parseCompoundStatement fuel p = Some r →
  parseCompoundStatement fuel' p = Some r' → r = r'.
Proof.
  intros Hrun Hrun'. destruct (Nat.le_ge_cases fuel fuel') as [Hle|Hle].
  - apply (fuel_parseCompoundStatement _ fuel') in Hrun; [congruence|done].
  - apply (fuel_parseCompoundStatement _ fuel) in Hrun'; [congruence|done].
Qed.


End Properties.

(** * The examples of the specification *)

(** ** Missing separator *)

Lemma missingSeparator_run :
  ∃ p',
    parseCompoundStatement 7 (start missingSeparator ∅) =
      Some (statement NodeType.COMPOUND 1
              [statement NodeType.ASSIGN 1
                 [variable "a" (entryOf "a"); integer 1]], p') ∧
    Parser.errorCount p' = 1 ∧
    Parser.output p' = [mkDiagnostic SYNTAX_ERROR 1 "Missing ;" "a"] ∧
    Parser.currentToken p' = Scanner.eofToken ∧
    Parser.scanner p' = [].
Proof. eexists. split; [vm_compute; reflexivity|]. by vm_compute. Qed.

(** C1, as stated, fails: on [BEGIN a := 1 a := 2 END] no run answers a
    COMPOUND node with two ASSIGN children. *)
Lemma missing_separator_not_both_assignments :
  ¬ ∃ fuel n p',
      parseCompoundStatement fuel (start missingSeparator ∅) = Some (n, p') ∧
      Parser.errorCount p' =
        Parser.errorCount (start missingSeparator ∅) + 1 ∧
      ∃ a1 a2,
        Node.children n = [Some a1; Some a2] ∧
        Node.type a1 = NodeType.ASSIGN ∧ Node.type a2 = NodeType.ASSIGN.
Proof.
  intros (fuel & n & p' & Hrun & _ & a1 & a2 & Hch & _).
  destruct missingSeparator_run as (q & Hrun7 & _).
  pose proof (fuel_agree_parseCompoundStatement _ _ _ _ _ Hrun Hrun7) as Heq.
  injection Heq as -> _. discriminate Hch.
Qed.

(** C1, as the code has it: with fuel enough ([7] or more) the parse of
    [BEGIN a := 1 a := 2 END] reports the missing separator once, the
    recovery of [syntaxError] then discards the tokens of the second
    statement up to END, and the COMPOUND node answered has the first
    ASSIGN node as its only child. *)
Theorem missing_separator_recovery (k : nat) :
  ∃ p',
    parseCompoundStatement (k + 7) (start missingSeparator ∅) =
      Some (statement NodeType.COMPOUND 1
              [statement NodeType.ASSIGN 1
                 [variable "a" (entryOf "a"); integer 1]], p') ∧
    Parser.errorCount p' =
      Parser.errorCount (start missingSeparator ∅) + 1 ∧
    Parser.output p' = [mkDiagnostic SYNTAX_ERROR 1 "Missing ;" "a"] ∧
    Parser.currentToken p' = Scanner.eofToken ∧
    Parser.scanner p' = [].
Proof.
  destruct missingSeparator_run as (p' & Hrun & Hrest).
  exists p'. split; [|exact Hrest].
  apply (fuel_parseCompoundStatement 7); [exact Hrun|lia].
Qed.

(** ** Loops *)

Lemma repeatLoop_run :
  ∃ p',
    parseRepeatStatement 8 (start repeatLoop ∅) =
      Some (statement NodeType.LOOP 0
              [statement NodeType.ASSIGN 1
                 [variable "x" (entryOf "x");
                  binary NodeType.ADD (variable "x" (entryOf "x"))
                    (integer 1)];
               unary NodeType.TEST 1
                 (binary NodeType.EQ (variable "x" (entryOf "x"))
                    (integer 10))], p') ∧
    Parser.errorCount p' = Parser.errorCount (start repeatLoop ∅).
Proof. eexists. split; [vm_compute; reflexivity|]. by vm_compute. Qed.

Lemma whileLoop_run :
  ∃ p',
    parseWhileStatement 7 (start whileLoop (declared ["x"])) =
      Some (statement NodeType.LOOP 0
              [unary NodeType.TEST 0
                 (unary NodeType.NOT 0
                    (binary NodeType.LT (variable "x" (entryOf "x"))
                       (integer 10)));
               statement NodeType.ASSIGN 1
                 [variable "x" (entryOf "x");
                  binary NodeType.ADD (variable "x" (entryOf "x"))
                    (integer 1)]], p') ∧
    Parser.errorCount p' =
      Parser.errorCount (start whileLoop (declared ["x"])).
Proof. eexists. split; [vm_compute; reflexivity|]. by vm_compute. Qed.

(** The two loops of the specification, through [loop_encoding]: the TEST
    node is the last child of the REPEAT loop and the first child of the
    WHILE loop. *)
Lemma loop_encoding_witness :
  (∃ body line e,
     statement NodeType.LOOP 0
       [statement NodeType.ASSIGN 1
          [variable "x" (entryOf "x");
           binary NodeType.ADD (variable "x" (entryOf "x")) (integer 1)];
        unary NodeType.TEST 1
          (binary NodeType.EQ (variable "x" (entryOf "x")) (integer 10))] =
     Node.mk NodeType.LOOP 0 "" None NoValue
       (body ++ [Some (Node.mk NodeType.TEST line "" None NoValue [e])])) ∧
  (∃ cond body,
     statement NodeType.LOOP 0
       [unary NodeType.TEST 0
          (unary NodeType.NOT 0
             (binary NodeType.LT (variable "x" (entryOf "x")) (integer 10)));
        statement NodeType.ASSIGN 1
          [variable "x" (entryOf "x");
           binary NodeType.ADD (variable "x" (entryOf "x")) (integer 1)]] =
     Node.mk NodeType.LOOP 0 "" None NoValue
       [Some (Node.mk NodeType.TEST 0 "" None NoValue
                [Some (Node.mk NodeType.NOT 0 "" None NoValue [cond])]);
        body]).
Proof.
  split.
  - destruct repeatLoop_run as (p' & Hrun & Hok).
    destruct (proj1 (loop_encoding 7 _ _ _ Hok) Hrun)
      as (body & pu & e & _ & _ & _ & _ & Hn).
    exists body, (Token.lineNumber (Parser.currentToken pu)), e. exact Hn.
  - destruct whileLoop_run as (p' & Hrun & Hok).
    destruct (proj2 (loop_encoding 6 _ _ _ Hok) Hrun)
      as (cond & pd & body & _ & _ & _ & Hn).
    exists cond, body. exact Hn.
Defined.

Lemma whileEmpty_quiet_run :
  let p := start whileEmpty (declared ["x"]) in
  ∃ p',
    parseWhileStatement 5 p =
      Some (Node.mk NodeType.LOOP 0 "" None NoValue
              [Some (unary NodeType.TEST 0
                       (unary NodeType.NOT 0 (variable "x" (entryOf "x"))));
               None], p') ∧
    Parser.errorCount p' = Parser.errorCount p ∧
    Parser.output p' = Parser.output p.
Proof. eexists. split; [vm_compute; reflexivity|]. by vm_compute. Qed.

(** C2: [WHILE x DO ;] is parsed without an error, with fuel enough ([5] or
    more), and the LOOP node answered has TEST over NOT over [x] as its
    first child and a null pointer as its second: [parseWhileStatement]
    adopts what [parseStatement] answers for the body as it is, and for the
    empty statement that is a null pointer.  [parseStatementList] adopts a
    statement only when it is not null ([parseStatementList_appends]);
    [parseWhileStatement] makes no such test. *)
Theorem parseWhileStatement_null_body (k : nat) :
  let p := start whileEmpty (declared ["x"]) in
  ∃ p',
    parseWhileStatement (k + 5) p =
      Some (Node.mk NodeType.LOOP 0 "" None NoValue
              [Some (unary NodeType.TEST 0
                       (unary NodeType.NOT 0 (variable "x" (entryOf "x"))));
               None], p') ∧
    Parser.errorCount p' = Parser.errorCount p ∧
    Parser.output p' = Parser.output p.
Proof.
  destruct whileEmpty_quiet_run as (p' & Hrun & Hrest).
  exists p'. split; [|exact Hrest].
  destruct (fuel_statements 5) as (_ & _ & _ & _ & Hfuel).
  apply (Hfuel _ _ Hrun). lia.
Qed.

(** ** Identifiers *)

(** [y := z] with nothing declared: the target is entered, the operand is
    reported. *)
Lemma undeclared_run :
  ∃ p',
    parseCompoundStatement 7 (start undeclared ∅) =
      Some (statement NodeType.COMPOUND 1
              [statement NodeType.ASSIGN 1
                 [variable "y" (entryOf "y"); variable "z" None]], p') ∧
    Parser.errorCount p' = Parser.errorCount (start undeclared ∅) + 1 ∧
    Parser.output p' =
      [mkDiagnostic SEMANTIC_ERROR 1 "Undeclared identifier" "z"].
Proof. eexists. split; [vm_compute; reflexivity|]. by vm_compute. Qed.

(** The operand [z] of [y := z], through [parseVariable_undeclared]: one
    semantic error, the lookahead moves to END, the node has no symbol
    reference. *)
Lemma parseVariable_undeclared_witness :
  let p := start [ident "z"; word END "END"] (declared ["y"]) in
  Symtab.lookup (toLowerCase (Token.text (Parser.currentToken p)))
    (Parser.symtab p) = None ∧
  parseVariable p =
    (variable "z" None,
     Parser.mk [] (declared ["y"]) (word END "END") 1 1
       [mkDiagnostic SEMANTIC_ERROR 1 "Undeclared identifier" "z"]) ∧
  parseFactor 1 p =
    Some (Some (variable "z" None),
          Parser.mk [] (declared ["y"]) (word END "END") 1 1
            [mkDiagnostic SEMANTIC_ERROR 1 "Undeclared identifier" "z"]).
Proof.
  intros p.
  assert (Symtab.lookup (toLowerCase (Token.text (Parser.currentToken p)))
            (Parser.symtab p) = None) as Hmiss by reflexivity.
  split; [exact Hmiss|].
  destruct (parseVariable_undeclared p Hmiss) as [Hvar Hfactor].
  split; [exact Hvar|]. apply Hfactor. reflexivity.
Defined.

Lemma precedence_run :
  ∃ p',
    parseAssignmentStatement 6 (start precedence ∅) =
      Some (statement NodeType.ASSIGN 0
              [variable "x" (entryOf "x");
               binary NodeType.ADD (integer 1)
                 (binary NodeType.MULTIPLY (integer 2) (integer 3))], p') ∧
    Parser.errorCount p' = Parser.errorCount (start precedence ∅) ∧
    Parser.output p' = [].
Proof. eexists. split; [vm_compute; reflexivity|]. by vm_compute. Qed.

(** The target [x] of [x := 1 + 2 * 3], through
    [parseAssignmentStatement_lhs]: the first child of ASSIGN is a VARIABLE
    node with a symbol reference. *)
Lemma parseAssignmentStatement_lhs_witness :
  ∃ entry rhs,
    statement NodeType.ASSIGN 0
      [variable "x" (entryOf "x");
       binary NodeType.ADD (integer 1)
         (binary NodeType.MULTIPLY (integer 2) (integer 3))] =
    Node.mk NodeType.ASSIGN 0 "" None NoValue
      [Some (Node.mk NodeType.VARIABLE 0 "x" (Some entry) NoValue []); rhs].
Proof.
  destruct precedence_run as (p' & Hrun & _).
  destruct (parseAssignmentStatement_lhs 6 (start precedence ∅))
    as (entry & pl & _ & _ & _ & _ & Heq).
  rewrite Heq in Hrun.
  destruct (parseExpression 6 _) as [[rhs q]|]; [|discriminate Hrun].
  exists entry, rhs. simpl in Hrun. apply (inj Some) in Hrun.
  apply (f_equal fst) in Hrun. symmetry. exact Hrun.
Defined.

(** ** Relational operators *)

Lemma chained_run :
  let p := start chained (declared ["a"; "b"; "c"]) in
  ∃ p1 p',
    parseSimpleExpression 3 p = Some (Some (variable "a" (entryOf "a")), p1) ∧
    relationalOperators (currentType p1) = true ∧
    parseExpression 4 p =
      Some (Some (binary NodeType.EQ (variable "a" (entryOf "a"))
                    (variable "b" (entryOf "b"))), p') ∧
    Parser.currentToken p' = word EQUALS "=" ∧
    Parser.scanner p' = [ident "c"] ∧
    Parser.errorCount p' = Parser.errorCount p ∧
    Parser.output p' = Parser.output p.
Proof.
  eexists _, _. split; [vm_compute; reflexivity|].
  split; [vm_compute; reflexivity|].
  split; [vm_compute; reflexivity|]. by vm_compute.
Qed.

(** [a = b = c], through [parseExpression_relational_two_children]: the
    node is a relational node over [a] and a second operand. *)
Lemma parseExpression_relational_two_children_witness :
  ∃ k e2 p',
    parseExpression 24 (start chained (declared ["a"; "b"; "c"])) =
    Some (Some (Node.mk k 0 "" None NoValue
                  [Some (variable "a" (entryOf "a")); e2]), p').
Proof.
  destruct chained_run as (p1 & p' & Hleft & Hrel & _).
  apply (fuel_parseSimpleExpression _ 23) in Hleft; [|lia].
  destruct (parseExpression_relational_two_children 23 _ _ _ Hleft Hrel)
    as (_ & k & e2 & q & _ & _ & _ & Hrun).
  - vm_compute. lia.
  - exists k, e2, q. exact Hrun.
Defined.

(** ** WRITE and WRITELN *)

(** C9, as stated, fails: [WRITE] followed by END answers a WRITE node
    without a child. *)
Lemma write_without_argument_childless :
  Node.type (parseWriteStatement (start writeNothing ∅)).1 =
    NodeType.WRITE ∧
  Node.children (parseWriteStatement (start writeNothing ∅)).1 = [] ∧
  ¬ (1 ≤ length (Node.children
                   (parseWriteStatement (start writeNothing ∅)).1))%nat.
Proof. vm_compute. split; [done|]. split; [done|]. lia. Qed.

(** The two statements of C9, through [parseWriteStatement_children]. *)
Lemma parseWriteStatement_children_witness :
  Parser.errorCount (start writeNothing ∅) <
    Parser.errorCount (parseWriteStatement (start writeNothing ∅)).2 ∧
  (1 ≤ length (Node.children
                 (parseWriteStatement
                    (start (word WRITE "WRITE" :: writeFormatted)
                       (declared ["x"]))).1))%nat ∧
  parseWritelnStatement (start writelnAlone ∅) =
    (Node.new NodeType.WRITELN, nextToken (start writelnAlone ∅)).
Proof.
  split; [|split].
  - apply (parseWriteStatement_children (start writeNothing ∅)).
    reflexivity.
  - apply (parseWriteStatement_children
             (start (word WRITE "WRITE" :: writeFormatted) (declared ["x"]))).
    reflexivity.
  - apply (parseWriteStatement_children (start writelnAlone ∅)).
    by vm_compute.
Defined.

(** Field width and decimal places are each optional: one, two and three
    children, no error. *)
Example writeArguments_runs :
  let tab := declared ["x"] in
  let run toks :=
    let r := parseWriteArguments (Node.new NodeType.WRITE) (start toks tab) in
    (Node.children r.1, Parser.errorCount r.2) in
  run [word LPAREN "("; ident "x"; word RPAREN ")"] =
    ([Some (variable "x" (entryOf "x"))], 0) ∧
  run [word LPAREN "("; ident "x"; word COLON ":"; int "8" 8;
       word RPAREN ")"] =
    ([Some (variable "x" (entryOf "x")); Some (integer 8)], 0) ∧
  run writeFormatted =
    ([Some (variable "x" (entryOf "x")); Some (integer 8);
      Some (integer 2)], 0).
Proof. by vm_compute. Qed.

(** ** Precedence *)

(** [x := 1 + 2 * 3], through [assignment_precedence]. *)
Lemma assignment_precedence_witness :
  ∃ entry p',
    parseAssignmentStatement 8 (start precedence ∅) =
      Some (statement NodeType.ASSIGN 0
              [variable "x" (Some entry);
               binary NodeType.ADD (integer 1)
                 (binary NodeType.MULTIPLY (integer 2) (integer 3))], p').
Proof.
  destruct (assignment_precedence onePlusTwoTimesThree
              (ident "x") (word COLON_EQUALS ":=") [] 8
              (start precedence ∅)) as (entry & p' & Hrun & _).
  - reflexivity.
  - repeat constructor; by vm_compute.
  - split; reflexivity.
  - by vm_compute.
  - simpl. lia.
  - exists entry, p'. exact Hrun.
Defined.

(** ** One comparison per expression *)





(** ** Error recovery *)

(** C7: [PROGRAM p ; BEGIN DO END .] never returns from [parseProgram],
    whatever the fuel.  The DO after BEGIN is a statement follower, so
    [syntaxError] discards nothing; it is no semicolon, not END and not the
    sentinel, so the loop of [parseStatementList] meets it again
    ([parseStatementList_iteration]). *)
Theorem parseProgram_stray_follower (fuel : nat) :
  parseProgram fuel (Parser.new strayDo ∅) = None.
Proof.
  unfold parseProgram.
  rewrite (decide_True
             (P := currentType (nextToken (Parser.new strayDo ∅)) =
                   TokenType.PROGRAM)) by reflexivity.
  rewrite (decide_True
             (P := currentType
                     (nextToken (nextToken (Parser.new strayDo ∅))) =
                   IDENTIFIER)) by reflexivity.
  cbv beta iota zeta delta [Symtab.enter SimpleSymtab.ops].
  rewrite parseCompoundStatement_stuck; [done|by vm_compute|].
  assert (DO ∉ [SEMICOLON; END; END_OF_FILE]) as Hstuck.
  { rewrite !not_elem_of_cons. repeat split; try done. apply not_elem_of_nil. }
  exact Hstuck.
Qed.


(** * Further properties *)

Section Further.

Context {T E : Type} `{!Symtab.Ops T E}.

#[local] Abbreviation Parser := (Parser.t T).
#[local] Abbreviation Node := (Node.t E).

(** ** Proof steps shared below *)

Ltac bind_inv H :=
  match type of H with
  | (?m ≫= _) = Some _ =>
    let E := fresh "Hcall" in
    let n := fresh "n" in
    let q := fresh "q" in
    destruct m as [[n q]|] eqn:E; simpl in H; [|discriminate H]
  | (_ <$> ?m) = Some _ =>
    let E := fresh "Hcall" in
    let n := fresh "n" in
    let q := fresh "q" in
    destruct m as [[n q]|] eqn:E; simpl in H; [|discriminate H]
  end.
Ltac some_inv H := injection H as ??; subst.
Ltac dispatch H :=
  match type of H with
  | (nonNull <$> _) = Some _ => bind_inv H; some_inv H
  | Some (nonNull _) = Some _ => unfold nonNull in H; some_inv H
  | Some _ = Some _ => some_inv H
  end.
Ltac peel :=
  repeat match goal with
  | |- reaches ?p ?p => reflexivity
  | H : reaches ?p ?q |- reaches ?p ?q => exact H
  | |- reaches ?p (nextToken ?q) =>
    transitivity q; [|apply reaches_nextToken]
  | |- reaches ?p (syntaxError _ ?q) =>
    transitivity q; [|apply reaches_syntaxError]
  end.


(** ** Node kinds *)

Lemma relational_operatorKinds k :
  k ∈ [NodeType.EQ; NodeType.LT; NodeType.LE; NodeType.GT; NodeType.GE;
       NodeType.NE] →
  k ∈ operatorKinds.
Proof.
  unfold operatorKinds. rewrite !elem_of_cons, elem_of_nil. tauto.
Qed.

Lemma additive_operatorKinds (P : Prop) `{!Decision P} :
  (if decide P then NodeType.ADD else NodeType.SUBTRACT) ∈ operatorKinds.
Proof.
  unfold operatorKinds. rewrite !elem_of_cons. destruct (decide P); tauto.
Qed.

Lemma multiplicative_operatorKinds (P : Prop) `{!Decision P} :
  (if decide P then NodeType.MULTIPLY else NodeType.DIVIDE) ∈ operatorKinds.
Proof.
  unfold operatorKinds. rewrite !elem_of_cons. destruct (decide P); tauto.
Qed.

(** ** What every expression keeps *)

(** The tokens an expression procedure pulls are guarded: each pull follows
    a test that found an operand, an operator or a parenthesis in the
    lookahead.  So a relation kept by a pull from a lookahead that is no
    statement follower, by a report and by [syntaxError] is kept by every
    expression procedure; a property of trees kept by the leaves and by the
    operator nodes holds of every tree answered. *)
Section ExpressionInvariant.

Variable R : Parser → Parser → Prop.
Variable Good : option Node → Prop.

Hypothesis R_preorder : PreOrder R.
Hypothesis R_nextToken :
  ∀ p, statementFollowers (currentType p) = false → R p (nextToken p).
Hypothesis R_report : ∀ ch msg p, R p (report ch msg p).
Hypothesis R_syntaxError : ∀ msg p, R p (syntaxError msg p).
Hypothesis Good_null : Good None.
Hypothesis Good_leaf :
  ∀ k text entry value,
    k ∈ leafKinds → Good (Some (Node.mk k 0 text entry value [])).
Hypothesis Good_operator :
  ∀ k l r,
    k ∈ operatorKinds → Good l → Good r →
    Good (Some (Node.mk k 0 "" None NoValue [l; r])).

Lemma R_pull (p : Parser) ty :
  currentType p = ty → statementFollowers ty = false → R p (nextToken p).
Proof. intros <-. apply R_nextToken. Qed.

Lemma kept_parseVariable (p : Parser) :
  currentType p = IDENTIFIER →
  R p (parseVariable p).2 ∧ Good (Some (parseVariable p).1).
Proof.
  intros Hid. unfold parseVariable. simpl. split.
  - destruct (Symtab.lookup _ _).
    + by eapply R_pull.
    + etrans; [apply (R_report SEMANTIC_ERROR)|].
      by eapply R_pull.
  - apply Good_leaf. unfold leafKinds. rewrite !elem_of_cons. tauto.
Qed.

Lemma kept_expressions fuel :
  (∀ (p p' : Parser) n,
     parseExpression fuel p = Some (n, p') → R p p' ∧ Good n) ∧
  (∀ (p p' : Parser) n,
     parseSimpleExpression fuel p = Some (n, p') → R p p' ∧ Good n) ∧
  (∀ (p p' : Parser) n0 n,
     Good n0 → simpleExpressionLoop fuel n0 p = Some (n, p') →
     R p p' ∧ Good n) ∧
  (∀ (p p' : Parser) n,
     parseTerm fuel p = Some (n, p') → R p p' ∧ Good n) ∧
  (∀ (p p' : Parser) n0 n,
     Good n0 → termLoop fuel n0 p = Some (n, p') → R p p' ∧ Good n) ∧
  (∀ (p p' : Parser) n,
     parseFactor fuel p = Some (n, p') → R p p' ∧ Good n).
Proof.
  induction fuel as [|fuel (IHe & IHs & IHsl & IHt & IHtl & IHf)].
  - split; [discriminate|]. split; [discriminate|]. split.
    { intros p p' n0 n HG0 Hrun.
      destruct (simpleExpressionOperators (currentType p)) eqn:Hop.
      - by rewrite simpleExpressionLoop_O in Hrun.
      - rewrite simpleExpressionLoop_exit in Hrun by done.
        by some_inv Hrun. }
    split; [discriminate|]. split; [|discriminate].
    intros p p' n0 n HG0 Hrun.
    destruct (termOperators (currentType p)) eqn:Hop.
    + by rewrite termLoop_O in Hrun.
    + rewrite termLoop_exit in Hrun by done. by some_inv Hrun.
  - assert (∀ (p p' : Parser) n,
              parseExpression (S fuel) p = Some (n, p') → R p p' ∧ Good n)
      as Hexpr.
    { intros p p' n Hrun. rewrite parseExpression_S in Hrun.
      bind_inv Hrun. destruct (IHs _ _ _ Hcall) as [HR1 HG1].
      destruct (relationalOperators (currentType q)) eqn:Hrel;
        [|by some_inv Hrun].
      destruct (relationalNode_mapped (E:=E) _ Hrel) as (k & Hk & Hnode).
      rewrite Hnode in Hrun. bind_inv Hrun. some_inv Hrun.
      destruct (IHs _ _ _ Hcall0) as [HR2 HG2]. split.
      - etrans; [exact HR1|]. etrans; [|exact HR2].
        apply R_nextToken. apply relationalOperators_spec in Hrel.
        revert Hrel. generalize (currentType q). intros ty Hty.
        rewrite !elem_of_cons, elem_of_nil in Hty.
        by destruct Hty as [->|[->|[->|[->|[->|[->|[]]]]]]].
      - apply Good_operator; [|done..]. by apply relational_operatorKinds. }
    assert (∀ (p p' : Parser) n0 n,
              Good n0 → simpleExpressionLoop (S fuel) n0 p = Some (n, p') →
              R p p' ∧ Good n) as Hsl.
    { intros p p' n0 n HG0 Hrun.
      destruct (simpleExpressionOperators (currentType p)) eqn:Hop.
      - rewrite simpleExpressionLoop_S in Hrun by done. bind_inv Hrun.
        destruct (IHt _ _ _ Hcall) as [HR1 HG1].
        assert (Good (Some (Node.adopt n1
                  (Node.adopt n0
                     (if decide (currentType p = PLUS)
                      then Node.new NodeType.ADD
                      else Node.new NodeType.SUBTRACT))))) as HG.
        { pose proof (additive_operatorKinds (currentType p = PLUS)) as Hk.
          destruct (decide (currentType p = PLUS));
            by apply Good_operator. }
        destruct (IHsl _ _ _ _ HG Hrun) as [HR2 HG2].
        split; [|done].
        etrans; [|exact HR2]. etrans; [|exact HR1].
        apply R_nextToken. apply simpleExpressionOperators_spec in Hop.
        revert Hop. generalize (currentType p). intros ty Hty.
        rewrite !elem_of_cons, elem_of_nil in Hty.
        by destruct Hty as [->|[->|[]]].
      - rewrite simpleExpressionLoop_exit in Hrun by done.
        by some_inv Hrun. }
    assert (∀ (p p' : Parser) n0 n,
              Good n0 → termLoop (S fuel) n0 p = Some (n, p') →
              R p p' ∧ Good n) as Htl.
    { intros p p' n0 n HG0 Hrun.
      destruct (termOperators (currentType p)) eqn:Hop.
      - rewrite termLoop_S in Hrun by done. bind_inv Hrun.
        destruct (IHf _ _ _ Hcall) as [HR1 HG1].
        assert (Good (Some (Node.adopt n1
                  (Node.adopt n0
                     (if decide (currentType p = STAR)
                      then Node.new NodeType.MULTIPLY
                      else Node.new NodeType.DIVIDE))))) as HG.
        { pose proof (multiplicative_operatorKinds (currentType p = STAR))
            as Hk.
          destruct (decide (currentType p = STAR));
            by apply Good_operator. }
        destruct (IHtl _ _ _ _ HG Hrun) as [HR2 HG2].
        split; [|done].
        etrans; [|exact HR2]. etrans; [|exact HR1].
        apply R_nextToken. apply termOperators_spec in Hop.
        revert Hop. generalize (currentType p). intros ty Hty.
        rewrite !elem_of_cons, elem_of_nil in Hty.
        by destruct Hty as [->|[->|[]]].
      - rewrite termLoop_exit in Hrun by done. by some_inv Hrun. }
    split; [exact Hexpr|]. split.
    { intros p p' n Hrun. rewrite parseSimpleExpression_S in Hrun.
      bind_inv Hrun. destruct (IHt _ _ _ Hcall) as [HR1 HG1].
      destruct (IHsl _ _ _ _ HG1 Hrun) as [HR2 HG2].
      split; [by etrans|done]. }
    split; [exact Hsl|]. split.
    { intros p p' n Hrun. rewrite parseTerm_S in Hrun.
      bind_inv Hrun. destruct (IHf _ _ _ Hcall) as [HR1 HG1].
      destruct (IHtl _ _ _ _ HG1 Hrun) as [HR2 HG2].
      split; [by etrans|done]. }
    split; [exact Htl|].
    intros p p' n Hrun. rewrite parseFactor_S in Hrun.
    repeat case_decide.
    + unfold nonNull in Hrun. some_inv Hrun. by apply kept_parseVariable.
    + some_inv Hrun. split; [by eapply R_pull|].
      apply Good_leaf. unfold leafKinds. rewrite !elem_of_cons. tauto.
    + some_inv Hrun. split; [by eapply R_pull|].
      apply Good_leaf. unfold leafKinds. rewrite !elem_of_cons. tauto.
    + bind_inv Hrun. some_inv Hrun. destruct (IHe _ _ _ Hcall) as [HR1 HG1].
      split; [|done].
      etrans; [by eapply R_pull|]. etrans; [exact HR1|].
      case_decide; [by eapply R_pull|apply R_syntaxError].
    + some_inv Hrun. split; [apply R_syntaxError|done].
Qed.

End ExpressionInvariant.

(** ** Tokens consumed *)

#[local] Instance consumes_preorder : PreOrder (consumes (T:=T)).
Proof.
  split.
  - intros p. exists []. split; [constructor|]. by left.
  - intros p q r (c1 & Hc1 & H1) (c2 & Hc2 & H2).
    destruct H1 as [H1|[H1 Hq]].
    + destruct H2 as [H2|[H2 Hr]].
      * exists (c1 ++ c2). split; [by apply Forall_app|].
        left. by rewrite H1, H2, app_assoc.
      * exists (c1 ++ c2). split; [by apply Forall_app|].
        right. by rewrite H1, H2.
    + exists c1. split; [done|]. right. split; [done|].
      rewrite Hq in H2. destruct H2 as [H2|[H2 Hr]]; [|done].
      destruct c2 as [|tok c2]; simpl in H2; [by symmetry|].
      injection H2 as <- _.
      by apply Forall_cons in Hc2 as [Hc2 _].
Qed.

Lemma consumes_nextToken (p : Parser) :
  statementFollowers (currentType p) = false → consumes p (nextToken p).
Proof.
  intros Hno. exists [Parser.currentToken p].
  split; [by repeat constructor|].
  rewrite stream_nextToken. unfold stream.
  destruct (Parser.scanner p); [by right|by left].
Qed.

Lemma consumes_same (p p' : Parser) : stream p' = stream p → consumes p p'.
Proof.
  intros Heq. exists []. split; [constructor|]. left. by rewrite Heq.
Qed.

Lemma consumes_skipToFollower sc (tab : T) tok ln ec out :
  consumes (Parser.mk sc tab tok ln ec out)
    (Parser.mk (skipToFollower tok sc).2 tab (skipToFollower tok sc).1
       ln ec out).
Proof.
  revert tok. induction sc as [|tok' rest IH]; intros tok; simpl.
  - destruct (statementFollowers (Token.type tok)) eqn:Hf; [reflexivity|].
    apply (consumes_nextToken (Parser.mk [] tab tok ln ec out) Hf).
  - destruct (statementFollowers (Token.type tok)) eqn:Hf; [reflexivity|].
    etrans; [|apply IH].
    apply (consumes_nextToken (Parser.mk (tok' :: rest) tab tok ln ec out)
             Hf).
Qed.

Lemma consumes_syntaxError msg (p : Parser) : consumes p (syntaxError msg p).
Proof.
  etrans; [apply (consumes_same p (report SYNTAX_ERROR msg p)); done|].
  unfold syntaxError.
  pose proof (consumes_skipToFollower
    (Parser.scanner (report SYNTAX_ERROR msg p))
    (Parser.symtab (report SYNTAX_ERROR msg p))
    (Parser.currentToken (report SYNTAX_ERROR msg p))
    (Parser.lineNumber (report SYNTAX_ERROR msg p))
    (Parser.errorCount (report SYNTAX_ERROR msg p))
    (Parser.output (report SYNTAX_ERROR msg p))) as Hskip.
  destruct (skipToFollower _ _) as [tok sc]. exact Hskip.
Qed.

(** Nothing is consumed from a statement follower. *)
Lemma consumes_follower (p p' : Parser) :
  consumes p p' → statementFollowers (currentType p) = true →
  stream p' = stream p.
Proof.
  intros (consumed & Hc & Hs) Hf.
  assert (consumed = []) as ->.
  { destruct consumed as [|tok consumed]; [done|].
    apply Forall_cons in Hc as [Hc _].
    assert (tok = Parser.currentToken p) as ->.
    { destruct Hs as [Hs|[Hs _]]; unfold stream in Hs; simpl in Hs;
        by injection Hs as -> _. }
    unfold currentType in Hf. congruence. }
  destruct Hs as [Hs|[Hs _]]; [done|]. discriminate Hs.
Qed.

Lemma syntaxError_lineNumber msg (p : Parser) :
  Parser.lineNumber (syntaxError msg p) = Parser.lineNumber p.
Proof.
  unfold syntaxError.
  destruct (skipToFollower _ _) as [tok sc]. reflexivity.
Qed.

(** X1: [syntaxError] always returns; it counts one error and prints one
    line, the lookahead it leaves is a statement follower, the tokens it
    discarded hold no statement follower (it stops at the first one, or at
    the end of input), and it touches neither the symbol table nor the
    recorded line. *)
Theorem syntaxError_recovers msg (p : Parser) :
  statementFollowers (currentType (syntaxError msg p)) = true ∧
  consumes p (syntaxError msg p) ∧
  Parser.errorCount (syntaxError msg p) = Parser.errorCount p + 1 ∧
  Parser.output (syntaxError msg p) =
    Parser.output p ++
      [mkDiagnostic SYNTAX_ERROR (Parser.lineNumber p) msg
         (Token.text (Parser.currentToken p))] ∧
  Parser.symtab (syntaxError msg p) = Parser.symtab p ∧
  Parser.lineNumber (syntaxError msg p) = Parser.lineNumber p.
Proof.
  split; [apply syntaxError_follower|].
  split; [apply consumes_syntaxError|].
  split; [apply syntaxError_errorCount|].
  split; [apply syntaxError_output|].
  split; [apply syntaxError_symtab|apply syntaxError_lineNumber].
Qed.

(** ** What every expression keeps, instantiated *)

(** X2: an expression never reads a statement follower: the tokens
    [parseExpression] consumes hold none, so on a lookahead that is a
    statement follower it consumes nothing at all. *)
Theorem parseExpression_stops_at_follower fuel (p p' : Parser)
    (n : option Node) :
  parseExpression fuel p = Some (n, p') →
  consumes p p' ∧
  (statementFollowers (currentType p) = true → stream p' = stream p).
Proof.
  intros Hrun.
  destruct (kept_expressions consumes (fun _ => True) consumes_preorder
              consumes_nextToken
              (fun ch msg q => consumes_same q (report ch msg q) eq_refl)
              consumes_syntaxError I (fun _ _ _ _ _ => I)
              (fun _ _ _ _ _ _ => I) fuel) as (Hexpr & _).
  destruct (Hexpr _ _ _ Hrun) as [Hc _].
  split; [exact Hc|]. by apply consumes_follower.
Qed.

(** X3: an expression changes neither the symbol table nor the recorded
    line number: no name is entered while an expression is parsed, and the
    errors it reports carry the line of the statement. *)
Theorem parseExpression_keeps_symtab fuel (p p' : Parser) (n : option Node) :
  parseExpression fuel p = Some (n, p') →
  Parser.symtab p' = Parser.symtab p ∧
  Parser.lineNumber p' = Parser.lineNumber p.
Proof.
  intros Hrun.
  set (R := fun q q' : Parser =>
              Parser.symtab q' = Parser.symtab q ∧
              Parser.lineNumber q' = Parser.lineNumber q).
  assert (PreOrder R) as HR.
  { split; [done|]. intros q1 q2 q3 [H1 H2] [H3 H4]. split; congruence. }
  assert (∀ q, statementFollowers (currentType q) = false →
               R q (nextToken q)) as Hnext.
  { intros q _. split; [apply nextToken_symtab|apply nextToken_lineNumber]. }
  assert (∀ msg q, R q (syntaxError msg q)) as Hsyntax.
  { intros msg q.
    split; [apply syntaxError_symtab|apply syntaxError_lineNumber]. }
  destruct (kept_expressions R (fun _ => True) HR Hnext
              (fun ch msg q => conj eq_refl eq_refl) Hsyntax I
              (fun _ _ _ _ _ => I) (fun _ _ _ _ _ _ => I) fuel)
    as (Hexpr & _).
  by destruct (Hexpr _ _ _ Hrun) as [Hkept _].
Qed.

(** X4: the tree of an expression is made of VARIABLE, INTEGER_CONSTANT and
    REAL_CONSTANT leaves without children and of arithmetic and relational
    nodes with exactly two children (null where a factor was missing): no
    other kind of node, NOT included, and no other arity. *)
Theorem parseExpression_tree fuel (p p' : Parser) (n : option Node) :
  parseExpression fuel p = Some (n, p') → expressionTreeOf n = true.
Proof.
  intros Hrun.
  assert (PreOrder (fun _ _ : Parser => True)) as HR by done.
  assert (∀ k text (entry : option E) value,
            k ∈ leafKinds →
            expressionTreeOf (Some (Node.mk k 0 text entry value [])) = true)
    as Hleaf.
  { intros k text entry value Hk. simpl. by apply bool_decide_eq_true. }
  assert (∀ k (l r : option Node),
            k ∈ operatorKinds →
            expressionTreeOf l = true → expressionTreeOf r = true →
            expressionTreeOf (Some (Node.mk k 0 "" None NoValue [l; r])) =
              true) as Hoperator.
  { intros k l r Hk Hl Hr. simpl.
    rewrite bool_decide_eq_true_2 by done. simpl.
    destruct l, r; simpl in *; by rewrite ?Hl, ?Hr. }
  destruct (kept_expressions (fun _ _ => True)
              (fun m => expressionTreeOf m = true) HR
              (fun _ _ => I) (fun _ _ _ => I) (fun _ _ => I) eq_refl
              Hleaf Hoperator fuel) as (Hexpr & _).
  by destruct (Hexpr _ _ _ Hrun) as [_ Htree].
Qed.

(** ** Null pointers *)

Lemma null_expressions fuel :
  (∀ (p p' : Parser),
     parseExpression fuel p = Some (None, p') →
     Parser.errorCount p < Parser.errorCount p') ∧
  (∀ (p p' : Parser),
     parseSimpleExpression fuel p = Some (None, p') →
     Parser.errorCount p < Parser.errorCount p') ∧
  (∀ (p p' : Parser) n0,
     simpleExpressionLoop fuel n0 p = Some (None, p') →
     n0 = None ∧ p' = p) ∧
  (∀ (p p' : Parser),
     parseTerm fuel p = Some (None, p') →
     Parser.errorCount p < Parser.errorCount p') ∧
  (∀ (p p' : Parser) n0,
     termLoop fuel n0 p = Some (None, p') → n0 = None ∧ p' = p) ∧
  (∀ (p p' : Parser),
     parseFactor fuel p = Some (None, p') →
     Parser.errorCount p < Parser.errorCount p').
Proof.
  induction fuel as [|fuel (IHe & IHs & IHsl & IHt & IHtl & IHf)].
  - split; [discriminate|]. split; [discriminate|]. split.
    { intros p p' n0 Hrun.
      destruct (simpleExpressionOperators (currentType p)) eqn:Hop.
      - by rewrite simpleExpressionLoop_O in Hrun.
      - rewrite simpleExpressionLoop_exit in Hrun by done.
        by some_inv Hrun. }
    split; [discriminate|]. split; [|discriminate].
    intros p p' n0 Hrun.
    destruct (termOperators (currentType p)) eqn:Hop.
    + by rewrite termLoop_O in Hrun.
    + rewrite termLoop_exit in Hrun by done. by some_inv Hrun.
  - split.
    { intros p p' Hrun. rewrite parseExpression_S in Hrun. bind_inv Hrun.
      destruct (relationalOperators (currentType q)) eqn:Hrel.
      - destruct (relationalNode_mapped (E:=E) _ Hrel) as (k & _ & Hnode).
        rewrite Hnode in Hrun. by bind_inv Hrun.
      - some_inv Hrun. by apply IHs. }
    split.
    { intros p p' Hrun. rewrite parseSimpleExpression_S in Hrun.
      bind_inv Hrun. destruct (IHsl _ _ _ Hrun) as [-> ->]. by apply IHt. }
    split.
    { intros p p' n0 Hrun.
      destruct (simpleExpressionOperators (currentType p)) eqn:Hop.
      - rewrite simpleExpressionLoop_S in Hrun by done. bind_inv Hrun.
        by destruct (IHsl _ _ _ Hrun) as [? _].
      - rewrite simpleExpressionLoop_exit in Hrun by done.
        by some_inv Hrun. }
    split.
    { intros p p' Hrun. rewrite parseTerm_S in Hrun.
      bind_inv Hrun. destruct (IHtl _ _ _ Hrun) as [-> ->]. by apply IHf. }
    split.
    { intros p p' n0 Hrun.
      destruct (termOperators (currentType p)) eqn:Hop.
      - rewrite termLoop_S in Hrun by done. bind_inv Hrun.
        by destruct (IHtl _ _ _ Hrun) as [? _].
      - rewrite termLoop_exit in Hrun by done. by some_inv Hrun. }
    intros p p' Hrun. rewrite parseFactor_S in Hrun.
    unfold nonNull in Hrun. repeat case_decide; try done.
    + bind_inv Hrun. some_inv Hrun.
      apply IHe in Hcall. rewrite nextToken_errorCount in Hcall.
      case_decide;
        rewrite ?nextToken_errorCount, ?syntaxError_errorCount; lia.
    + injection Hrun as <-. rewrite syntaxError_errorCount. lia.
Qed.

(** X5: [parseExpression] answers a null pointer only after a syntax
    error: when the error count is unchanged the expression is a node. *)
Theorem parseExpression_null_after_error fuel (p p' : Parser)
    (n : option Node) :
  parseExpression fuel p = Some (n, p') →
  Parser.errorCount p' = Parser.errorCount p →
  is_Some n.
Proof.
  intros Hrun Hok. destruct n as [node|]; [by eexists|].
  apply null_expressions in Hrun. lia.
Qed.

(** X6: [parseStatement] answers a null pointer only for the empty
    statement, where it consumes nothing and reports nothing, or after a
    syntax error. *)
Theorem parseStatement_null fuel (p p' : Parser) :
  parseStatement fuel p = Some (None, p') →
  (currentType p = SEMICOLON ∧
   p' = setLineNumber (Token.lineNumber (Parser.currentToken p)) p) ∨
  (Parser.errorCount p' = Parser.errorCount p + 1 ∧
   currentType p ∉ [IDENTIFIER; BEGIN; REPEAT; WRITE; WRITELN; WHILE;
                    SEMICOLON]).
Proof.
  intros Hrun. destruct fuel as [|fuel]; [done|].
  rewrite parseStatement_S in Hrun. cbv zeta in Hrun. bind_inv Hrun.
  destruct n as [node|]; [done|]. simpl in Hrun. injection Hrun as <-.
  change (currentType (setLineNumber
            (Token.lineNumber (Parser.currentToken p)) p))
    with (currentType p) in Hcall.
  destruct (currentType p) eqn:Hty;
    first [ by (bind_inv Hcall)
          | by (unfold nonNull in Hcall)
          | (injection Hcall as <-; left; done)
          | (injection Hcall as <-; right;
             split; [by rewrite syntaxError_errorCount|];
             rewrite !not_elem_of_cons; repeat split; try done;
             apply not_elem_of_nil) ].
Qed.

(** ** Statement lists *)

(** A list returns at its terminal or at the end of input. *)
Lemma parseStatementList_lookahead fuel :
  ∀ (parent n : Node) ty (p p' : Parser),
    parseStatementList fuel parent ty p = Some (n, p') →
    currentType p' = ty ∨ currentType p' = END_OF_FILE.
Proof.
  assert (∀ ty (p : Parser), inStatementList ty p = false →
            currentType p = ty ∨ currentType p = END_OF_FILE) as Hexit.
  { intros ty p Hin. unfold inStatementList in Hin.
    apply andb_false_iff in Hin as [Hin|Hin];
      apply bool_decide_eq_false in Hin;
      destruct (decide (currentType p = ty));
      destruct (decide (currentType p = END_OF_FILE)); tauto. }
  induction fuel as [|fuel IH]; intros parent n ty p p' Hrun;
    destruct (inStatementList ty p) eqn:Hin.
  - by rewrite parseStatementList_O in Hrun.
  - rewrite parseStatementList_exit in Hrun by done. some_inv Hrun.
    by apply Hexit.
  - rewrite parseStatementList_S in Hrun by done. bind_inv Hrun.
    by eapply IH.
  - rewrite parseStatementList_exit in Hrun by done. some_inv Hrun.
    by apply Hexit.
Qed.

(** The node of a compound statement. *)
Lemma parseCompoundStatement_body fuel (p p' : Parser) (n : Node) :
  parseCompoundStatement fuel p = Some (n, p') →
  ∃ body,
    n = Node.mk NodeType.COMPOUND (Token.lineNumber (Parser.currentToken p))
          "" None NoValue body ∧
    Forall is_Some body.
Proof.
  intros Hrun. destruct fuel as [|fuel]; [done|].
  rewrite parseCompoundStatement_S in Hrun. bind_inv Hrun. some_inv Hrun.
  by destruct (parseStatementList_appends _ _ _ _ _ _ Hcall)
    as (body & Hn & Hbody); exists body.
Qed.

(** X7: when [parseStatementList] returns, the lookahead is the terminal
    it was given or the end of input, and the parent has only gained
    children at the end of its list, none of them a null pointer: empty
    statements and statements lost to an error leave no trace in the
    tree. *)
Theorem parseStatementList_result fuel (parent n : Node) ty (p p' : Parser) :
  parseStatementList fuel parent ty p = Some (n, p') →
  (currentType p' = ty ∨ currentType p' = END_OF_FILE) ∧
  ∃ body,
    n = Node.mk (Node.type parent) (Node.lineNumber parent)
          (Node.text parent) (Node.entry parent) (Node.value parent)
          (Node.children parent ++ body) ∧
    Forall is_Some body.
Proof.
  intros Hrun. split.
  - by eapply parseStatementList_lookahead.
  - by eapply parseStatementList_appends.
Qed.

(** X8: a compound statement that returns ended at END, which it consumed,
    or at the end of input, where it reports "Expecting END" once and
    discards nothing.  Its node is a COMPOUND node with the line of BEGIN
    whose children are the statements of the list, none of them null. *)
Theorem parseCompoundStatement_end fuel (p p' : Parser) (n : Node) :
  parseCompoundStatement (S fuel) p = Some (n, p') →
  ∃ body q,
    parseStatementList fuel
      (Node.setLineNumber (Token.lineNumber (Parser.currentToken p))
         (Node.new NodeType.COMPOUND)) END (nextToken p) = Some (n, q) ∧
    n = Node.mk NodeType.COMPOUND (Token.lineNumber (Parser.currentToken p))
          "" None NoValue body ∧
    Forall is_Some body ∧
    ((currentType q = END ∧ p' = nextToken q) ∨
     (currentType q = END_OF_FILE ∧
      p' = report SYNTAX_ERROR "Expecting END" q)).
Proof.
  intros Hrun.
  destruct (parseCompoundStatement_body _ _ _ _ Hrun) as (body & Hn & Hbody).
  rewrite parseCompoundStatement_S in Hrun. bind_inv Hrun.
  injection Hrun as <- <-.
  exists body, q. split; [done|]. split; [exact Hn|]. split; [done|].
  destruct (parseStatementList_lookahead _ _ _ _ _ _ Hcall) as [Hty|Hty].
  - left. by rewrite decide_True.
  - right. split; [done|].
    rewrite decide_False by (by rewrite Hty).
    apply syntaxError_stay. by rewrite Hty.
Qed.

(** ** Separators *)

Lemma followers_no_starters ty :
  statementFollowers ty = true → statementStarters ty = false.
Proof.
  intros Hf. apply statementFollowers_spec in Hf.
  rewrite !elem_of_cons, elem_of_nil in Hf.
  by destruct Hf as [->|[->|[->|[->|[->|[]]]]]].
Qed.

Lemma skipSemicolons_kept tok sc :
  Token.type (skipSemicolons tok sc).1 ≠ SEMICOLON.
Proof.
  revert tok. induction sc as [|tok' rest IH]; intros tok; simpl.
  - by destruct (decide (Token.type tok = SEMICOLON)).
  - destruct (decide (Token.type tok = SEMICOLON)); [apply IH|done].
Qed.

Lemma skipSemicolons_stop tok sc :
  Token.type tok ≠ SEMICOLON → skipSemicolons tok sc = (tok, sc).
Proof. intros Hne. destruct sc; simpl; by rewrite decide_False. Qed.

Lemma skipSemicolons_run (semis rest : list Token.t) tok :
  Token.type tok = SEMICOLON →
  Forall (fun tok => Token.type tok = SEMICOLON) semis →
  Token.type (hd Scanner.eofToken rest) ≠ SEMICOLON →
  skipSemicolons tok (semis ++ rest) = (hd Scanner.eofToken rest, tl rest).
Proof.
  intros Htok Hall Hstop. revert tok Htok.
  induction Hall as [|semi semis Hsemi Hall IH]; intros tok Htok.
  - destruct rest as [|stop rest]; simpl.
    + by rewrite decide_True.
    + rewrite decide_True by done. by apply skipSemicolons_stop.
  - simpl. rewrite decide_True by done. by apply IH.
Qed.

(** X9: the recovery of a syntax error never cascades into a missing
    separator.  When the lookahead is a statement follower, as it is after
    every [syntaxError], the separator step of [parseStatementList] reports
    nothing: it consumes the semicolons, if any, and leaves a lookahead
    that is no semicolon. *)
Theorem separator_after_recovery (p : Parser) :
  statementFollowers (currentType p) = true →
  Parser.errorCount (separator p) = Parser.errorCount p ∧
  Parser.output (separator p) = Parser.output p ∧
  currentType (separator p) ≠ SEMICOLON.
Proof.
  intros Hf. unfold separator.
  destruct (decide (currentType p = SEMICOLON)) as [Hsemi|Hsemi].
  - pose proof (skipSemicolons_kept (Parser.currentToken p)
                  (Parser.scanner p)) as Hkept.
    by destruct (skipSemicolons _ _) as [tok sc].
  - by rewrite (followers_no_starters _ Hf).
Qed.

(** X10: empty statements cost nothing.  A statement list that finds only
    semicolons before its terminal (or before the end of input) consumes
    them all, adopts no child and reports nothing. *)
Theorem parseStatementList_empty_statements
    (semis rest : list Token.t) fuel (parent : Node) ty (p : Parser) :
  Forall (fun tok => Token.type tok = SEMICOLON) semis →
  pending p (semis ++ rest) →
  ty ≠ SEMICOLON →
  Token.type (hd Scanner.eofToken rest) ∈ [ty; END_OF_FILE] →
  (2 ≤ fuel)%nat →
  ∃ p', parseStatementList fuel parent ty p = Some (parent, p') ∧
        pending p' rest ∧
        Parser.errorCount p' = Parser.errorCount p ∧
        Parser.output p' = Parser.output p.
Proof.
  intros Hsemis Hpend Hty Hstop Hfuel.
  assert (∀ q : Parser, pending q rest → inStatementList ty q = false)
    as Hout.
  { intros q Hq. unfold inStatementList.
    rewrite (pending_currentType _ _ Hq).
    rewrite !elem_of_cons, elem_of_nil in Hstop.
    destruct Hstop as [->|[->|[]]].
    - by rewrite bool_decide_eq_false_2 by (by intros Hne).
    - rewrite (bool_decide_eq_false_2 (END_OF_FILE ≠ END_OF_FILE))
        by (by intros Hne).
      apply andb_false_r. }
  destruct semis as [|semi semis].
  - exists p. by rewrite parseStatementList_exit by (by apply Hout).
  - apply Forall_cons in Hsemis as [Hsemi Hsemis].
    destruct (pending_cons _ _ _ Hpend) as (Hcur & Htok & _).
    rewrite Hsemi in Hcur.
    assert (inStatementList ty p = true) as Hin.
    { unfold inStatementList. rewrite Hcur.
      rewrite bool_decide_eq_true_2 by congruence.
      by rewrite bool_decide_eq_true_2. }
    destruct fuel as [|[|fuel]]; [lia..|].
    rewrite parseStatementList_S by done.
    rewrite parseStatement_S. cbv zeta.
    set (p0 := setLineNumber _ p).
    change (currentType p0) with (currentType p). rewrite Hcur.
    rewrite bind_Some. cbv beta iota. simpl fmap. rewrite bind_Some.
    cbv beta iota.
    assert (Token.type (hd Scanner.eofToken rest) ≠ SEMICOLON) as Hstop'.
    { rewrite !elem_of_cons, elem_of_nil in Hstop.
      destruct Hstop as [->|[->|[]]]; done. }
    destruct Hpend as [_ Hsc]. simpl in Hsc.
    unfold separator. change (currentType p0) with (currentType p).
    rewrite Hcur, decide_True by done.
    change (Parser.currentToken p0) with (Parser.currentToken p).
    change (Parser.scanner p0) with (Parser.scanner p).
    rewrite Htok, Hsc, (skipSemicolons_run semis rest semi) by done.
    eexists. rewrite parseStatementList_exit; [split; [reflexivity|]|].
    + done.
    + by apply Hout.
Qed.

(** ** Programs *)

Lemma reaches_parseProgram fuel (p p' : Parser) (n : Node) :
  parseProgram fuel p = Some (n, p') → reaches p p'.
Proof.
  unfold parseProgram. intros Hrun.
  set (p0 := nextToken p) in Hrun.
  set (p1 := if decide (currentType p0 = TokenType.PROGRAM) then _ else _)
    in Hrun.
  assert (reaches p p1) as H1.
  { clear Hrun. subst p1 p0. case_decide; peel. }
  assert (∀ (m : Node) (p2 : Parser),
            reaches p p2 →
            ('(compoundNode, p) ←
               parseCompoundStatement fuel
                 (let p := if decide (currentType p2 = SEMICOLON)
                           then nextToken p2
                           else syntaxError "Missing ;" p2 in
                  if decide (currentType p ≠ BEGIN)
                  then syntaxError "Expecting BEGIN" p else p);
             let programNode := Node.adopt (Some compoundNode) m in
             let p := if decide (currentType p = SEMICOLON)
                      then syntaxError "Expecting ." p else p in
             Some (programNode, p)) = Some (n, p') →
            reaches p p') as Hrest.
  { clear Hrun. intros m p2 H2 Hrun. cbv zeta in Hrun.
    bind_inv Hrun. some_inv Hrun.
    assert (reaches p q) as H3.
    { etrans; [|by eapply reaches_parseCompoundStatement].
      clear Hcall. repeat case_decide; peel. }
    clear Hcall. case_decide; peel. }
  destruct (decide (currentType p1 = IDENTIFIER)) as [Hid|Hid].
  - cbv zeta in Hrun.
    destruct (Symtab.enter (Token.text (Parser.currentToken p1))
                (Parser.symtab p1)) as [entry tab].
    eapply Hrest; [|exact Hrun]. peel.
    etrans; [exact H1|]. apply reaches_step, step_setSymtab.
  - eapply Hrest; [|exact Hrun]. peel.
Qed.

(** The error count moves with the number of lines printed. *)
Lemma reaches_accounting (p p' : Parser) :
  reaches p p' →
  Parser.errorCount p' - Z.of_nat (length (Parser.output p')) =
  Parser.errorCount p - Z.of_nat (length (Parser.output p)).
Proof.
  induction 1 as [|p q r Hstep _ IH]; [done|].
  rewrite IH. destruct Hstep;
    rewrite ?nextToken_errorCount, ?nextToken_output; try done.
  simpl. rewrite length_app. simpl. lia.
Qed.

(** X11: the accounts of [parseProgram] balance.  Every error counted has
    printed exactly one line, so for a new parser the error count answered
    is the number of lines printed; lines are only added, the count never
    decreases, and the scanner is only ever asked for more tokens. *)
Theorem parseProgram_accounting fuel (p p' : Parser) (n : Node) :
  parseProgram fuel p = Some (n, p') →
  Parser.errorCount p' - Parser.errorCount p =
    Z.of_nat (length (Parser.output p')) -
    Z.of_nat (length (Parser.output p)) ∧
  Parser.errorCount p ≤ Parser.errorCount p' ∧
  Parser.output p `prefix_of` Parser.output p' ∧
  Parser.scanner p' `suffix_of` Parser.scanner p.
Proof.
  intros Hrun. apply reaches_parseProgram in Hrun.
  pose proof (reaches_accounting _ _ Hrun).
  split; [lia|]. split; [by apply reaches_errorCount|].
  split; [by apply reaches_output|by apply reaches_scanner].
Qed.

(** X12: whenever [parseProgram] returns, the tree is a PROGRAM node with
    exactly one child, a COMPOUND node whose children are all statements.
    The text of the root is the text of the second token when the first
    token is PROGRAM and the second an identifier, and empty otherwise:
    after "Expecting PROGRAM" the recovery leaves a statement follower,
    which is no identifier. *)
Theorem parseProgram_tree fuel (p p' : Parser) (n : Node) :
  parseProgram fuel p = Some (n, p') →
  let p2 := nextToken (nextToken p) in
  let text :=
    if decide (currentType (nextToken p) = TokenType.PROGRAM ∧
               currentType p2 = IDENTIFIER)
    then Token.text (Parser.currentToken p2) else "" in
  ∃ line body,
    n = Node.mk NodeType.PROGRAM 0 text None NoValue
          [Some (Node.mk NodeType.COMPOUND line "" None NoValue body)] ∧
    Forall is_Some body.
Proof.
  intros Hrun. cbv zeta.
  unfold parseProgram in Hrun.
  destruct (decide (currentType (nextToken p) = TokenType.PROGRAM))
    as [Hprogram|Hprogram].
  - destruct (decide (currentType (nextToken (nextToken p)) = IDENTIFIER))
      as [Hid|Hid].
    + rewrite decide_True by done. cbv zeta in Hrun.
      destruct (Symtab.enter
                  (Token.text (Parser.currentToken (nextToken (nextToken p))))
                  (Parser.symtab (nextToken (nextToken p))))
        as [entry tab].
      bind_inv Hrun. some_inv Hrun.
      destruct (parseCompoundStatement_body _ _ _ _ Hcall)
        as (body & -> & Hbody).
      by eexists _, body.
    + rewrite decide_False by tauto.
      bind_inv Hrun. some_inv Hrun.
      destruct (parseCompoundStatement_body _ _ _ _ Hcall)
        as (body & -> & Hbody).
      by eexists _, body.
  - rewrite decide_False by tauto.
    set (p1 := syntaxError "Expecting PROGRAM" (nextToken p)) in Hrun.
    assert (currentType p1 ≠ IDENTIFIER) as Hid.
    { pose proof (syntaxError_follower "Expecting PROGRAM" (nextToken p))
        as Hf. fold p1 in Hf. intros Heq. by rewrite Heq in Hf. }
    rewrite (decide_False (P := currentType p1 = IDENTIFIER)) in Hrun
      by done.
    bind_inv Hrun. some_inv Hrun.
    destruct (parseCompoundStatement_body _ _ _ _ Hcall)
      as (body & -> & Hbody).
    by eexists _, body.
Qed.

(** A token sequence without a statement follower is skipped to its end. *)
Lemma skipToFollower_all (tok : Token.t) (sc : Scanner.t) :
  Forall (λ tok, statementFollowers (Token.type tok) = false) (tok :: sc) →
  skipToFollower tok sc = (Scanner.eofToken, []).
Proof.
  revert tok. induction sc as [|tok' rest IH]; intros tok Hall;
    apply Forall_cons in Hall as [Htok Hall]; simpl; rewrite Htok; [done|].
  by apply IH.
Qed.

Lemma syntaxError_all msg (p : Parser) :
  Forall (λ tok, statementFollowers (Token.type tok) = false) (stream p) →
  syntaxError msg p =
  let q := report SYNTAX_ERROR msg p in
  Parser.mk [] (Parser.symtab q) Scanner.eofToken (Parser.lineNumber q)
    (Parser.errorCount q) (Parser.output q).
Proof.
  intros Hall. unfold syntaxError. simpl.
  by rewrite (skipToFollower_all _ _ Hall).
Qed.

(** X13: a file that does not begin with PROGRAM and in which no token is
    a statement follower (no semicolon, END, UNTIL, ...), the empty file
    included, is swallowed whole by the first error.  [parseProgram] still
    returns a tree, PROGRAM over an empty COMPOUND, after exactly five
    syntax errors in this order, and nothing is entered in the symbol
    table. *)
Theorem parseProgram_no_follower fuel (sc : Scanner.t) (tab : T) :
  Forall (λ tok, statementFollowers (Token.type tok) = false) sc →
  (∀ tok, head sc = Some tok → Token.type tok ≠ TokenType.PROGRAM) →
  ∃ p',
    parseProgram (S fuel) (Parser.new sc tab) =
      Some (Node.mk NodeType.PROGRAM 0 "" None NoValue
              [Some (Node.mk NodeType.COMPOUND 0 "" None NoValue [])], p') ∧
    Parser.errorCount p' = 5 ∧
    message <$> Parser.output p' =
      ["Expecting PROGRAM"; "Expecting program name"; "Missing ;";
       "Expecting BEGIN"; "Expecting END"] ∧
    Parser.symtab p' = tab ∧
    stream p' = [Scanner.eofToken].
Proof.
  intros Hall Hhead. unfold parseProgram.
  destruct sc as [|tok rest].
  - eexists. split; [|].
    + destruct fuel; vm_compute; reflexivity.
    + by repeat split.
  - assert (currentType (nextToken (Parser.new (tok :: rest) tab))
            ≠ TokenType.PROGRAM) as Hne by (by apply Hhead).
    destruct (decide (currentType (nextToken (Parser.new (tok :: rest) tab))
                      = TokenType.PROGRAM)) as [|_]; [done|].
    rewrite (syntaxError_all "Expecting PROGRAM"
               (nextToken (Parser.new (tok :: rest) tab))) by exact Hall.
    eexists. split; [|].
    + destruct fuel; vm_compute; reflexivity.
    + by repeat split.
Qed.

(** ** The tables, whatever they held *)

Lemma elem_of_insert (x y : TokenType.t) s :
  y ∈ Tables.insert x s ↔ y = x ∨ y ∈ s.
Proof.
  unfold Tables.insert. case_bool_decide as Hin.
  - split; [by right|]. by intros [->|].
  - rewrite elem_of_app, list_elem_of_singleton. tauto.
Qed.

Lemma elem_of_insertAll xs :
  ∀ s (y : TokenType.t), y ∈ Tables.insertAll xs s ↔ y ∈ xs ∨ y ∈ s.
Proof.
  unfold Tables.insertAll.
  induction xs as [|x xs IH]; intros s y; simpl.
  - rewrite elem_of_nil. tauto.
  - rewrite IH, elem_of_insert, elem_of_cons. tauto.
Qed.

Lemma insertAll_present xs :
  ∀ s, (∀ x, x ∈ xs → x ∈ s) → Tables.insertAll xs s = s.
Proof.
  unfold Tables.insertAll.
  induction xs as [|x xs IH]; intros s Hin; simpl; [done|].
  assert (Tables.insert x s = s) as ->.
  { unfold Tables.insert. rewrite bool_decide_eq_true_2; [done|].
    apply Hin. by left. }
  apply IH. intros y Hy. apply Hin. by right.
Qed.

(** X14: [initialize] may run any number of times, whatever the static
    sets held before: a second run changes nothing, because an insertion
    leaves a set that holds the element as it is.  The sets only grow, by
    the tokens listed. *)
Theorem initialize_twice (tb : Tables.t) :
  initialize (initialize tb) = initialize tb ∧
  ∀ ty,
    (ty ∈ Tables.statementStarters (initialize tb) ↔
     ty ∈ [BEGIN; IDENTIFIER; REPEAT; WHILE; WRITE; WRITELN] ∨
     ty ∈ Tables.statementStarters tb) ∧
    (ty ∈ Tables.statementFollowers (initialize tb) ↔
     ty ∈ [SEMICOLON; END; UNTIL; END_OF_FILE; DO] ∨
     ty ∈ Tables.statementFollowers tb).
Proof.
  split.
  - unfold initialize.
    f_equal; apply insertAll_present; intros x Hx;
      apply elem_of_insertAll; by left.
  - intros ty. split; apply elem_of_insertAll.
Qed.

(** ** Expressions, once more *)

(** X15: [parseExpression] returns on every input: four calls a token
    left to read, and four more, are enough.  More calls give the same
    answer, and the answer never holds more tokens to read than there
    were. *)
Theorem parseExpression_total fuel fuel' (p : Parser) :
  (4 * weight p + 4 ≤ fuel)%nat → (fuel ≤ fuel')%nat →
  ∃ n p',
    parseExpression fuel p = Some (n, p') ∧
    parseExpression fuel' p = Some (n, p') ∧
    (weight p' ≤ weight p)%nat.
Proof.
  intros Hfuel Hle.
  destruct (parseExpression_returns fuel p Hfuel) as [[n p'] Hrun].
  exists n, p'. split; [done|].
  split; [by apply (fuel_parseExpression fuel)|].
  by eapply reaches_weight, reaches_parseExpression.
Qed.

Lemma parseExpression_symtab fuel (p p' : Parser) (n : option Node) :
  parseExpression fuel p = Some (n, p') →
  Parser.symtab p' = Parser.symtab p.
Proof.
  intros Hrun.
  set (R := fun q q' : Parser => Parser.symtab q' = Parser.symtab q).
  assert (PreOrder R) as HR.
  { split; [done|]. intros q1 q2 q3 H1 H2. unfold R in *. congruence. }
  destruct (kept_expressions R (fun _ => True) HR
              (fun q _ => nextToken_symtab q)
              (fun ch msg q => eq_refl)
              (fun msg q => syntaxError_symtab msg q) I
              (fun _ _ _ _ _ => I) (fun _ _ _ _ _ _ => I) fuel)
    as (Hexpr & _).
  by destruct (Hexpr _ _ _ Hrun) as [Hkept _].
Qed.

(** ** Assignments *)

(** X16: an assignment declares its target.  Provided the symbol table
    finds under the lower-case name what it has just entered under the
    name, the table after the statement answers, for the target, exactly
    the entry the VARIABLE node of the left-hand side refers to: a later
    use of the name is never undeclared, whatever the right-hand side
    was. *)
Theorem parseAssignmentStatement_declares fuel (p p' : Parser) (n : Node) :
  let name := Token.text (Parser.currentToken p) in
  Symtab.lookup (toLowerCase name)
    (Symtab.enter name (Parser.symtab p)).2 =
    Some (Symtab.enter name (Parser.symtab p)).1 →
  parseAssignmentStatement fuel p = Some (n, p') →
  ∃ (entry : E) (rhs : option Node),
    n = Node.mk NodeType.ASSIGN 0 "" None NoValue
          [Some (Node.mk NodeType.VARIABLE 0 name (Some entry) NoValue []);
           rhs] ∧
    Symtab.lookup (toLowerCase name) (Parser.symtab p') = Some entry.
Proof.
  intros name Hfind Hrun. unfold parseAssignmentStatement in Hrun.
  fold name in Hrun.
  destruct (Symtab.lookup (toLowerCase name) (Parser.symtab p))
    as [entry|] eqn:Hlook.
  - bind_inv Hrun. some_inv Hrun. exists entry, n0. split; [done|].
    apply parseExpression_symtab in Hcall. rewrite Hcall.
    case_decide;
      by rewrite ?nextToken_symtab, ?syntaxError_symtab, ?nextToken_symtab.
  - destruct (Symtab.enter name (Parser.symtab p)) as [entry tab] eqn:Henter.
    bind_inv Hrun. some_inv Hrun. exists entry, n0. split; [done|].
    apply parseExpression_symtab in Hcall. rewrite Hcall.
    case_decide;
      by rewrite ?nextToken_symtab, ?syntaxError_symtab, ?nextToken_symtab.
Qed.

(** ** WRITE *)

(** X17: one mistake in a WRITE statement is reported three times, and
    four times when the left parenthesis is missing.  When no argument
    starts where one is expected, [parseWriteArguments] reports the
    argument, recovers to a statement follower, and then misses the right
    parenthesis there; [parseWriteStatement] finds the node without a
    child and reports once more.  The node answered is a WRITE node
    without children. *)
Theorem parseWriteStatement_cascade (p : Parser) :
  let q := nextToken p in
  let r := if decide (currentType q = LPAREN) then nextToken q
           else syntaxError "Missing left parenthesis" q in
  (currentType q = LPAREN →
   currentType (nextToken q) ∉ [IDENTIFIER; CHARACTER; STRING]) →
  parseWriteStatement p =
    (Node.new NodeType.WRITE,
     report SYNTAX_ERROR "Invalid WRITE statement"
       (report SYNTAX_ERROR "Missing right parenthesis"
          (syntaxError "Invalid WRITE or WRITELN statement" r))) ∧
  Parser.errorCount (parseWriteStatement p).2 =
    Parser.errorCount p +
    (if decide (currentType q = LPAREN) then 3 else 4).
Proof.
  intros q r Harg.
  assert (currentType r ∉ [IDENTIFIER; CHARACTER; STRING]) as Hr.
  { subst r. destruct (decide (currentType q = LPAREN)) as [Hq|Hq];
      [by apply Harg|].
    pose proof (syntaxError_follower "Missing left parenthesis" q) as Hf.
    apply statementFollowers_spec in Hf.
    intros Hin. revert Hf.
    destruct (currentType (syntaxError "Missing left parenthesis" q));
      rewrite !elem_of_cons, !elem_of_nil in *;
      intuition discriminate. }
  rewrite !not_elem_of_cons in Hr. destruct Hr as (Hid & Hch & Hstr & _).
  set (r1 := syntaxError "Invalid WRITE or WRITELN statement" r).
  assert (statementFollowers (currentType r1) = true) as Hf
    by apply syntaxError_follower.
  assert (currentType r1 ≠ RPAREN) as Hrp.
  { intros Heq. rewrite Heq in Hf. done. }
  assert (parseWriteStatement p =
          (Node.new NodeType.WRITE,
           report SYNTAX_ERROR "Invalid WRITE statement"
             (report SYNTAX_ERROR "Missing right parenthesis" r1)))
    as Hrun.
  { unfold parseWriteStatement, parseWriteArguments. fold q. fold r.
    rewrite (decide_False (P := currentType r = IDENTIFIER)) by done.
    rewrite (bool_decide_eq_false_2 (currentType r = CHARACTER)) by done.
    rewrite (bool_decide_eq_false_2 (currentType r = STRING)) by done.
    simpl. fold r1.
    rewrite (decide_False (P := currentType r1 = RPAREN)) by done.
    rewrite (syntaxError_stay "Missing right parenthesis") by done.
    rewrite (syntaxError_stay "Invalid WRITE statement") by done.
    reflexivity. }
  split; [exact Hrun|].
  rewrite Hrun. simpl. subst r1. rewrite syntaxError_errorCount.
  subst r. case_decide.
  - subst q. rewrite !nextToken_errorCount. lia.
  - subst q. rewrite syntaxError_errorCount, nextToken_errorCount. lia.
Qed.

(** ** Loops *)

(** [parseStatement] answers a node exactly when a statement starts at the
    lookahead. *)
Lemma parseStatement_node fuel (p p' : Parser) (n : option Node) :
  parseStatement fuel p = Some (n, p') →
  (n = None ↔ statementStarters (currentType p) = false).
Proof.
  intros Hrun. destruct fuel as [|fuel]; [done|].
  rewrite parseStatement_S in Hrun. cbv zeta in Hrun. bind_inv Hrun.
  injection Hrun as <- <-.
  change (currentType (setLineNumber
            (Token.lineNumber (Parser.currentToken p)) p))
    with (currentType p) in Hcall.
  destruct (currentType p) eqn:Hty;
    first [ (bind_inv Hcall; injection Hcall as <- <-; by split)
          | (unfold nonNull in Hcall; injection Hcall as <- <-; by split)
          | (injection Hcall as <- <-; by split) ].
Qed.

(** X18: a REPEAT statement that returns ended its list at UNTIL or at
    the end of input.  At the end of input it reports "Expecting UNTIL"
    once, discards nothing, and answers a LOOP node without a TEST child:
    its children are the statements of the body, none of them null.  At
    UNTIL the TEST node, with the line of UNTIL, is the last child. *)
Theorem parseRepeatStatement_end fuel (p p' : Parser) (n : Node) :
  parseRepeatStatement (S fuel) p = Some (n, p') →
  ∃ body q,
    parseStatementList fuel (Node.new NodeType.LOOP) UNTIL (nextToken p) =
      Some (Node.mk NodeType.LOOP 0 "" None NoValue body, q) ∧
    Forall is_Some body ∧
    ((currentType q = UNTIL ∧
      ∃ e, parseExpression fuel (afterUntil q) = Some (e, p') ∧
           n = Node.mk NodeType.LOOP 0 "" None NoValue
                 (body ++
                  [Some (Node.mk NodeType.TEST
                           (Token.lineNumber (Parser.currentToken q))
                           "" None NoValue [e])])) ∨
     (currentType q = END_OF_FILE ∧
      n = Node.mk NodeType.LOOP 0 "" None NoValue body ∧
      p' = report SYNTAX_ERROR "Expecting UNTIL" q)).
Proof.
  intros Hrun. rewrite parseRepeatStatement_S in Hrun. bind_inv Hrun.
  destruct (parseStatementList_appends _ _ _ _ _ _ Hcall)
    as (body & -> & Hbody).
  exists body, q. split; [done|]. split; [done|].
  destruct (parseStatementList_lookahead _ _ _ _ _ _ Hcall) as [Hty|Hty].
  - left. split; [done|]. rewrite decide_True in Hrun by done.
    bind_inv Hrun. some_inv Hrun. by eexists.
  - right. split; [done|].
    rewrite decide_False in Hrun by (by rewrite Hty). some_inv Hrun.
    split; [done|]. apply syntaxError_stay. by rewrite Hty.
Qed.

(** X19: the body of a WHILE loop may be a null pointer.  Whenever
    [parseWhileStatement] returns, the first child of the LOOP node is
    TEST over NOT over the condition; without DO there is no second child
    and "Expecting DO" is reported; with DO the second child is what
    [parseStatement] answered, which is a null pointer exactly when no
    statement starts after DO (as in [WHILE c DO ;]), unlike the children
    of a statement list, which are never null. *)
Theorem parseWhileStatement_body fuel (p p' : Parser) (n : Node) :
  parseWhileStatement (S fuel) p = Some (n, p') →
  ∃ cond q rest,
    parseExpression fuel (nextToken p) = Some (cond, q) ∧
    n = Node.mk NodeType.LOOP 0 "" None NoValue
          (Some (Node.mk NodeType.TEST 0 "" None NoValue
                   [Some (Node.mk NodeType.NOT 0 "" None NoValue [cond])])
           :: rest) ∧
    ((currentType q ≠ DO ∧ rest = [] ∧
      p' = syntaxError "Expecting DO" q) ∨
     (currentType q = DO ∧
      ∃ body, rest = [body] ∧
              parseStatement fuel (nextToken q) = Some (body, p') ∧
              (body = None ↔
               statementStarters (currentType (nextToken q)) = false))).
Proof.
  intros Hrun. rewrite parseWhileStatement_S in Hrun. bind_inv Hrun.
  cbv zeta in Hrun. case_decide as Hdo.
  - bind_inv Hrun. some_inv Hrun.
    eexists n0, q, [n1]. split; [done|]. split; [done|].
    right. split; [done|]. exists n1. split; [done|]. split; [done|].
    by eapply parseStatement_node.
  - some_inv Hrun. eexists n0, q, []. split; [done|]. split; [done|].
    by left.
Qed.

(** ** Stray followers *)

(** X20: a compound statement whose first token is UNTIL or DO, and a
    REPEAT statement whose first token is END or DO, never return,
    whatever the fuel: the token is a statement follower, so the recovery
    of "Unexpected token" discards nothing, and it neither separates
    statements nor ends the list. *)
Theorem parseStatement_stray_follower fuel (p : Parser) :
  (currentType p = BEGIN ∧ currentType (nextToken p) ∈ [UNTIL; DO]) ∨
  (currentType p = REPEAT ∧ currentType (nextToken p) ∈ [END; DO]) →
  parseStatement fuel p = None.
Proof.
  intros Hstray. destruct fuel as [|fuel]; [done|].
  rewrite parseStatement_S. cbv zeta.
  change (currentType (setLineNumber
            (Token.lineNumber (Parser.currentToken p)) p))
    with (currentType p).
  set (q := setLineNumber (Token.lineNumber (Parser.currentToken p)) p).
  assert (nextToken q = setLineNumber
            (Token.lineNumber (Parser.currentToken p)) (nextToken p)) as Hq.
  { subst q. unfold nextToken, setLineNumber. simpl.
    by destruct (Scanner.nextToken _). }
  assert (currentType (nextToken q) = currentType (nextToken p)) as Hty
    by (by rewrite Hq).
  destruct Hstray as [[-> Hin]|[-> Hin]].
  - rewrite parseCompoundStatement_stuck; [done| |]; rewrite Hty.
    + apply statementFollowers_spec.
      rewrite !elem_of_cons, elem_of_nil in *. tauto.
    + rewrite !not_elem_of_cons. rewrite !elem_of_cons, elem_of_nil in Hin.
      repeat split; try apply not_elem_of_nil;
        intros Heq; rewrite Heq in Hin; intuition discriminate.
  - destruct fuel as [|fuel]; [done|].
    rewrite parseRepeatStatement_S.
    rewrite parseStatementList_stuck; [done| |]; rewrite Hty.
    + apply statementFollowers_spec.
      rewrite !elem_of_cons, elem_of_nil in *. tauto.
    + rewrite !not_elem_of_cons. rewrite !elem_of_cons, elem_of_nil in Hin.
      repeat split; try apply not_elem_of_nil;
        intros Heq; rewrite Heq in Hin; intuition discriminate.
Qed.

(** ** Progress *)

Lemma weight_next (p : Parser) :
  currentType p ≠ END_OF_FILE → (weight (nextToken p) < weight p)%nat.
Proof.
  intros Hne. pose proof (weight_nextToken p) as Hw.
  rewrite decide_False in Hw by done. lia.
Qed.

Lemma weight_setSymtab tab (p : Parser) :
  weight (nextToken (setSymtab tab p)) = weight (nextToken p).
Proof.
  unfold weight, stream, nextToken, setSymtab. simpl.
  by destruct (Scanner.nextToken _).
Qed.

Lemma weight_setLineNumber ln (p : Parser) :
  weight (nextToken (setLineNumber ln p)) = weight (nextToken p).
Proof.
  unfold weight, stream, nextToken, setLineNumber. simpl.
  by destruct (Scanner.nextToken _).
Qed.

Lemma follower_sentinel ty :
  statementFollowers ty = false → ty ≠ END_OF_FILE.
Proof. by intros Hf ->. Qed.

Lemma weight_cons tok sc :
  length (filter (fun tok => Token.type tok ≠ END_OF_FILE) (tok :: sc)) =
  ((if decide (Token.type tok = END_OF_FILE) then 0 else 1) +
   length (filter (fun tok => Token.type tok ≠ END_OF_FILE) sc))%nat.
Proof.
  rewrite filter_cons.
  destruct (decide (Token.type tok ≠ END_OF_FILE)) as [Hne|Hne];
    destruct (decide (Token.type tok = END_OF_FILE)) as [Heq|Heq];
    simpl; try done; by destruct Hne.
Qed.

(** Skipping from a token that is no follower discards it. *)
Lemma weight_skipToFollower tok sc :
  statementFollowers (Token.type tok) = false →
  (length (filter (fun tok => Token.type tok ≠ END_OF_FILE)
             ((skipToFollower tok sc).1 :: (skipToFollower tok sc).2)) <
   length (filter (fun tok => Token.type tok ≠ END_OF_FILE) (tok :: sc)))%nat.
Proof.
  revert tok. induction sc as [|tok' rest IH]; intros tok Hf;
    simpl skipToFollower; rewrite Hf;
    rewrite (weight_cons tok),
      (decide_False (P := Token.type tok = END_OF_FILE))
      by (by apply follower_sentinel).
  - cbn [Scanner.nextToken fst snd]. rewrite weight_cons.
    rewrite decide_True by done. simpl. lia.
  - destruct (statementFollowers (Token.type tok')) eqn:Hf'.
    + assert (skipToFollower tok' rest = (tok', rest)) as ->; [|simpl; lia].
      destruct rest; simpl; by rewrite Hf'.
    + specialize (IH tok' Hf'). lia.
Qed.

Lemma weight_syntaxError msg (p : Parser) :
  statementFollowers (currentType p) = false →
  (weight (syntaxError msg p) < weight p)%nat.
Proof.
  intros Hf. unfold syntaxError, weight, stream.
  pose proof (weight_skipToFollower
                (Parser.currentToken (report SYNTAX_ERROR msg p))
                (Parser.scanner (report SYNTAX_ERROR msg p)) Hf) as Hskip.
  by destruct (skipToFollower _ _) as [tok sc].
Qed.

(** Skipping semicolons from a semicolon discards it. *)
Lemma weight_skipSemicolons tok sc :
  Token.type tok = SEMICOLON →
  (length (filter (fun tok => Token.type tok ≠ END_OF_FILE)
             ((skipSemicolons tok sc).1 :: (skipSemicolons tok sc).2)) <
   length (filter (fun tok => Token.type tok ≠ END_OF_FILE) (tok :: sc)))%nat.
Proof.
  revert tok. induction sc as [|tok' rest IH]; intros tok Hsemi;
    simpl skipSemicolons; rewrite decide_True by done;
    rewrite (weight_cons tok),
      (decide_False (P := Token.type tok = END_OF_FILE))
      by (by rewrite Hsemi).
  - cbn [Scanner.nextToken fst snd]. rewrite weight_cons.
    rewrite decide_True by done. simpl. lia.
  - destruct (decide (Token.type tok' = SEMICOLON)) as [Hsemi'|Hsemi'].
    + specialize (IH tok' Hsemi'). lia.
    + rewrite skipSemicolons_stop by done. simpl. lia.
Qed.

Lemma weight_separator (p : Parser) :
  currentType p = SEMICOLON → (weight (separator p) < weight p)%nat.
Proof.
  intros Hsemi. unfold separator. rewrite decide_True by done.
  unfold weight, stream.
  pose proof (weight_skipSemicolons (Parser.currentToken p)
                (Parser.scanner p) Hsemi) as Hskip.
  by destruct (skipSemicolons _ _) as [tok sc].
Qed.

Lemma weight_parseWriteArguments (node : Node) (p : Parser) :
  (weight (parseWriteArguments node p).2 ≤ weight p)%nat.
Proof. apply reaches_weight, reaches_parseWriteArguments. Qed.

Ltac weigh :=
  repeat match goal with
  | H : parseExpression _ _ = Some _ |- _ =>
    apply reaches_parseExpression, reaches_weight in H
  | H : parseStatementList _ _ _ _ = Some _ |- _ =>
    apply reaches_parseStatementList, reaches_weight in H
  | H : parseStatement _ _ = Some _ |- _ =>
    apply reaches_parseStatement, reaches_weight in H
  end.

Ltac bound_at q :=
  lazymatch goal with
  | _ : (weight (nextToken q) ≤ weight q)%nat |- _ => fail
  | _ => pose proof (reaches_weight _ _ (reaches_nextToken q))
  end.

Ltac bound_error msg q :=
  lazymatch goal with
  | _ : (weight (syntaxError msg q) ≤ weight q)%nat |- _ => fail
  | _ => pose proof (reaches_weight _ _ (reaches_syntaxError msg q))
  end.

Ltac bound :=
  repeat match goal with
  | |- context [weight (nextToken ?q)] => bound_at q
  | _ : context [weight (nextToken ?q)] |- _ => bound_at q
  | |- context [weight (syntaxError ?msg ?q)] => bound_error msg q
  | _ : context [weight (syntaxError ?msg ?q)] |- _ => bound_error msg q
  end.

Ltac split_decide :=
  match goal with
  | |- context [decide ?P] => destruct (decide P)
  end.

(** A statement that does not start at a statement follower consumes its
    first token. *)
Lemma parseStatement_consumes fuel (p p' : Parser) (n : option Node) :
  parseStatement fuel p = Some (n, p') →
  statementFollowers (currentType p) = false →
  (weight p' < weight p)%nat.
Proof.
  intros Hrun Hf. pose proof (follower_sentinel _ Hf) as Hne.
  pose proof (weight_next p Hne) as Hnext.
  destruct fuel as [|fuel]; [done|].
  rewrite parseStatement_S in Hrun. cbv zeta in Hrun. bind_inv Hrun.
  injection Hrun as _ <-.
  change (currentType (setLineNumber
            (Token.lineNumber (Parser.currentToken p)) p))
    with (currentType p) in Hcall.
  set (ln := Token.lineNumber (Parser.currentToken p)) in *.
  assert (weight (syntaxError "Unexpected token" (setLineNumber ln p)) <
          weight p)%nat as Hjunk.
  { change (weight p) with (weight (setLineNumber ln p)).
    by apply weight_syntaxError. }
  pose proof (weight_setLineNumber ln p) as Hln.
  destruct (currentType p) eqn:Hty; try done;
    try (injection Hcall as _ <-; exact Hjunk).
  - (* BEGIN *)
    bind_inv Hcall. injection Hcall as _ <-.
    destruct fuel as [|fuel]; [done|].
    rewrite parseCompoundStatement_S in Hcall0. bind_inv Hcall0.
    injection Hcall0 as _ <-. weigh. split_decide; bound; lia.
  - (* REPEAT *)
    bind_inv Hcall. injection Hcall as _ <-.
    destruct fuel as [|fuel]; [done|].
    rewrite parseRepeatStatement_S in Hcall0. bind_inv Hcall0.
    case_decide.
    + bind_inv Hcall0. injection Hcall0 as _ <-. weigh.
      unfold afterUntil in *. rewrite weight_setLineNumber in *.
      bound. lia.
    + injection Hcall0 as _ <-. weigh. bound. lia.
  - (* WRITE *)
    unfold nonNull in Hcall. injection Hcall as _ <-.
    unfold parseWriteStatement.
    pose proof (weight_parseWriteArguments (Node.new NodeType.WRITE)
                  (nextToken (setLineNumber ln p))) as Hargs.
    destruct (parseWriteArguments _ _) as [writeNode p1]. simpl in *.
    split_decide; bound; lia.
  - (* WRITELN *)
    unfold nonNull in Hcall. injection Hcall as _ <-.
    unfold parseWritelnStatement. split_decide; simpl; [|lia].
    pose proof (weight_parseWriteArguments (Node.new NodeType.WRITELN)
                  (nextToken (setLineNumber ln p))). lia.
  - (* WHILE *)
    bind_inv Hcall. injection Hcall as _ <-.
    destruct fuel as [|fuel]; [done|].
    rewrite parseWhileStatement_S in Hcall0. bind_inv Hcall0.
    cbv zeta in Hcall0. case_decide.
    + bind_inv Hcall0. injection Hcall0 as _ <-. weigh. bound. lia.
    + injection Hcall0 as _ <-. weigh. bound. lia.
  - (* IDENTIFIER *)
    bind_inv Hcall. injection Hcall as _ <-.
    unfold parseAssignmentStatement in Hcall0.
    destruct (Symtab.lookup _ _).
    + bind_inv Hcall0. injection Hcall0 as _ <-. weigh.
      revert Hcall. split_decide; intros; bound; lia.
    + destruct (Symtab.enter _ _) as [entry tab].
      bind_inv Hcall0. injection Hcall0 as _ <-. weigh.
      pose proof (weight_setSymtab tab (setLineNumber ln p)).
      revert Hcall. split_decide; intros; bound; lia.
Qed.

(** From a statement follower it consumes nothing and answers a null
    pointer. *)
Lemma parseStatement_stays fuel (p p' : Parser) (n : option Node) :
  parseStatement fuel p = Some (n, p') →
  statementFollowers (currentType p) = true →
  stream p' = stream p ∧ n = None.
Proof.
  intros Hrun Hf. destruct fuel as [|fuel]; [done|].
  rewrite parseStatement_S in Hrun. cbv zeta in Hrun. bind_inv Hrun.
  injection Hrun as <- <-.
  change (currentType (setLineNumber
            (Token.lineNumber (Parser.currentToken p)) p))
    with (currentType p) in Hcall.
  apply statementFollowers_spec in Hf.
  rewrite !elem_of_cons, elem_of_nil in Hf.
  destruct Hf as [Hty|[Hty|[Hty|[Hty|[Hty|[]]]]]]; rewrite Hty in Hcall;
    injection Hcall as <- <-; try done;
    (rewrite syntaxError_stay; [done|]);
    change (currentType (setLineNumber
              (Token.lineNumber (Parser.currentToken p)) p))
      with (currentType p); by rewrite Hty.
Qed.

(** X21: [parseStatement] makes progress exactly where it can.  From a
    lookahead that is no statement follower it consumes at least one
    token; from a statement follower it consumes none, and answers a null
    pointer.  This is why a follower that neither separates statements nor
    ends the list stops [parseStatementList] for good. *)
Theorem parseStatement_progress fuel (p p' : Parser) (n : option Node) :
  parseStatement fuel p = Some (n, p') →
  (statementFollowers (currentType p) = false →
   (weight p' < weight p)%nat) ∧
  (statementFollowers (currentType p) = true →
   stream p' = stream p ∧ n = None).
Proof.
  intros Hrun. split.
  - by eapply parseStatement_consumes.
  - by eapply parseStatement_stays.
Qed.

(** ** Programs without REPEAT, UNTIL and DO *)

Lemma reaches_noLoopToken (p p' : Parser) :
  reaches p p' → noLoopToken p → noLoopToken p'.
Proof.
  intros Hreach Hno tok Htok.
  destruct (reaches_stream _ _ Hreach tok Htok) as [Hin| ->].
  - by apply Hno.
  - rewrite !not_elem_of_cons. repeat split; try done. apply not_elem_of_nil.
Qed.

Lemma noLoopToken_currentType (p : Parser) :
  noLoopToken p →
  currentType p ≠ REPEAT ∧ currentType p ≠ UNTIL ∧ currentType p ≠ DO.
Proof.
  intros Hno.
  assert (currentType p ∉ [REPEAT; UNTIL; DO]) as Hty.
  { apply Hno. unfold stream. by apply elem_of_cons; left. }
  rewrite !not_elem_of_cons in Hty. tauto.
Qed.

Lemma weight_sentinel (p : Parser) :
  (weight p ≤ 0)%nat → currentType p = END_OF_FILE.
Proof.
  unfold weight, stream. rewrite weight_cons. unfold currentType.
  destruct (decide _); [done|lia].
Qed.

Lemma weight_stream (p p' : Parser) :
  stream p' = stream p → weight p' = weight p.
Proof. unfold weight. by intros ->. Qed.

(** An iteration of the list consumes a token unless the lookahead is a
    stray follower. *)
Lemma parseStatementList_progress fuel (p p' : Parser) (n : option Node) :
  noLoopToken p → inStatementList END p = true →
  parseStatement fuel p = Some (n, p') →
  (weight (separator p') < weight p)%nat.
Proof.
  intros Hno Hin Hrun.
  pose proof (reaches_weight _ _ (reaches_separator p')) as Hsep.
  destruct (statementFollowers (currentType p)) eqn:Hf.
  - destruct (parseStatement_stays _ _ _ _ Hrun Hf) as [Hstream _].
    assert (currentType p = SEMICOLON) as Hsemi.
    { apply noLoopToken_currentType in Hno.
      unfold inStatementList in Hin.
      apply andb_true_iff in Hin as [Hend Heof].
      apply bool_decide_eq_true in Hend, Heof.
      apply statementFollowers_spec in Hf.
      rewrite !elem_of_cons, elem_of_nil in Hf. tauto. }
    assert (currentType p' = SEMICOLON) as Hsemi'.
    { unfold currentType in *. unfold stream in Hstream.
      by injection Hstream as -> _. }
    pose proof (weight_separator p' Hsemi').
    rewrite (weight_stream _ _ Hstream) in *. lia.
  - pose proof (parseStatement_consumes _ _ _ _ Hrun Hf). lia.
Qed.

Lemma statement_returns (w : nat) :
  (∀ p : Parser, (weight p ≤ w)%nat → noLoopToken p →
     ∀ parent, is_Some (parseStatementList (4 * w + 6) parent END p)) →
  ∀ p : Parser, (weight p ≤ S w)%nat → noLoopToken p →
    is_Some (parseStatement (4 * S w + 5) p).
Proof.
  intros Hlist p Hw Hno.
  replace (4 * S w + 5)%nat with (S (S (4 * w + 7))) by lia.
  rewrite parseStatement_S. cbv zeta.
  change (currentType (setLineNumber
            (Token.lineNumber (Parser.currentToken p)) p))
    with (currentType p).
  set (q := setLineNumber (Token.lineNumber (Parser.currentToken p)) p).
  assert (reaches p q) as Hq by apply reaches_step, step_setLineNumber.
  assert (weight q = weight p) as Hwq by reflexivity.
  assert (currentType p ≠ END_OF_FILE → weight (nextToken q) ≤ w)%nat
    as Hnext.
  { intros Hne. pose proof (weight_next p Hne).
    subst q. rewrite weight_setLineNumber. lia. }
  assert (noLoopToken (nextToken q)) as Hnoq.
  { eapply reaches_noLoopToken; [|exact Hno].
    etrans; [exact Hq|apply reaches_nextToken]. }
  destruct (noLoopToken_currentType _ Hno) as (Hrepeat & _ & _).
  destruct (currentType p) eqn:Hty; try done; try (by eexists).
  - (* BEGIN *)
    rewrite parseCompoundStatement_S.
    destruct (Hlist (nextToken q) (Hnext ltac:(done)) Hnoq
                (Node.setLineNumber (Token.lineNumber (Parser.currentToken q))
                   (Node.new NodeType.COMPOUND))) as [[c q1] Hc].
    destruct (fuel_statements (4 * w + 6)) as (_ & _ & Hfuel & _).
    rewrite (Hfuel _ _ _ _ Hc (4 * w + 7)%nat) by lia.
    by eexists.
  - (* WHILE *)
    rewrite parseWhileStatement_S.
    destruct (parseExpression_returns (4 * w + 7) (nextToken q))
      as [[cond q1] Hcond].
    { specialize (Hnext ltac:(done)). lia. }
    rewrite Hcond. cbv zeta.
    assert (currentType q1 ≠ DO) as Hdo.
    { apply noLoopToken_currentType.
      eapply reaches_noLoopToken; [|exact Hnoq].
      by eapply reaches_parseExpression. }
    simpl. rewrite decide_False by done. by eexists.
  - (* IDENTIFIER *)
    destruct (parseAssignmentStatement_returns (S (4 * w + 7)) q)
      as [[a q1] Ha]; [lia|].
    rewrite Ha. by eexists.
Qed.

(** With [4 * w + 6] units of fuel every statement list ending at END,
    over a stream of weight [w] or less without REPEAT, UNTIL and DO,
    parses. *)
Lemma statementList_returns (w : nat) :
  ∀ p : Parser, (weight p ≤ w)%nat → noLoopToken p →
    ∀ parent, is_Some (parseStatementList (4 * w + 6) parent END p).
Proof.
  induction w as [|w IH]; intros p Hw Hno parent.
  - rewrite parseStatementList_exit; [by eexists|].
    unfold inStatementList. rewrite (weight_sentinel p Hw).
    rewrite (bool_decide_eq_false_2 (END_OF_FILE ≠ END_OF_FILE)) by tauto.
    apply andb_false_r.
  - destruct (inStatementList END p) eqn:Hin;
      [|rewrite parseStatementList_exit by done; by eexists].
    replace (4 * S w + 6)%nat with (S (4 * S w + 5)) by lia.
    rewrite parseStatementList_S by done.
    destruct (statement_returns w IH p Hw Hno) as [[n p1] Hstmt].
    rewrite Hstmt. unfold mbind, option_bind. cbv beta iota.
    pose proof (parseStatementList_progress _ _ _ _ Hno Hin Hstmt) as Hless.
    assert (noLoopToken (separator p1)) as Hno1.
    { eapply reaches_noLoopToken; [|exact Hno].
      etrans; [by eapply reaches_parseStatement|apply reaches_separator]. }
    destruct (fuel_statements (4 * w + 6)) as (_ & _ & Hfuel & _).
    destruct (IH (separator p1) ltac:(lia) Hno1
                (match n with
                 | Some _ => Node.adopt n parent
                 | None => parent
                 end)) as [r Hr].
    rewrite (Hfuel _ _ _ _ Hr (4 * S w + 5)%nat) by lia.
    by eexists.
Qed.

(** What [parseProgram] does before the compound statement is a sequence
    of elementary steps. *)
Lemma parseProgram_compound fuel (p : Parser) :
  ∃ q, reaches p q ∧
       (is_Some (parseCompoundStatement fuel q) →
        is_Some (parseProgram fuel p)).
Proof.
  unfold parseProgram.
  set (p1 := if decide (currentType (nextToken p) = TokenType.PROGRAM)
             then _ else _).
  assert (reaches p p1) as H1.
  { subst p1. split_decide; peel. }
  assert (∀ p2, reaches p p2 →
            reaches p
              (let p := if decide (currentType p2 = SEMICOLON)
                        then nextToken p2
                        else syntaxError "Missing ;" p2 in
               if decide (currentType p ≠ BEGIN)
               then syntaxError "Expecting BEGIN" p else p)) as Hrest.
  { intros p2 H2. cbv zeta. repeat split_decide; peel. }
  destruct (decide (currentType p1 = IDENTIFIER)) as [Hid|Hid].
  - cbv zeta.
    destruct (Symtab.enter (Token.text (Parser.currentToken p1))
                (Parser.symtab p1)) as [entry tab].
    eexists. split.
    + apply (Hrest (nextToken (setSymtab tab p1))). peel.
      etrans; [exact H1|]. apply reaches_step, step_setSymtab.
    + intros [[c q'] Hc]. cbv zeta in Hc. rewrite Hc. by eexists.
  - eexists. split.
    + apply (Hrest (syntaxError "Expecting program name" p1)). peel.
    + intros [[c q'] Hc]. cbv zeta in Hc. rewrite Hc. by eexists.
Qed.

(** X22: every token sequence without REPEAT, UNTIL and DO parses.
    Whatever the errors, [parseProgram] returns a PROGRAM tree once it may
    make four calls for each token left to read, and seven more: no token
    is left that could stop a statement list short of its END. *)
Theorem parseProgram_returns fuel (p : Parser) :
  noLoopToken p → (4 * weight p + 7 ≤ fuel)%nat →
  ∃ n p', parseProgram fuel p = Some (n, p') ∧
          Node.type n = NodeType.PROGRAM.
Proof.
  intros Hno Hfuel.
  destruct (parseProgram_compound fuel p) as (q & Hq & Hdone).
  destruct Hdone as [[n p'] Hrun].
  - destruct fuel as [|fuel]; [lia|].
    rewrite parseCompoundStatement_S.
    pose proof (reaches_weight _ _ Hq) as Hwq.
    pose proof (reaches_weight _ _ (reaches_nextToken q)) as Hwn.
    destruct (statementList_returns (weight p) (nextToken q)
                ltac:(lia)
                (reaches_noLoopToken _ _
                   (rtc_r _ _ _ Hq (step_nextToken q)) Hno)
                (Node.setLineNumber (Token.lineNumber (Parser.currentToken q))
                   (Node.new NodeType.COMPOUND))) as [[c q1] Hc].
    destruct (fuel_statements (4 * weight p + 6)) as (_ & _ & Hmore & _).
    rewrite (Hmore _ _ _ _ Hc fuel) by lia. by eexists.
  - exists n, p'. split; [done|]. by eapply parseProgram_root.
Qed.

(** ** Expressions that cannot start *)

Lemma followers_no_operators ty :
  statementFollowers ty = true →
  termOperators ty = false ∧ simpleExpressionOperators ty = false ∧
  relationalOperators ty = false.
Proof.
  intros Hf. apply statementFollowers_spec in Hf.
  rewrite !elem_of_cons, elem_of_nil in Hf.
  by destruct Hf as [->|[->|[->|[->|[->|[]]]]]].
Qed.

Lemma followers_no_factor ty :
  statementFollowers ty = true → ty ∉ [IDENTIFIER; INTEGER; REAL; LPAREN].
Proof.
  intros Hf. apply statementFollowers_spec in Hf.
  rewrite !elem_of_cons, elem_of_nil in Hf.
  rewrite !not_elem_of_cons.
  destruct Hf as [->|[->|[->|[->|[->|[]]]]]];
    repeat split; try done; apply not_elem_of_nil.
Qed.

(** Where no factor starts the whole expression is the error of
    [parseFactor]: after the recovery no operator is the lookahead. *)
Lemma parseExpression_unexpected fuel (p : Parser) :
  currentType p ∉ [IDENTIFIER; INTEGER; REAL; LPAREN] →
  parseExpression (S (S (S (S fuel)))) p =
    Some (None, syntaxError "Unexpected token" p).
Proof.
  intros Hty. rewrite !not_elem_of_cons in Hty.
  destruct Hty as (H1 & H2 & H3 & H4 & _).
  destruct (followers_no_operators _
              (syntaxError_follower "Unexpected token" p))
    as (Ht & Hs & Hr).
  rewrite parseExpression_S, parseSimpleExpression_S, parseTerm_S,
    parseFactor_S.
  rewrite !decide_False by done.
  rewrite bind_Some. cbv beta iota.
  rewrite termLoop_exit by done. rewrite bind_Some. cbv beta iota.
  rewrite simpleExpressionLoop_exit by done. rewrite bind_Some.
  cbv beta iota. by rewrite Hr.
Qed.

(** X23: an expression expected where none can start is a null pointer.
    When the lookahead is not an identifier, a number or a left
    parenthesis (a NOT, a sign, a statement follower, ...), [parseExpression]
    reports "Unexpected token" once, recovers to the next statement
    follower and returns a null pointer: there is no unary operator, and
    nothing after the offending token is parsed as part of the
    expression. *)
Theorem parseExpression_cannot_start fuel (p : Parser) :
  currentType p ∉ [IDENTIFIER; INTEGER; REAL; LPAREN] →
  (4 ≤ fuel)%nat →
  parseExpression fuel p = Some (None, syntaxError "Unexpected token" p) ∧
  Parser.errorCount (syntaxError "Unexpected token" p) =
    Parser.errorCount p + 1 ∧
  statementFollowers (currentType (syntaxError "Unexpected token" p)) = true.
Proof.
  intros Hty Hfuel. split.
  - destruct fuel as [|[|[|[|fuel]]]]; try lia.
    by apply parseExpression_unexpected.
  - split; [apply syntaxError_errorCount|apply syntaxError_follower].
Qed.

(** X24: a missing [:=] is reported twice.  When the token after the
    target is not [:=], [parseAssignmentStatement] reports "Missing :=" and
    recovers to a statement follower, where the expression cannot start and
    "Unexpected token" is reported as well; the ASSIGN node answered has
    the VARIABLE node of the target and a null pointer as its children. *)
Theorem parseAssignmentStatement_missing_assign fuel (p : Parser) :
  let name := Token.text (Parser.currentToken p) in
  currentType (nextToken p) ≠ COLON_EQUALS →
  (4 ≤ fuel)%nat →
  ∃ (entry : E) (p' : Parser),
    parseAssignmentStatement fuel p =
      Some (Node.mk NodeType.ASSIGN 0 "" None NoValue
              [Some (Node.mk NodeType.VARIABLE 0 name (Some entry)
                       NoValue []);
               None], p') ∧
    Parser.errorCount p' = Parser.errorCount p + 2 ∧
    message <$> Parser.output p' =
      (message <$> Parser.output p) ++ ["Missing :="; "Unexpected token"] ∧
    statementFollowers (currentType p') = true.
Proof.
  intros name Hassign Hfuel.
  destruct fuel as [|[|[|[|fuel]]]]; try lia.
  assert (∀ q : Parser,
            currentType (nextToken q) ≠ COLON_EQUALS →
            Parser.errorCount (nextToken q) = Parser.errorCount p →
            Parser.output (nextToken q) = Parser.output p →
            ∃ p',
              parseExpression (S (S (S (S fuel))))
                (if decide (currentType (nextToken q) = COLON_EQUALS)
                 then nextToken (nextToken q)
                 else syntaxError "Missing :=" (nextToken q)) =
                Some (None, p') ∧
              Parser.errorCount p' = Parser.errorCount p + 2 ∧
              message <$> Parser.output p' =
                (message <$> Parser.output p) ++
                ["Missing :="; "Unexpected token"] ∧
              statementFollowers (currentType p') = true) as Hrhs.
  { intros q Hq Hcount Hout. rewrite decide_False by done.
    set (r := syntaxError "Missing :=" (nextToken q)).
    assert (statementFollowers (currentType r) = true) as Hf
      by apply syntaxError_follower.
    exists (syntaxError "Unexpected token" r).
    split; [by apply parseExpression_unexpected, followers_no_factor|].
    split; [|split; [|apply syntaxError_follower]].
    - subst r. rewrite !syntaxError_errorCount, Hcount. lia.
    - subst r. rewrite !syntaxError_output, Hout, !fmap_app.
      by rewrite <- app_assoc. }
  unfold parseAssignmentStatement. fold name.
  destruct (Symtab.lookup (toLowerCase name) (Parser.symtab p))
    as [entry|].
  - destruct (Hrhs p Hassign (nextToken_errorCount p) (nextToken_output p))
      as (p' & Hrun & Hrest).
    exists entry, p'. split; [|exact Hrest]. by rewrite Hrun.
  - destruct (Symtab.enter name (Parser.symtab p)) as [entry tab].
    assert (nextToken (setSymtab tab p) =
            setSymtab tab (nextToken p)) as Hswap.
    { unfold nextToken, setSymtab. simpl.
      by destruct (Scanner.nextToken _). }
    destruct (Hrhs (setSymtab tab p)) as (p' & Hrun & Hrest).
    + by rewrite Hswap.
    + by rewrite nextToken_errorCount.
    + by rewrite nextToken_output.
    + exists entry, p'. split; [|exact Hrest]. by rewrite Hrun.
Qed.

(** ** Programs accepted without an error *)

(** X25: what a parse without errors means.  When [parseProgram] returns
    with the error count it started with, the input began PROGRAM,
    identifier, semicolon, BEGIN; the identifier is the text of the PROGRAM
    node and was entered in the symbol table; the statement list of the
    program ended at END, which was consumed, and the token after END is no
    semicolon.  Nothing is required of that token otherwise: the final
    period is never asked for. *)
Theorem parseProgram_accepted fuel (p p' : Parser) (n : Node) :
  parseProgram fuel p = Some (n, p') →
  Parser.errorCount p' = Parser.errorCount p →
  let p1 := nextToken p in
  let p2 := nextToken p1 in
  let name := Token.text (Parser.currentToken p2) in
  let p3 := nextToken
              (setSymtab (Symtab.enter name (Parser.symtab p2)).2 p2) in
  let p4 := nextToken p3 in
  currentType p1 = TokenType.PROGRAM ∧
  currentType p2 = IDENTIFIER ∧
  currentType p3 = SEMICOLON ∧
  currentType p4 = BEGIN ∧
  ∃ body q,
    parseStatementList (pred fuel)
      (Node.setLineNumber (Token.lineNumber (Parser.currentToken p4))
         (Node.new NodeType.COMPOUND)) END (nextToken p4) =
      Some (Node.mk NodeType.COMPOUND
              (Token.lineNumber (Parser.currentToken p4)) "" None NoValue
              body, q) ∧
    n = Node.mk NodeType.PROGRAM 0 name None NoValue
          [Some (Node.mk NodeType.COMPOUND
                   (Token.lineNumber (Parser.currentToken p4)) "" None
                   NoValue body)] ∧
    Forall is_Some body ∧
    currentType q = END ∧
    p' = nextToken q ∧
    currentType p' ≠ SEMICOLON.
Proof.
  intros Hrun Hok. cbv zeta.
  set (p1 := nextToken p). set (p2 := nextToken p1).
  set (name := Token.text (Parser.currentToken p2)).
  pose proof (reaches_errorCount _ _ (reaches_nextToken p)) as H1.
  fold p1 in H1.
  (* what follows the program name *)
  assert (∀ (m : Node) (r : Parser),
            Parser.errorCount p ≤ Parser.errorCount r →
            ('(compoundNode, q) ←
               parseCompoundStatement fuel
                 (let q := if decide (currentType r = SEMICOLON)
                           then nextToken r
                           else syntaxError "Missing ;" r in
                  if decide (currentType q ≠ BEGIN)
                  then syntaxError "Expecting BEGIN" q else q);
             let programNode := Node.adopt (Some compoundNode) m in
             let q := if decide (currentType q = SEMICOLON)
                      then syntaxError "Expecting ." q else q in
             Some (programNode, q)) = Some (n, p') →
            Parser.errorCount r = Parser.errorCount p ∧
            currentType r = SEMICOLON ∧
            currentType (nextToken r) = BEGIN ∧
            ∃ c, parseCompoundStatement fuel (nextToken r) = Some (c, p') ∧
                 n = Node.adopt (Some c) m ∧
                 currentType p' ≠ SEMICOLON) as Htail.
  { intros m r Hr Htail. cbv zeta in Htail. bind_inv Htail.
    pose proof (reaches_errorCount _ _
                  (reaches_parseCompoundStatement _ _ _ _ Hcall)) as Hc.
    assert (Parser.errorCount q ≤ Parser.errorCount p') as Hq.
    { injection Htail as _ <-. split_decide; [|lia].
      rewrite syntaxError_errorCount. lia. }
    destruct (decide (currentType r = SEMICOLON)) as [Hsemi|Hsemi];
      cbv beta iota in Hc, Hcall.
    - pose proof (nextToken_errorCount r) as Hn.
      destruct (decide (currentType (nextToken r) ≠ BEGIN))
        as [Hbegin|Hbegin]; cbv beta iota in Hc, Hcall;
        [rewrite syntaxError_errorCount in Hc; lia|].
      split; [lia|]. split; [done|].
      split; [by destruct (decide (currentType (nextToken r) = BEGIN))|].
      exists n0.
      destruct (decide (currentType q = SEMICOLON)) as [Hdot|Hdot].
      + injection Htail as _ <-. rewrite syntaxError_errorCount in Hok. lia.
      + by injection Htail as <- <-.
    - destruct (decide (currentType (syntaxError "Missing ;" r) ≠ BEGIN));
        cbv beta iota in Hc; rewrite !syntaxError_errorCount in Hc; lia. }
  unfold parseProgram in Hrun. fold p1 in Hrun.
  destruct (decide (currentType p1 = TokenType.PROGRAM)) as [Hprogram|Hprogram].
  - fold p2 in Hrun.
    pose proof (reaches_errorCount _ _ (reaches_nextToken p1)) as H2.
    fold p2 in H2.
    destruct (decide (currentType p2 = IDENTIFIER)) as [Hid|Hid].
    + cbv zeta in Hrun. fold name in Hrun.
      destruct (Symtab.enter name (Parser.symtab p2)) as [entry tab].
      cbn [snd].
      set (p3 := nextToken (setSymtab tab p2)) in *.
      assert (Parser.errorCount p3 = Parser.errorCount p2) as H3
        by (subst p3; by rewrite nextToken_errorCount).
      destruct (Htail _ p3 ltac:(lia) Hrun)
        as (_ & Hsemi & Hbegin & c & Hc & -> & Hdot).
      set (p4 := nextToken p3) in *.
      split; [done|]. split; [done|]. split; [done|]. split; [done|].
      destruct fuel as [|fuel]; [done|]. simpl pred.
      destruct (parseCompoundStatement_body _ _ _ _ Hc)
        as (body & -> & Hbody).
      rewrite parseCompoundStatement_S in Hc. bind_inv Hc.
      pose proof (reaches_errorCount _ _
                    (reaches_parseStatementList _ _ _ _ _ _ Hcall)) as Hl.
      rewrite nextToken_errorCount in Hl.
      pose proof (nextToken_errorCount p3) as H4. fold p4 in H4, Hl.
      destruct (decide (currentType q = END)) as [Hend|Hend].
      * injection Hc as -> <-. by exists body, q.
      * injection Hc as _ <-. rewrite syntaxError_errorCount in Hok. lia.
    + destruct (Htail _ (syntaxError "Expecting program name" p2)
                  ltac:(rewrite syntaxError_errorCount; lia) Hrun)
        as (Hcount & _).
      rewrite syntaxError_errorCount in Hcount. lia.
  - set (r := syntaxError "Expecting PROGRAM" p1) in Hrun.
    assert (Parser.errorCount p + 1 ≤ Parser.errorCount r) as Hr
      by (subst r; rewrite syntaxError_errorCount; lia).
    destruct (decide (currentType r = IDENTIFIER)).
    + cbv zeta in Hrun.
      destruct (Symtab.enter (Token.text (Parser.currentToken r))
                  (Parser.symtab r)) as [entry tab].
      destruct (Htail _ (nextToken (setSymtab tab r))
                  ltac:(rewrite nextToken_errorCount; simpl; lia) Hrun)
        as (Hcount & _).
      rewrite nextToken_errorCount in Hcount. simpl in Hcount. lia.
    + destruct (Htail _ (syntaxError "Expecting program name" r)
                  ltac:(rewrite syntaxError_errorCount; lia) Hrun)
        as (Hcount & _).
      rewrite syntaxError_errorCount in Hcount. lia.
Qed.

End Further.

(** * Examples of the further properties *)

(** ** Expressions *)

Lemma sumThenSemicolon_run :
  let p := start sumThenSemicolon (declared ["a"]) in
  ∃ p',
    parseExpression 24 p =
      Some (Some (binary NodeType.ADD (variable "a" (entryOf "a"))
                    (integer 1)), p') ∧
    Parser.currentToken p' = word SEMICOLON ";" ∧
    Parser.errorCount p' = Parser.errorCount p.
Proof. eexists. split; [vm_compute; reflexivity|]. by vm_compute. Qed.

(** [a + 1 ; b], through [parseExpression_stops_at_follower]: the
    expression ends before the semicolon. *)
Lemma parseExpression_stops_at_follower_witness :
  let p := start sumThenSemicolon (declared ["a"]) in
  ∃ n p', parseExpression 24 p = Some (n, p') ∧ consumes p p'.
Proof.
  destruct sumThenSemicolon_run as (p' & Hrun & _).
  eexists _, p'. split; [exact Hrun|].
  by destruct (parseExpression_stops_at_follower _ _ _ _ Hrun) as [Hc _].
Defined.

Lemma parseExpression_keeps_symtab_witness :
  let p := start sumThenSemicolon (declared ["a"]) in
  ∃ n p',
    parseExpression 24 p = Some (n, p') ∧
    Parser.symtab p' = Parser.symtab p ∧
    Parser.lineNumber p' = Parser.lineNumber p.
Proof.
  destruct sumThenSemicolon_run as (p' & Hrun & _).
  eexists _, p'. split; [exact Hrun|].
  exact (parseExpression_keeps_symtab _ _ _ _ Hrun).
Defined.

Lemma parseExpression_tree_witness :
  let p := start sumThenSemicolon (declared ["a"]) in
  ∃ n p', parseExpression 24 p = Some (n, p') ∧ expressionTreeOf n = true.
Proof.
  destruct sumThenSemicolon_run as (p' & Hrun & _).
  eexists _, p'. split; [exact Hrun|].
  exact (parseExpression_tree _ _ _ _ Hrun).
Defined.

Lemma parseExpression_null_after_error_witness :
  let p := start sumThenSemicolon (declared ["a"]) in
  ∃ n p', parseExpression 24 p = Some (n, p') ∧ is_Some n.
Proof.
  destruct sumThenSemicolon_run as (p' & Hrun & _ & Hok).
  eexists _, p'. split; [exact Hrun|].
  exact (parseExpression_null_after_error _ _ _ _ Hrun Hok).
Defined.

Lemma parseExpression_total_witness :
  let p := start sumThenSemicolon (declared ["a"]) in
  ∃ n p',
    parseExpression 24 p = Some (n, p') ∧
    parseExpression 30 p = Some (n, p') ∧
    (weight p' ≤ weight p)%nat.
Proof.
  apply (parseExpression_total 24 30
           (start sumThenSemicolon (declared ["a"]))).
  - vm_compute. lia.
  - lia.
Defined.

(** ** Statements *)

Lemma emptyStatement_run :
  ∃ p', parseStatement 1 (start emptyStatements ∅) = Some (None, p').
Proof. eexists. vm_compute. reflexivity. Qed.

(** [; ; END], through [parseStatement_null]: the empty statement. *)
Lemma parseStatement_null_witness :
  let p := start emptyStatements ∅ in
  ∃ p',
    parseStatement 1 p = Some (None, p') ∧
    ((currentType p = SEMICOLON ∧
      p' = setLineNumber (Token.lineNumber (Parser.currentToken p)) p) ∨
     (Parser.errorCount p' = Parser.errorCount p + 1 ∧
      currentType p ∉ [IDENTIFIER; BEGIN; REPEAT; WRITE; WRITELN; WHILE;
                       SEMICOLON])).
Proof.
  destruct emptyStatement_run as (p' & Hrun).
  exists p'. split; [exact Hrun|].
  exact (parseStatement_null _ _ _ Hrun).
Defined.

Lemma assignOne_run :
  let p := start assignOne ∅ in
  ∃ p',
    parseStatement 9 p =
      Some (Some (statement NodeType.ASSIGN 1
                    [variable "x" (entryOf "x"); integer 1]), p') ∧
    parseAssignmentStatement 8 p =
      Some (statement NodeType.ASSIGN 0
              [variable "x" (entryOf "x"); integer 1], p').
Proof. eexists. split; vm_compute; reflexivity. Qed.

(** [x := 1], through [parseStatement_progress]: tokens are consumed. *)
Lemma parseStatement_progress_witness :
  let p := start assignOne ∅ in
  ∃ n p', parseStatement 9 p = Some (n, p') ∧ (weight p' < weight p)%nat.
Proof.
  destruct assignOne_run as (p' & Hrun & _).
  eexists _, p'. split; [exact Hrun|].
  destruct (parseStatement_progress _ _ _ _ Hrun) as [Hless _].
  apply Hless. reflexivity.
Defined.

(** [x := 1], through [parseAssignmentStatement_declares]. *)
Lemma parseAssignmentStatement_declares_witness :
  let p := start assignOne ∅ in
  ∃ n p' entry,
    parseAssignmentStatement 8 p = Some (n, p') ∧
    Symtab.lookup (toLowerCase "x") (Parser.symtab p') = Some entry.
Proof.
  destruct assignOne_run as (p' & _ & Hrun).
  assert (Symtab.lookup (toLowerCase "x")
            (Symtab.enter "x"
               (∅ : gmap string SimpleSymtab.SymtabEntry)).2 =
          Some (Symtab.enter "x" ∅).1) as Hfind
    by (vm_compute; reflexivity).
  destruct (parseAssignmentStatement_declares 8 (start assignOne ∅) _ _
              Hfind Hrun) as (entry & rhs & _ & Hfound).
  eexists _, p', entry. split; [exact Hrun|exact Hfound].
Defined.

(** [BEGIN UNTIL], through [parseStatement_stray_follower]. *)
Lemma parseStatement_stray_follower_witness :
  parseStatement 50 (start strayUntil ∅) = None.
Proof.
  apply parseStatement_stray_follower. left.
  split; [reflexivity|]. apply elem_of_cons. by left.
Defined.

(** ** Statement lists *)

Lemma emptyStatements_run :
  ∃ p',
    parseStatementList 3 (Node.new NodeType.COMPOUND) END
      (start emptyStatements ∅) =
      Some (Node.new NodeType.COMPOUND, p').
Proof. eexists. vm_compute. reflexivity. Qed.

(** [; ; END], through [parseStatementList_result]. *)
Lemma parseStatementList_result_witness :
  ∃ n p',
    parseStatementList 3 (Node.new NodeType.COMPOUND) END
      (start emptyStatements ∅) = Some (n, p') ∧
    (currentType p' = END ∨ currentType p' = END_OF_FILE).
Proof.
  destruct emptyStatements_run as (p' & Hrun).
  eexists _, p'. split; [exact Hrun|].
  by destruct (parseStatementList_result _ _ _ _ _ _ Hrun) as [Hexit _].
Defined.

(** [; ; END], through [separator_after_recovery]. *)
Lemma separator_after_recovery_witness :
  let p := start emptyStatements ∅ in
  Parser.errorCount (separator p) = Parser.errorCount p ∧
  Parser.output (separator p) = Parser.output p ∧
  currentType (separator p) ≠ SEMICOLON.
Proof. apply separator_after_recovery. reflexivity. Defined.

(** [; ; END], through [parseStatementList_empty_statements]. *)
Lemma parseStatementList_empty_statements_witness :
  let p := start emptyStatements ∅ in
  ∃ p',
    parseStatementList 2 (Node.new NodeType.COMPOUND) END p =
      Some (Node.new NodeType.COMPOUND, p') ∧
    pending p' [word END "END"] ∧
    Parser.errorCount p' = Parser.errorCount p ∧
    Parser.output p' = Parser.output p.
Proof.
  apply (parseStatementList_empty_statements
           [word SEMICOLON ";"; word SEMICOLON ";"] [word END "END"]).
  - repeat constructor.
  - split; reflexivity.
  - done.
  - apply elem_of_cons. by left.
  - lia.
Defined.

Lemma oneAssignment_run :
  ∃ p',
    parseCompoundStatement 7 (start oneAssignment ∅) =
      Some (statement NodeType.COMPOUND 1
              [statement NodeType.ASSIGN 1
                 [variable "x" (entryOf "x"); integer 1]], p').
Proof. eexists. vm_compute. reflexivity. Qed.

(** [BEGIN x := 1 END], through [parseCompoundStatement_end]. *)
Lemma parseCompoundStatement_end_witness :
  let p := start oneAssignment ∅ in
  ∃ n p' body q,
    parseCompoundStatement 7 p = Some (n, p') ∧
    Forall is_Some body ∧
    Node.children n = body ∧
    ((currentType q = END ∧ p' = nextToken q) ∨
     (currentType q = END_OF_FILE ∧
      p' = report SYNTAX_ERROR "Expecting END" q)).
Proof.
  destruct oneAssignment_run as (p' & Hrun).
  destruct (parseCompoundStatement_end _ _ _ _ Hrun)
    as (body & q & _ & Hn & Hbody & Hend).
  eexists _, p', body, q. split; [exact Hrun|]. split; [exact Hbody|].
  split; [by rewrite Hn|exact Hend].
Defined.

(** ** Loops *)

Lemma repeatOpen_run :
  ∃ p',
    parseRepeatStatement 8 (start repeatOpen ∅) =
      Some (statement NodeType.LOOP 0
              [statement NodeType.ASSIGN 1
                 [variable "x" (entryOf "x"); integer 1]], p').
Proof. eexists. vm_compute. reflexivity. Qed.

(** [REPEAT x := 1], through [parseRepeatStatement_end]: the input ends
    before UNTIL. *)
Lemma parseRepeatStatement_end_witness :
  let p := start repeatOpen ∅ in
  ∃ n p' body q,
    parseRepeatStatement 8 p = Some (n, p') ∧
    parseStatementList 7 (Node.new NodeType.LOOP) UNTIL (nextToken p) =
      Some (Node.mk NodeType.LOOP 0 "" None NoValue body, q) ∧
    Forall is_Some body.
Proof.
  destruct repeatOpen_run as (p' & Hrun).
  destruct (parseRepeatStatement_end _ _ _ _ Hrun)
    as (body & q & Hlist & Hbody & _).
  eexists _, p', body, q. split; [exact Hrun|]. by split.
Defined.

Lemma whileEmpty_run :
  ∃ p',
    parseWhileStatement 8 (start whileEmpty (declared ["x"])) =
      Some (Node.mk NodeType.LOOP 0 "" None NoValue
              [Some (unary NodeType.TEST 0
                       (unary NodeType.NOT 0 (variable "x" (entryOf "x"))));
               None], p').
Proof. eexists. vm_compute. reflexivity. Qed.

(** [WHILE x DO ;], through [parseWhileStatement_body]: the body is a null
    pointer. *)
Lemma parseWhileStatement_body_witness :
  let p := start whileEmpty (declared ["x"]) in
  ∃ n p' cond q rest,
    parseWhileStatement 8 p = Some (n, p') ∧
    parseExpression 7 (nextToken p) = Some (cond, q) ∧
    n = Node.mk NodeType.LOOP 0 "" None NoValue
          (Some (Node.mk NodeType.TEST 0 "" None NoValue
                   [Some (Node.mk NodeType.NOT 0 "" None NoValue [cond])])
           :: rest).
Proof.
  destruct whileEmpty_run as (p' & Hrun).
  destruct (parseWhileStatement_body _ _ _ _ Hrun)
    as (cond & q & rest & Hcond & Hn & _).
  eexists _, p', cond, q, rest. split; [exact Hrun|]. by split.
Defined.

(** ** WRITE *)

(** [WRITE ( 1 )], through [parseWriteStatement_cascade]: three errors. *)
Lemma parseWriteStatement_cascade_witness :
  let p := start writeNumber ∅ in
  (parseWriteStatement p).1 = Node.new NodeType.WRITE ∧
  Parser.errorCount (parseWriteStatement p).2 = Parser.errorCount p + 3.
Proof.
  destruct (parseWriteStatement_cascade (start writeNumber ∅))
    as [Hrun Hcount].
  - intros _. rewrite !not_elem_of_cons.
    repeat split; [done..|apply not_elem_of_nil].
  - split; [by rewrite Hrun|exact Hcount].
Defined.

(** ** Programs *)

Lemma wholeProgram_run :
  ∃ n p', parseProgram 67 (Parser.new wholeProgram ∅) = Some (n, p').
Proof. eexists _, _. vm_compute. reflexivity. Qed.

(** [PROGRAM demo ; BEGIN x := 1 ; ; WRITELN ( x ) END .], through
    [parseProgram_accounting]. *)
Lemma parseProgram_accounting_witness :
  let p := Parser.new wholeProgram ∅ in
  ∃ n p',
    parseProgram 67 p = Some (n, p') ∧
    Parser.errorCount p' - Parser.errorCount p =
      Z.of_nat (length (Parser.output p')) -
      Z.of_nat (length (Parser.output p)).
Proof.
  destruct wholeProgram_run as (n & p' & Hrun).
  exists n, p'. split; [exact Hrun|].
  by destruct (parseProgram_accounting _ _ _ _ Hrun) as [Hcount _].
Defined.

Lemma parseProgram_tree_witness :
  ∃ n p' line body,
    parseProgram 67 (Parser.new wholeProgram ∅) = Some (n, p') ∧
    n = Node.mk NodeType.PROGRAM 0 "demo" None NoValue
          [Some (Node.mk NodeType.COMPOUND line "" None NoValue body)] ∧
    Forall is_Some body.
Proof.
  destruct wholeProgram_run as (n & p' & Hrun).
  destruct (parseProgram_tree _ _ _ _ Hrun) as (line & body & Hn & Hbody).
  exists n, p', line, body. split; [exact Hrun|]. by split.
Defined.

Lemma wholeProgram_noLoopToken :
  noLoopToken
    (Parser.new wholeProgram (∅ : gmap string SimpleSymtab.SymtabEntry)).
Proof.
  intros tok Htok. vm_compute in Htok.
  repeat (apply elem_of_cons in Htok as [->|Htok];
          [rewrite !not_elem_of_cons;
           repeat split; [done..|apply not_elem_of_nil]|]).
  by apply elem_of_nil in Htok.
Qed.

(** The same program, through [parseProgram_returns]: it holds no REPEAT,
    UNTIL or DO. *)
Lemma parseProgram_returns_witness :
  ∃ n p',
    parseProgram 67 (Parser.new wholeProgram ∅) = Some (n, p') ∧
    Node.type n = NodeType.PROGRAM.
Proof.
  apply parseProgram_returns.
  - exact wholeProgram_noLoopToken.
  - vm_compute. lia.
Defined.

(** [x 1], through [parseProgram_no_follower]: five errors for a file
    without a statement follower. *)
Lemma parseProgram_no_follower_witness :
  ∃ p',
    parseProgram 1
      (Parser.new noFollower (∅ : gmap string SimpleSymtab.SymtabEntry)) =
      Some (Node.mk NodeType.PROGRAM 0 "" None NoValue
              [Some (Node.mk NodeType.COMPOUND 0 "" None NoValue [])], p') ∧
    Parser.errorCount p' = 5 ∧
    message <$> Parser.output p' =
      ["Expecting PROGRAM"; "Expecting program name"; "Missing ;";
       "Expecting BEGIN"; "Expecting END"] ∧
    Parser.symtab p' = ∅ ∧
    stream p' = [Scanner.eofToken].
Proof.
  apply (parseProgram_no_follower 0 noFollower).
  - repeat constructor.
  - intros tok [= <-]. done.
Defined.

(** ** Errors that cascade *)

(** [- 1 ;], through [parseExpression_cannot_start]: there is no unary
    minus. *)
Lemma parseExpression_cannot_start_witness :
  let p := start negative ∅ in
  parseExpression 4 p = Some (None, syntaxError "Unexpected token" p) ∧
  Parser.errorCount (syntaxError "Unexpected token" p) =
    Parser.errorCount p + 1 ∧
  statementFollowers (currentType (syntaxError "Unexpected token" p)) = true.
Proof.
  apply (parseExpression_cannot_start 4 (start negative ∅)).
  - rewrite !not_elem_of_cons.
    repeat split; [done..|apply not_elem_of_nil].
  - lia.
Defined.

(** [x 1], through [parseAssignmentStatement_missing_assign]. *)
Lemma parseAssignmentStatement_missing_assign_witness :
  let p := start noFollower ∅ in
  ∃ entry p',
    parseAssignmentStatement 4 p =
      Some (Node.mk NodeType.ASSIGN 0 "" None NoValue
              [Some (Node.mk NodeType.VARIABLE 0 "x" (Some entry)
                       NoValue []);
               None], p') ∧
    Parser.errorCount p' = Parser.errorCount p + 2 ∧
    message <$> Parser.output p' =
      (message <$> Parser.output p) ++ ["Missing :="; "Unexpected token"] ∧
    statementFollowers (currentType p') = true.
Proof.
  apply (parseAssignmentStatement_missing_assign 4 (start noFollower ∅)).
  - intros Heq. vm_compute in Heq. discriminate Heq.
  - lia.
Defined.

(** ** A program accepted *)

Lemma wholeProgram_accepted_run :
  let p := Parser.new wholeProgram ∅ in
  ∃ n p',
    parseProgram 67 p = Some (n, p') ∧
    Parser.errorCount p' = Parser.errorCount p.
Proof. eexists _, _. split; [vm_compute; reflexivity|]. by vm_compute. Qed.

(** [PROGRAM demo ; BEGIN x := 1 ; ; WRITELN ( x ) END .], through
    [parseProgram_accepted]. *)
Lemma parseProgram_accepted_witness :
  let p := Parser.new wholeProgram ∅ in
  ∃ n p' q,
    parseProgram 67 p = Some (n, p') ∧
    currentType (nextToken p) = TokenType.PROGRAM ∧
    currentType (nextToken (nextToken p)) = IDENTIFIER ∧
    Node.text n = "demo" ∧
    currentType q = END ∧
    p' = nextToken q.
Proof.
  destruct wholeProgram_accepted_run as (n & p' & Hrun & Hok).
  destruct (parseProgram_accepted _ _ _ _ Hrun Hok)
    as (Hprogram & Hid & _ & _ & body & q & _ & Hn & _ & Hend & Hp' & _).
  exists n, p', q. split; [exact Hrun|]. split; [exact Hprogram|].
  split; [exact Hid|]. split; [by rewrite Hn|]. by split.
Defined.
